(** * DAT Conditional Updater: a shallow embedding of [update_dat.py]

    The script rewrites a file of fixed-size records.  Rules read from an INI
    file are evaluated on every data record: when all conditions of a rule
    match the record buffer, the rule's updates are written into the buffer.

    The development is laid out as follows:
    - [Py]: the pieces of the Python runtime the script relies on
      (exceptions, slices of a [bytearray], [str.split], [str.strip],
      [int], the UTF-16-BE codec, insertion-ordered dictionaries);
    - [UpdateDat]: the functions of [update_dat.py], line by line, and
      [CreateTestData]: the generator of the test file;
    - [Vocabulary] and [Samples]: the notions the statements use, and
      small configurations and records to run them on;
    - the facts about the runtime, the rule engine, the record loop, a
      whole run and the loader;
    - the properties of the specification, C1 to C10. *)

From Stdlib Require Import String Ascii ZArith List Bool Lia Permutation.
Import ListNotations.
Local Open Scope Z_scope.

(* ================================================================== *)
(** ** The Python runtime *)
(* ================================================================== *)

Module Py.

(** Exceptions the script can meet.  None of them is caught anywhere in
    [update_dat.py]: a raised exception ends the run. *)
Inductive exn : Type :=
| ValueError
| UnicodeEncodeError
| ZeroDivisionError
| IndexError
| KeyError.

Inductive result (A : Type) : Type :=
| Ok (a : A)
| Raise (e : exn).

Arguments Ok {A} a.
Arguments Raise {A} e.

Definition bind {A B : Type} (m : result A) (k : A -> result B) : result B :=
  match m with
  | Ok a => k a
  | Raise e => Raise e
  end.

Definition is_ok {A : Type} (m : result A) : bool :=
  match m with Ok _ => true | Raise _ => false end.

(** A [str] is a sequence of code points, a [bytes] or [bytearray] value a
    sequence of octets; both are kept as integers. *)
Definition str : Type := list Z.
Definition bytes : Type := list Z.

Definition len {A : Type} (l : list A) : Z := Z.of_nat (length l).

Fixpoint list_eqb (a b : list Z) : bool :=
  match a, b with
  | [], [] => true
  | x :: a', y :: b' => (x =? y) && list_eqb a' b'
  | _, _ => false
  end.

(** [of_string] reads a literal of the development as a [str]. *)
Definition of_string (s : string) : str :=
  map (fun a => Z.of_N (N_of_ascii a)) (list_ascii_of_string s).

(** *** Slices

    [PySlice_AdjustIndices] for a step of 1: a negative index counts from the
    end, and the result is clamped to [0, length]. *)
Definition adjust_index (n i : Z) : Z :=
  if i <? 0 then Z.max 0 (i + n) else Z.min i n.

(** [b[start:stop]] *)
Definition getslice (b : bytes) (start stop : Z) : bytes :=
  let s := adjust_index (len b) start in
  let e := adjust_index (len b) stop in
  firstn (Z.to_nat (e - s)) (skipn (Z.to_nat s) b).

(** [b[start:stop] = new] on a [bytearray]: the adjusted range is replaced by
    [new], whatever its length; a range whose stop lies before its start is
    the empty range at [start], so the assignment inserts there. *)
Definition setslice (b : bytes) (start stop : Z) (new : bytes) : bytes :=
  let s := adjust_index (len b) start in
  let e := Z.max s (adjust_index (len b) stop) in
  firstn (Z.to_nat s) b ++ new ++ skipn (Z.to_nat e) b.

(** [b[i]] for a non-negative literal index. *)
Definition getitem (b : bytes) (i : nat) : result Z :=
  match nth_error b i with
  | Some x => Ok x
  | None => Raise IndexError
  end.

(** [f.read(n)] on the rest of a file: the bytes read and what is left. *)
Definition read (n : Z) (rest : bytes) : bytes * bytes :=
  if n <? 0 then (rest, [])
  else (firstn (Z.to_nat n) rest, skipn (Z.to_nat n) rest).

(** [a // b] *)
Definition floordiv (a b : Z) : result Z :=
  if b =? 0 then Raise ZeroDivisionError else Ok (a / b).

(** *** The UTF-16-BE codec *)

Definition is_low_surrogate (u : Z) : bool := (0xDC00 <=? u) && (u <=? 0xDFFF).
Definition is_surrogate (u : Z) : bool := (0xD800 <=? u) && (u <=? 0xDFFF).

Definition be16 (u : Z) : bytes := [u / 256; u mod 256].

(** One code point: a code unit below U+10000, a surrogate pair above; a
    lone surrogate cannot be encoded. *)
Definition encode_char (c : Z) : result bytes :=
  if (c <? 0) || (0x10FFFF <? c) || is_surrogate c then Raise UnicodeEncodeError
  else if c <? 0x10000 then Ok (be16 c)
  else let v := c - 0x10000 in
       Ok (be16 (0xD800 + v / 1024) ++ be16 (0xDC00 + v mod 1024)).

(** [s.encode('utf-16-be')] *)
Fixpoint encode_utf16_be (s : str) : result bytes :=
  match s with
  | [] => Ok []
  | c :: s' =>
      bind (encode_char c) (fun b =>
      bind (encode_utf16_be s') (fun bs => Ok (b ++ bs)))
  end.

Definition REPLACEMENT : Z := 0xFFFD.

(** [b.decode('utf-16-be', errors='replace')]: each ill-formed piece (a lone
    low surrogate, a high surrogate not followed by a low one, a high
    surrogate cut by the end of the data, an odd last byte) becomes U+FFFD.
    The function is total: it never raises. *)
Fixpoint decode_utf16_be (b : bytes) : str :=
  match b with
  | [] => []
  | [_] => [REPLACEMENT]
  | hi :: lo :: rest =>
      let u := hi * 256 + lo in
      if negb (is_surrogate u) then u :: decode_utf16_be rest
      else if is_low_surrogate u then REPLACEMENT :: decode_utf16_be rest
      else
        match rest with
        | hi2 :: lo2 :: rest' =>
            let u2 := hi2 * 256 + lo2 in
            if is_low_surrogate u2
            then (0x10000 + (u - 0xD800) * 1024 + (u2 - 0xDC00)) :: decode_utf16_be rest'
            else REPLACEMENT :: decode_utf16_be rest
        | _ => [REPLACEMENT]
        end
  end.

(** *** Text operations *)

(** [str.isspace] for one character. *)
Definition is_space (c : Z) : bool :=
  ((0x09 <=? c) && (c <=? 0x0D)) || ((0x1C <=? c) && (c <=? 0x20))
  || (c =? 0x85) || (c =? 0xA0) || (c =? 0x1680)
  || ((0x2000 <=? c) && (c <=? 0x200A))
  || (c =? 0x2028) || (c =? 0x2029) || (c =? 0x202F) || (c =? 0x205F)
  || (c =? 0x3000).

Fixpoint lstrip_by (space : Z -> bool) (s : str) : str :=
  match s with
  | c :: s' => if space c then lstrip_by space s' else s
  | [] => []
  end.

Definition strip_by (space : Z -> bool) (s : str) : str :=
  rev (lstrip_by space (rev (lstrip_by space s))).

(** [s.strip()] *)
Definition strip (s : str) : str := strip_by is_space s.

(** [s.split(sep)] for a one-character separator: the pieces between the
    separators; the empty string gives one empty piece. *)
Fixpoint split (sep : Z) (s : str) : list str :=
  match s with
  | [] => [[]]
  | c :: s' =>
      if c =? sep then [] :: split sep s'
      else
        match split sep s' with
        | p :: ps => (c :: p) :: ps
        | [] => [[c]]
        end
  end.

(** [sep in s] *)
Definition contains (sep : Z) (s : str) : bool := existsb (Z.eqb sep) s.

(** [s.split(sep, 1)] when [sep in s]: the text before the first separator
    and the text after it. *)
Fixpoint split_once (sep : Z) (s : str) : str * str :=
  match s with
  | [] => ([], [])
  | c :: s' =>
      if c =? sep then ([], s')
      else let (a, b) := split_once sep s' in (c :: a, b)
  end.

(** [s.startswith(p)] *)
Fixpoint startswith (s p : str) : bool :=
  match p, s with
  | [], _ => true
  | x :: p', y :: s' => (x =? y) && startswith s' p'
  | _ :: _, [] => false
  end.

(** The white space [int] skips around a number: the ASCII ones of C's
    [isspace] and the white space beyond ASCII; unlike [str.strip], not the
    separators U+001C to U+001F. *)
Definition is_int_space (c : Z) : bool :=
  ((0x09 <=? c) && (c <=? 0x0D)) || (c =? 0x20)
  || ((0x80 <=? c) && is_space c).

(** The characters with value 0 of the decimal digits [int] reads (Unicode
    14.0, the table of CPython 3.11): each is followed by the digits 1 to 9
    of its script. *)
Definition decimal_zeros : list Z :=
  [0x30; 0x660; 0x6F0; 0x7C0; 0x966; 0x9E6; 0xA66; 0xAE6; 0xB66; 0xBE6;
   0xC66; 0xCE6; 0xD66; 0xDE6; 0xE50; 0xED0; 0xF20; 0x1040; 0x1090; 0x17E0;
   0x1810; 0x1946; 0x19D0; 0x1A80; 0x1A90; 0x1B50; 0x1BB0; 0x1C40; 0x1C50;
   0xA620; 0xA8D0; 0xA900; 0xA9D0; 0xA9F0; 0xAA50; 0xABF0; 0xFF10; 0x104A0;
   0x10D30; 0x11066; 0x110F0; 0x11136; 0x111D0; 0x112F0; 0x11450; 0x114D0;
   0x11650; 0x116C0; 0x11730; 0x118E0; 0x11950; 0x11C50; 0x11D50; 0x11DA0;
   0x16A60; 0x16AC0; 0x16B50; 0x1D7CE; 0x1D7D8; 0x1D7E2; 0x1D7EC; 0x1D7F6;
   0x1E140; 0x1E2F0; 0x1E950; 0x1FBF0].

Definition decimal_value (c : Z) : option Z :=
  match find (fun z => (z <=? c) && (c <? z + 10)) decimal_zeros with
  | Some z => Some (c - z)
  | None => None
  end.

(** The digits of a decimal literal: at least one digit, and an underscore
    only between two digits. *)
Fixpoint digits_from (acc : Z) (after_digit : bool) (s : str) : option Z :=
  match s with
  | [] => if after_digit then Some acc else None
  | c :: s' =>
      match decimal_value c with
      | Some d => digits_from (acc * 10 + d) true s'
      | None =>
          if (c =? 95) && after_digit then digits_from acc false s'
          else None
      end
  end.

(** [int(s)]: surrounding white space, an optional sign, decimal digits.
    The limit CPython 3.11 puts on the number of digits (4300 unless
    configured otherwise) is not part of this model. *)
Definition int (s : str) : result Z :=
  match strip_by is_int_space s with
  | [] => Raise ValueError
  | c :: ds =>
      if c =? 45 then
        match digits_from 0 false ds with
        | Some n => Ok (- n)
        | None => Raise ValueError
        end
      else
        match digits_from 0 false (if c =? 43 then ds else c :: ds) with
        | Some n => Ok n
        | None => Raise ValueError
        end
  end.

(** *** Dictionaries with [str] keys, in insertion order *)

Definition dict (V : Type) : Type := list (str * V).

Fixpoint dict_get {V : Type} (d : dict V) (k : str) : result V :=
  match d with
  | [] => Raise KeyError
  | (k', v) :: d' => if list_eqb k' k then Ok v else dict_get d' k
  end.

(** [d[k] = v]: an existing key keeps its place. *)
Fixpoint dict_set {V : Type} (d : dict V) (k : str) (v : V) : dict V :=
  match d with
  | [] => [(k, v)]
  | (k', v') :: d' =>
      if list_eqb k' k then (k', v) :: d' else (k', v') :: dict_set d' k v
  end.

End Py.

(* ================================================================== *)
(** ** The script *)
(* ================================================================== *)

Module UpdateDat.
Import Py.

Notation "x <- m ;; k" := (bind m (fun x => k))
  (at level 61, m at next level, right associativity).

(** *** Data *)

(** One [{'StartByte': ..., 'Value': ...}] entry, a condition or an update. *)
Record entry : Type := { StartByte : Z; Value : str }.

Record rule : Type := {
  Name : str;
  Conditions : list entry;
  Updates : list entry
}.

Record settings : Type := {
  RecordSize : Z;
  HeaderMarker : Z;
  DataMarker : Z
}.

(** What [configparser] hands to [load_config]: the three integer settings
    where the file gives them, and the sections in file order, each with
    the text of its [Conditions] and [Updates] options where present. *)
Record section : Type := {
  sec_name : str;
  sec_Conditions : option str;
  sec_Updates : option str
}.

Record config : Type := {
  cfg_RecordSize : option Z;
  cfg_HeaderMarker : option Z;
  cfg_DataMarker : option Z;
  cfg_sections : list section
}.

(** [config.get(..., fallback=d)] and [config.getint(..., fallback=d)] *)
Definition fallback {A : Type} (o : option A) (d : A) : A :=
  match o with Some v => v | None => d end.

(** One line pushed through [log].  A constructor stands for one call site
    of [log] in [main] and carries the values its f-string prints. *)
Record change : Type := {
  ch_rule : str;
  ch_StartByte : Z;
  ch_old_val : str;
  ch_new_val : str
}.

Inductive log_line : Type :=
| LBanner (n : nat)
| LConfigFile (path : str)
| LInputFile (path : str)
| LOutputFile (path : str)
| LRecordSize (n : Z)
| LBlank
| LFileInfo (file_size record_count n_rules : Z)
| LRule (r : rule)
| LSeparator
| LHeaderSkip (record_num : Z)
| LUpdated (record_num : Z)
| LChange (c : change)
| LSummary (modified_count record_count : Z)
| LRuleHits (name : str) (hits : Z).

Record paths : Type := {
  config_file : str;
  input_file : str;
  output_file : str
}.

(** *** [parse_conditions], [parse_updates] *)

Definition COMMA : Z := 44.
Definition COLON : Z := 58.

(** The body of the [for item in cond_str.split(',')] loop over the items
    still to read; [conditions] is the list built so far. *)
Fixpoint parse_items (items : list str) (conditions : list entry)
  : result (list entry) :=
  match items with
  | [] => Ok conditions
  | item :: items' =>
      let item := strip item in
      if contains COLON item then
        let (byte_pos, value) := split_once COLON item in
        n <- int byte_pos ;;
        parse_items items' (conditions ++ [{| StartByte := n; Value := value |}])
      else parse_items items' conditions
  end.

Definition parse_conditions (cond_str : str) : result (list entry) :=
  parse_items (split COMMA cond_str) [].

Definition parse_updates (upd_str : str) : result (list entry) :=
  parse_conditions upd_str.

(** *** [load_config] *)

Definition RULE_PREFIX : str := of_string "Rule-".

Fixpoint load_rules (sections : list section) (rules : list rule)
  : result (list rule) :=
  match sections with
  | [] => Ok rules
  | s :: sections' =>
      if startswith (sec_name s) RULE_PREFIX then
        conds <- parse_conditions (fallback (sec_Conditions s) []) ;;
        upds <- parse_updates (fallback (sec_Updates s) []) ;;
        let r := {| Name := sec_name s; Conditions := conds; Updates := upds |} in
        match conds, upds with
        | _ :: _, _ :: _ => load_rules sections' (rules ++ [r])
        | _, _ => load_rules sections' rules
        end
      else load_rules sections' rules
  end.

Definition load_settings (c : config) : settings :=
  {| RecordSize := fallback (cfg_RecordSize c) 1300;
     HeaderMarker := fallback (cfg_HeaderMarker c) 1;
     DataMarker := fallback (cfg_DataMarker c) 2 |}.

Definition load_config (c : config) : result (settings * list rule) :=
  rules <- load_rules (cfg_sections c) [] ;;
  Ok (load_settings c, rules).

(** *** The rule engine: the body of the [elif first_byte == DATA_MARKER]
    branch of [main] *)

(** The [for cond in rule['Conditions']] loop: [Ok true] when no condition
    broke out of it.  Conditions after the first mismatch are not looked
    at, so their values are not encoded. *)
Fixpoint all_match (conds : list entry) (record : bytes) : result bool :=
  match conds with
  | [] => Ok true
  | cond :: conds' =>
      let offset := StartByte cond - 1 in
      expected <- encode_utf16_be (Value cond) ;;
      let actual := getslice record offset (offset + len expected) in
      if list_eqb actual expected then all_match conds' record
      else Ok false
  end.

(** The [for upd in rule['Updates']] loop. *)
Fixpoint apply_updates (name : str) (upds : list entry)
  (record : bytes) (changes : list change) : result (bytes * list change) :=
  match upds with
  | [] => Ok (record, changes)
  | upd :: upds' =>
      let offset := StartByte upd - 1 in
      new_bytes <- encode_utf16_be (Value upd) ;;
      let old_bytes := getslice record offset (offset + len new_bytes) in
      let old_val := decode_utf16_be old_bytes in
      let record' := setslice record offset (offset + len new_bytes) new_bytes in
      apply_updates name upds' record'
        (changes ++ [{| ch_rule := name; ch_StartByte := StartByte upd;
                        ch_old_val := old_val; ch_new_val := Value upd |}])
  end.

(** What the rule loop reads and writes while one record is processed. *)
Record eval_state : Type := {
  record : bytes;
  changes : list change;
  has_change : bool;
  rule_hits : dict Z
}.

(** [rule_hits[name] += 1] *)
Definition dict_incr (d : dict Z) (k : str) : result (dict Z) :=
  v <- dict_get d k ;;
  Ok (dict_set d k (v + 1)).

(** One turn of the [for rule in rules] loop. *)
Definition eval_rule (r : rule) (st : eval_state) : result eval_state :=
  m <- all_match (Conditions r) (record st) ;;
  if (m : bool) then
    rc <- apply_updates (Name r) (Updates r) (record st) (changes st) ;;
    hits <- dict_incr (rule_hits st) (Name r) ;;
    Ok {| record := fst rc; changes := snd rc; has_change := true;
          rule_hits := hits |}
  else Ok st.

Fixpoint eval_rules (rules : list rule) (st : eval_state) : result eval_state :=
  match rules with
  | [] => Ok st
  | r :: rules' =>
      st' <- eval_rule r st ;;
      eval_rules rules' st'
  end.

(** *** The record loop of [main] *)

(** [f_in] is what is left to read of the input file; [f_out] lists the
    arguments of the [f_out.write] calls so far, whose concatenation is the
    output file. *)
Record state : Type := {
  f_in : bytes;
  f_out : list bytes;
  logs : list log_line;
  modified_count : Z;
  hits : dict Z
}.

Definition output_bytes (st : state) : bytes := concat (f_out st).

(** The body of [for i in range(record_count)]. *)
Definition process_record (s : settings) (rules : list rule) (i : Z)
  (st : state) : result state :=
  let RECORD_SIZE := RecordSize s in
  let HEADER_MARKER := 0x30 + HeaderMarker s in
  let DATA_MARKER := 0x30 + DataMarker s in
  let (rec, rest) := read RECORD_SIZE (f_in st) in
  let record_num := i + 1 in
  first_byte <- getitem rec 0 ;;
  if first_byte =? HEADER_MARKER then
    Ok {| f_in := rest; f_out := f_out st ++ [rec];
          logs := logs st ++ [LHeaderSkip record_num];
          modified_count := modified_count st; hits := hits st |}
  else if first_byte =? DATA_MARKER then
    es <- eval_rules rules {| record := rec; changes := [];
                              has_change := false; rule_hits := hits st |} ;;
    if has_change es then
      Ok {| f_in := rest; f_out := f_out st ++ [record es];
            logs := logs st ++ LUpdated record_num :: map LChange (changes es);
            modified_count := modified_count st + 1; hits := rule_hits es |}
    else
      Ok {| f_in := rest; f_out := f_out st ++ [record es];
            logs := logs st; modified_count := modified_count st;
            hits := rule_hits es |}
  else
    Ok {| f_in := rest; f_out := f_out st ++ [rec];
          logs := logs st; modified_count := modified_count st;
          hits := hits st |}.

(** [for i in range(record_count)], from record [i] on, [n] records to go. *)
Fixpoint record_loop (s : settings) (rules : list rule) (n : nat) (i : Z)
  (st : state) : result state :=
  match n with
  | O => Ok st
  | S n' =>
      st' <- process_record s rules i st ;;
      record_loop s rules n' (i + 1) st'
  end.

(** *** [main], from [# Load config] on *)

(** [{rule['Name']: 0 for rule in rules}] *)
Definition init_hits (rules : list rule) : dict Z :=
  fold_left (fun d r => dict_set d (Name r) 0) rules [].

(** The lines logged before the record loop. *)
Definition preamble (p : paths) (s : settings) (rules : list rule)
  (file_size record_count : Z) : list log_line :=
  [LBanner 0; LBanner 1; LBanner 2;
   LConfigFile (config_file p); LInputFile (input_file p);
   LOutputFile (output_file p); LRecordSize (RecordSize s); LBlank;
   LFileInfo file_size record_count (len rules); LBlank]
  ++ map LRule rules ++ [LBlank; LSeparator].

(** The [for rule in rules] loop of the summary. *)
Fixpoint summary_hits (rules : list rule) (d : dict Z) : result (list log_line) :=
  match rules with
  | [] => Ok []
  | r :: rules' =>
      h <- dict_get d (Name r) ;;
      ls <- summary_hits rules' d ;;
      Ok (LRuleHits (Name r) h :: ls)
  end.

(** What a finished run leaves: the output file as the sequence of records
    written, the log, and the counters. *)
Record outcome : Type := {
  out_records : list bytes;
  out_logs : list log_line;
  out_record_count : Z;
  out_modified_count : Z;
  out_rule_hits : dict Z
}.

Definition out_file (o : outcome) : bytes := concat (out_records o).

(** [main] once the settings and the rules are loaded.  [log] is the append
    to [logs]; the [print] it also makes and the writing of the log file at
    the end are left out: they raise only for text that cannot be encoded,
    which a configuration read from a UTF-8 file does not hold. *)
Definition run (p : paths) (s : settings) (rules : list rule) (input : bytes)
  : result outcome :=
  let RECORD_SIZE := RecordSize s in
  let file_size := len input in
  record_count <- floordiv file_size RECORD_SIZE ;;
  let st0 := {| f_in := input; f_out := [];
                logs := preamble p s rules file_size record_count;
                modified_count := 0; hits := init_hits rules |} in
  st <- record_loop s rules (Z.to_nat record_count) 0 st0 ;;
  hs <- summary_hits rules (hits st) ;;
  Ok {| out_records := f_out st;
        out_logs := logs st ++ [LBlank; LSeparator;
                                LSummary (modified_count st) record_count] ++ hs;
        out_record_count := record_count;
        out_modified_count := modified_count st;
        out_rule_hits := hits st |}.

Definition main (p : paths) (c : config) (input : bytes) : result outcome :=
  sr <- load_config c ;;
  run p (fst sr) (snd sr) input.

End UpdateDat.

(* ================================================================== *)
(** ** The test data generator, [create_test_data.py] *)
(* ================================================================== *)

Module CreateTestData.
Import Py.

Definition record_size : Z := 1300.
Definition num_records : nat := 5.

(** [bytearray(n)]: [n] zero bytes. *)
Definition zeros (n : Z) : bytes := repeat 0 (Z.to_nat n).

(** [record[at:at+len(val)] = val] for [val = text.encode('utf-16-be')]. *)
Definition put (text : string) (at_ : Z) (record : bytes) : bytes :=
  match encode_utf16_be (of_string text) with
  | Ok val => setslice record at_ (at_ + len val) val
  | Raise _ => record
  end.

(** The body of [for i in range(num_records)]. *)
Definition test_record (i : Z) : bytes :=
  let record := zeros record_size in
  if i =? 0 then setslice record 0 1 [0x31]
  else
    let record := setslice record 0 1 [0x32] in
    let record :=
      if (i =? 1) || (i =? 2)
      then put "000" 69 (put "534" 77 (put "02" 49 record))
      else record in
    if i =? 3 then put "00" 299 (put "99" 233 record) else record.

Definition create_test_dat : bytes :=
  flat_map (fun i => test_record (Z.of_nat i)) (seq 0 num_records).

End CreateTestData.

(* ================================================================== *)
(** ** Vocabulary of the statements *)
(* ================================================================== *)

Module Vocabulary.
Import Py UpdateDat.

(** The bytes of an encodable value (and no bytes for one that is not). *)
Definition utf16 (v : str) : bytes :=
  match encode_utf16_be v with
  | Ok b => b
  | Raise _ => []
  end.

Definition encodable (v : str) : bool := is_ok (encode_utf16_be v).

Definition entries_encodable (es : list entry) : bool :=
  forallb (fun e => encodable (Value e)) es.

(** Every value of every rule can be encoded.  A configuration read from a
    UTF-8 file has this property: such text holds no lone surrogate. *)
Definition rules_encodable (rules : list rule) : bool :=
  forallb (fun r => entries_encodable (Conditions r)
                    && entries_encodable (Updates r)) rules.

(** A code point of the Basic Multilingual Plane that is not a surrogate:
    the characters UTF-16 writes as one code unit.  The ASCII digits and
    punctuation of condition and update values are among them. *)
Definition bmp_scalar (c : Z) : bool :=
  (0 <=? c) && (c <? 0x10000) && negb (is_surrogate c).

(** The window of an entry on a record, in 0-based positions:
    [StartByte - 1, StartByte - 1 + len(encoded value)). *)
Definition covers (start : Z) (v : str) (j : nat) : Prop :=
  start - 1 <= Z.of_nat j < start - 1 + len (utf16 v).

Definition entry_covers (e : entry) (j : nat) : Prop :=
  covers (StartByte e) (Value e) j.

Definition change_covers (c : change) (j : nat) : Prop :=
  covers (ch_StartByte c) (ch_new_val c) j.

(** The window of [e] lies inside a record of [n] bytes. *)
Definition entry_in_bounds (n : Z) (e : entry) : bool :=
  (1 <=? StartByte e) && (StartByte e - 1 + len (utf16 (Value e)) <=? n).

Definition updates_in_bounds (n : Z) (rules : list rule) : bool :=
  forallb (fun r => forallb (entry_in_bounds n) (Updates r)) rules.

(** One update written into a buffer: lines 133-138 of [main] for an
    encodable value. *)
Definition write (b : bytes) (upd : entry) : bytes :=
  let offset := StartByte upd - 1 in
  let new_bytes := utf16 (Value upd) in
  setslice b offset (offset + len new_bytes) new_bytes.

(** The change entry line 139 of [main] builds for one update on the
    buffer as it stands, and the entries of a whole [Updates] list. *)
Definition change_of (name : str) (b : bytes) (upd : entry) : change :=
  let offset := StartByte upd - 1 in
  let new_bytes := utf16 (Value upd) in
  {| ch_rule := name; ch_StartByte := StartByte upd;
     ch_old_val := decode_utf16_be (getslice b offset (offset + len new_bytes));
     ch_new_val := Value upd |}.

Fixpoint update_changes (name : str) (upds : list entry) (b : bytes)
  : list change :=
  match upds with
  | [] => []
  | upd :: upds' => change_of name b upd :: update_changes name upds' (write b upd)
  end.

(** Every rule name is a key of the counters. *)
Definition has_keys (rules : list rule) (d : dict Z) : bool :=
  forallb (fun r => is_ok (dict_get d (Name r))) rules.

(** The records the loop reads: [n] successive [f_in.read(RECORD_SIZE)]. *)
Fixpoint input_records (RECORD_SIZE : Z) (n : nat) (rest : bytes) : list bytes :=
  match n with
  | O => []
  | S n' =>
      let (rec, rest') := read RECORD_SIZE rest in
      rec :: input_records RECORD_SIZE n' rest'
  end.

(** The marker bytes [main] compares the first byte of a record with. *)
Definition HEADER (s : settings) : Z := 0x30 + HeaderMarker s.
Definition DATA (s : settings) : Z := 0x30 + DataMarker s.

(** The state of the rule loop when it starts on a record. *)
Definition start (rec : bytes) (d : dict Z) : eval_state :=
  {| record := rec; changes := []; has_change := false; rule_hits := d |}.

(** The change entries the rule loop produces on a record. *)
Definition fired_changes (rules : list rule) (rec : bytes) : list change :=
  match eval_rules rules (start rec (init_hits rules)) with
  | Ok es => changes es
  | Raise _ => []
  end.

(** The change entries the loop body makes for a record: those of the rule
    loop when the first byte is the data marker and not the header marker,
    none for a header record or a record with another first byte, which the
    rules never see. *)
Definition applied_changes (s : settings) (rules : list rule) (rec : bytes)
  : list change :=
  match rec with
  | [] => []
  | fb :: _ =>
      if fb =? HEADER s then []
      else if fb =? DATA s then fired_changes rules rec
      else []
  end.

(** The keys of [d] are keys of [d']. *)
Definition keys_kept (d d' : dict Z) : Prop :=
  forall k, is_ok (dict_get d k) = true -> is_ok (dict_get d' k) = true.

(** The ways a record leaves the loop body. *)
Inductive step_kind : Type := Header | Updated | Unmodified | Unknown.

(** One pass of the loop body over the record [rec], described case by
    case: what was written, what was logged, and the counters. *)
Definition step_spec (s : settings) (rules : list rule) (i : Z)
  (rec : bytes) (st st' : state) (k : step_kind) : Prop :=
  match k with
  | Header =>
      hd_error rec = Some (HEADER s)
      /\ f_out st' = f_out st ++ [rec]
      /\ logs st' = logs st ++ [LHeaderSkip (i + 1)]
      /\ modified_count st' = modified_count st /\ hits st' = hits st
  | Updated =>
      hd_error rec <> Some (HEADER s) /\ hd_error rec = Some (DATA s)
      /\ exists es, eval_rules rules (start rec (hits st)) = Ok es
         /\ has_change es = true
         /\ f_out st' = f_out st ++ [record es]
         /\ logs st' = logs st ++ LUpdated (i + 1) :: map LChange (changes es)
         /\ modified_count st' = modified_count st + 1
         /\ hits st' = rule_hits es
  | Unmodified =>
      hd_error rec <> Some (HEADER s) /\ hd_error rec = Some (DATA s)
      /\ exists es, eval_rules rules (start rec (hits st)) = Ok es
         /\ has_change es = false
         /\ f_out st' = f_out st ++ [record es]
         /\ logs st' = logs st
         /\ modified_count st' = modified_count st
         /\ hits st' = rule_hits es
  | Unknown =>
      hd_error rec <> Some (HEADER s) /\ hd_error rec <> Some (DATA s)
      /\ f_out st' = f_out st ++ [rec]
      /\ logs st' = logs st
      /\ modified_count st' = modified_count st /\ hits st' = hits st
  end.


(** What the loop body writes for a record: the argument of its
    [f_out.write], taken from a pass of the body over that record alone. *)
Definition written_record (s : settings) (rules : list rule) (rec : bytes)
  : bytes :=
  match process_record s rules 0
          {| f_in := rec; f_out := []; logs := []; modified_count := 0;
             hits := init_hits rules |} with
  | Ok st' => output_bytes st'
  | Raise _ => rec
  end.

(** A log line that reports on one record. *)
Definition is_record_entry (l : log_line) : bool :=
  match l with
  | LHeaderSkip _ | LUpdated _ => true
  | _ => false
  end.

Definition record_entries (ls : list log_line) : list log_line :=
  filter is_record_entry ls.

(** At least one rule fires in the rule loop on [rec]. *)
Definition fires (rules : list rule) (rec : bytes) : bool :=
  match eval_rules rules (start rec (init_hits rules)) with
  | Ok es => has_change es
  | Raise _ => false
  end.

(** The log lines that report on record number [i + 1]: one for a header
    record, one for a data record on which a rule fires, none otherwise. *)
Definition entry_of (s : settings) (rules : list rule) (i : Z) (rec : bytes)
  : list log_line :=
  match rec with
  | [] => []
  | fb :: _ =>
      if fb =? HEADER s then [LHeaderSkip (i + 1)]
      else if (fb =? DATA s) && fires rules rec then [LUpdated (i + 1)]
      else []
  end.

Fixpoint entries_from (s : settings) (rules : list rule) (i : Z)
  (recs : list bytes) : list log_line :=
  match recs with
  | [] => []
  | rec :: recs' => entry_of s rules i rec ++ entries_from s rules (i + 1) recs'
  end.

(** The sections [load_config] turns into rules: the rule sections whose
    two lists parse to non-empty lists. *)
Definition loads (s : section) : bool :=
  startswith (sec_name s) RULE_PREFIX
  && match parse_conditions (fallback (sec_Conditions s) []),
           parse_updates (fallback (sec_Updates s) []) with
     | Ok (_ :: _), Ok (_ :: _) => true
     | _, _ => false
     end.

(** Inversion of a [bind] that ended well. *)
Ltac bind_inv H x E :=
  match type of H with
  | bind ?m _ = Ok _ => destruct m as [x|] eqn:E; [simpl in H|discriminate H]
  end.

End Vocabulary.

(* ================================================================== *)
(** ** Sample configurations and records *)
(* ================================================================== *)

Module Samples.
Import Py UpdateDat Vocabulary.

Definition p0 : paths :=
  {| config_file := of_string "config.ini";
     input_file := of_string "in/data.dat";
     output_file := of_string "out/data.dat" |}.

(** Records of 8 bytes, header marker ['1'], data marker ['2']. *)
Definition s8 : settings :=
  {| RecordSize := 8; HeaderMarker := 1; DataMarker := 2 |}.

Definition ent (n : Z) (v : string) : entry :=
  {| StartByte := n; Value := of_string v |}.

Definition mk_rule (name : string) (conds upds : list entry) : rule :=
  {| Name := of_string name; Conditions := conds; Updates := upds |}.

(** A data record, a header record and a record with another marker; each
    holds the text [A] at byte 2. *)
Definition data8 : bytes := [0x32; 0; 65; 7; 7; 7; 7; 7].
Definition header8 : bytes := [0x31; 0; 65; 7; 7; 7; 7; 7].
Definition unknown8 : bytes := [0x39; 0; 65; 7; 7; 7; 7; 7].

(** [Rule-A: IF Byte2='A' THEN SET Byte4='B', Byte6='C'] *)
Definition rule_A : rule := mk_rule "Rule-A" [ent 2 "A"] [ent 4 "B"; ent 6 "C"].
(** [Rule-B: IF Byte4='B' THEN SET Byte4='Z'] *)
Definition rule_B : rule := mk_rule "Rule-B" [ent 4 "B"] [ent 4 "Z"].
(** [Rule-C: IF Byte2='A' THEN SET Byte2='X'] *)
Definition rule_C : rule := mk_rule "Rule-C" [ent 2 "A"] [ent 2 "X"].
(** [Rule-D: IF Byte2='A' THEN SET Byte6='D'] *)
Definition rule_D : rule := mk_rule "Rule-D" [ent 2 "A"] [ent 6 "D"].
(** [Rule-G: IF Byte2='A' THEN SET Byte8='Q']: the two bytes of [Q] start at
    the last byte of the record. *)
Definition rule_G : rule := mk_rule "Rule-G" [ent 2 "A"] [ent 8 "Q"].
(** [Rule-F: IF Byte8='7' THEN SET Byte2='Y']: the condition starts at the
    last byte of the record. *)
Definition rule_F : rule := mk_rule "Rule-F" [ent 8 "7"] [ent 2 "Y"].

(** The state of the rule loop after [rules] on [rec], or [st] itself if
    the loop raised. *)
Definition after (rules : list rule) (st : eval_state) : eval_state :=
  match eval_rules rules st with
  | Ok st' => st'
  | Raise _ => st
  end.

(** The loop state in front of one record with an unknown marker. *)
Definition st_unknown8 : state :=
  {| f_in := unknown8; f_out := []; logs := []; modified_count := 0;
     hits := init_hits [rule_A] |}.

(** Sections of a configuration file. *)
Definition sec (name : string) (conds upds : string) : section :=
  {| sec_name := of_string name;
     sec_Conditions := Some (of_string conds);
     sec_Updates := Some (of_string upds) |}.

Definition cfg (sections : list section) : config :=
  {| cfg_RecordSize := Some 8; cfg_HeaderMarker := None;
     cfg_DataMarker := None; cfg_sections := sections |}.

(** The configuration the generated test data is made for:
    [Rule-1: IF Byte50='02' AND Byte78='534' THEN SET Byte70='056'] and
    [Rule-2: IF Byte234='99' THEN SET Byte300='77'], on records of 1300
    bytes. *)
Definition fixture_config : config :=
  {| cfg_RecordSize := Some 1300; cfg_HeaderMarker := Some 1;
     cfg_DataMarker := Some 2;
     cfg_sections :=
       [ {| sec_name := of_string "Settings";
            sec_Conditions := None; sec_Updates := None |};
         sec "Rule-1" "50:02, 78:534" "70:056";
         sec "Rule-2" "234:99" "300:77" ] |}.

End Samples.

(* ================================================================== *)
(** ** Further notions: the rule text format, counters, log lines *)
(* ================================================================== *)

Module Notions.
Import Py UpdateDat Vocabulary.

(** [sep.join(items)] *)
Fixpoint join (sep : str) (items : list str) : str :=
  match items with
  | [] => []
  | [x] => x
  | x :: rest => x ++ sep ++ join sep rest
  end.

(** One [Byte:Value] field of the text format of [parse_conditions]: the
    decimal digits of the position, most significant first, and the value. *)
Record field : Type := { f_digits : list Z; f_value : str }.

(** The number a digit sequence writes. *)
Definition number (digits : list Z) : Z :=
  fold_left (fun a d => a * 10 + d) digits 0.

Definition SPACE : Z := 32.

(** The field as text, [digits:value], and a list of fields as the format
    of the docstring writes it, [Byte:Value, Byte:Value]. *)
Definition render_field (f : field) : str :=
  map (fun d => 48 + d) (f_digits f) ++ COLON :: f_value f.

Definition render (fs : list field) : str :=
  join [COMMA; SPACE] (map render_field fs).

(** A field the format can carry: at least one digit, no comma in the
    value, and no white space at the end of the value. *)
Definition field_ok (f : field) : bool :=
  match f_digits f with [] => false | _ :: _ => true end
  && forallb (fun d => (0 <=? d) && (d <=? 9)) (f_digits f)
  && negb (contains COMMA (f_value f))
  && match rev (f_value f) with
     | [] => true
     | c :: _ => negb (is_space c)
     end.

Definition entry_of_field (f : field) : entry :=
  {| StartByte := number (f_digits f); Value := f_value f |}.

(** The most digits [int] converts by default since CPython 3.11
    ([sys.int_info.default_max_str_digits]); a longer digit string raises
    [ValueError].  [Py.int] has no such limit, so it stands for [int] on the
    digit strings within it. *)
Definition MAX_STR_DIGITS : Z := 4300.

Definition field_short (f : field) : bool :=
  len (f_digits f) <=? MAX_STR_DIGITS.

(** The comparison line 127 of [main] makes for one condition. *)
Definition matches (rec : bytes) (cond : entry) : bool :=
  let offset := StartByte cond - 1 in
  let expected := utf16 (Value cond) in
  list_eqb (getslice rec offset (offset + len expected)) expected.

(** An octet. *)
Definition octet (b : Z) : bool := (0 <=? b) && (b <=? 255).

(** A code point [str.encode] accepts: not a surrogate, at most U+10FFFF. *)
Definition scalar (c : Z) : bool := is_ok (encode_char c).

(** A record that the loop body does not hand to the rules: its first byte
    is the header marker, or is not the data marker. *)
Definition not_data (s : settings) (rec : bytes) : bool :=
  match rec with
  | [] => false
  | fb :: _ => (fb =? HEADER s) || negb (fb =? DATA s)
  end.

Definition is_updated_line (l : log_line) : bool :=
  match l with LUpdated _ => true | _ => false end.

(** What the summary counters satisfy at every turn of the record loop. *)
Definition counters_ok (i : Z) (st : state) : Prop :=
  0 <= modified_count st <= i
  /\ modified_count st
     = Z.of_nat (length (filter is_updated_line (logs st)))
  /\ forall k h, dict_get (hits st) k = Ok h -> 0 <= h <= modified_count st.

(** A line the record loop writes. *)
Definition is_loop_line (l : log_line) : bool :=
  match l with
  | LHeaderSkip _ | LUpdated _ | LChange _ => true
  | _ => false
  end.

(** The log of the loop state is [start] followed by lines of the record
    loop only. *)
Definition log_extends (start : list log_line) (i : Z) (st : state) : Prop :=
  exists mid, logs st = start ++ mid /\ forallb is_loop_line mid = true.

(** The summary line of rule [r] reports the counter [d] holds for it. *)
Definition reports (d : dict Z) (r : rule) (l : log_line) : Prop :=
  exists h, dict_get d (Name r) = Ok h /\ l = LRuleHits (Name r) h.

(** Rule text that [print] and the UTF-8 log file accept: every name and
    every value can be encoded.  The rules [load_config] reads from a UTF-8
    file are such; for them [log], which also prints the line, does not
    raise. *)
Definition rules_printable (rules : list rule) : bool :=
  forallb (fun r => encodable (Name r)) rules && rules_encodable rules.


(** A rule as [load_config] keeps them. *)
Definition complete (r : rule) : Prop :=
  startswith (Name r) RULE_PREFIX = true
  /\ Conditions r <> [] /\ Updates r <> [].

(** The rules the prints of [create_test_data.py] name. *)
Definition fixture_rule_1 : rule :=
  {| Name := of_string "Rule-1";
     Conditions := [ {| StartByte := 50; Value := of_string "02" |};
                     {| StartByte := 78; Value := of_string "534" |} ];
     Updates := [ {| StartByte := 70; Value := of_string "056" |} ] |}.

Definition fixture_rule_2 : rule :=
  {| Name := of_string "Rule-2";
     Conditions := [ {| StartByte := 234; Value := of_string "99" |} ];
     Updates := [ {| StartByte := 300; Value := of_string "77" |} ] |}.

End Notions.

(* ================================================================== *)
(** ** Facts about the runtime *)
(* ================================================================== *)

Module PyFacts.
Import Py.

Lemma Ok_inj {A : Type} (a b : A) : Ok a = Ok b -> a = b.
Proof. intros H. now injection H. Qed.

Lemma list_eqb_eq (a b : list Z) : list_eqb a b = true <-> a = b.
Proof.
  revert b; induction a as [|x a IH]; intros [|y b]; simpl; split;
    try congruence; try reflexivity.
  - intros H. apply andb_true_iff in H as [Hx Hab].
    apply Z.eqb_eq in Hx. apply IH in Hab. congruence.
  - intros H. injection H as -> ->. rewrite Z.eqb_refl. simpl. now apply IH.
Qed.

Lemma list_eqb_refl (a : list Z) : list_eqb a a = true.
Proof. now apply list_eqb_eq. Qed.

Lemma list_eqb_neq (a b : list Z) : list_eqb a b = false <-> a <> b.
Proof.
  split.
  - intros H E. apply list_eqb_eq in E. congruence.
  - intros H. destruct (list_eqb a b) eqn:E; [|reflexivity].
    apply list_eqb_eq in E. contradiction.
Qed.

Lemma list_eqb_length (a b : list Z) :
  list_eqb a b = true -> length a = length b.
Proof. intros H. apply list_eqb_eq in H. now subst. Qed.

Lemma len_app {A : Type} (a b : list A) : len (a ++ b) = len a + len b.
Proof. unfold len. rewrite length_app. lia. Qed.

Lemma len_nonneg {A : Type} (a : list A) : 0 <= len a.
Proof. unfold len. lia. Qed.

(** *** Slices *)

Lemma adjust_index_inside (n i : Z) : 0 <= i <= n -> adjust_index n i = i.
Proof.
  intros H. unfold adjust_index.
  destruct (Z.ltb_spec i 0); lia.
Qed.

Lemma adjust_index_past (n i : Z) : 0 <= n <= i -> adjust_index n i = n.
Proof.
  intros H. unfold adjust_index.
  destruct (Z.ltb_spec i 0); lia.
Qed.

Lemma adjust_index_range (n i : Z) : 0 <= n -> 0 <= adjust_index n i <= n.
Proof.
  intros H. unfold adjust_index.
  destruct (Z.ltb_spec i 0); lia.
Qed.

(** A slice never holds more bytes than were asked for, and holds exactly
    that many when the window lies inside the buffer. *)
Lemma getslice_length_inside (b : bytes) (off k : Z) :
  0 <= off -> 0 <= k -> off + k <= len b ->
  len (getslice b off (off + k)) = k.
Proof.
  intros Hoff Hk Hin. unfold getslice.
  pose proof (len_nonneg b) as Hb.
  rewrite !adjust_index_inside by lia.
  unfold len in *. rewrite length_firstn, length_skipn. lia.
Qed.

Lemma getslice_length_past (b : bytes) (off k : Z) :
  0 <= off -> 0 < k -> len b < off + k ->
  len (getslice b off (off + k)) < k.
Proof.
  intros Hoff Hk Hpast. unfold getslice.
  pose proof (len_nonneg b) as Hb.
  rewrite (adjust_index_past (len b) (off + k)) by lia.
  pose proof (adjust_index_range (len b) off Hb) as Hr.
  assert (Hs : adjust_index (len b) off = Z.min off (len b)).
  { unfold adjust_index. destruct (Z.ltb_spec off 0); lia. }
  rewrite Hs. unfold len in *. rewrite length_firstn, length_skipn. lia.
Qed.

(** Writing inside the buffer: the buffer keeps its length. *)
Lemma setslice_inside (b new : bytes) (off : Z) :
  0 <= off -> off + len new <= len b ->
  setslice b off (off + len new) new
  = firstn (Z.to_nat off) b ++ new ++ skipn (Z.to_nat off + length new) b.
Proof.
  intros Hoff Hin. unfold setslice.
  pose proof (len_nonneg new) as Hn.
  rewrite !adjust_index_inside by lia.
  rewrite Z.max_r by lia.
  replace (Z.to_nat (off + len new)) with (Z.to_nat off + length new)%nat
    by (unfold len; lia).
  reflexivity.
Qed.

Lemma setslice_inside_length (b new : bytes) (off : Z) :
  0 <= off -> off + len new <= len b ->
  length (setslice b off (off + len new) new) = length b.
Proof.
  intros Hoff Hin. rewrite setslice_inside by assumption.
  rewrite !length_app, length_firstn, length_skipn.
  unfold len in *. lia.
Qed.


(** ... and a byte outside the window is untouched. *)
Lemma setslice_inside_frame (b new : bytes) (off : Z) (j : nat) :
  0 <= off -> off + len new <= len b ->
  ~ (off <= Z.of_nat j < off + len new) ->
  nth_error (setslice b off (off + len new) new) j = nth_error b j.
Proof.
  intros Hoff Hin Hj. rewrite setslice_inside by assumption.
  assert (Hf : length (firstn (Z.to_nat off) b) = Z.to_nat off).
  { rewrite length_firstn. unfold len in *. lia. }
  destruct (Z.ltb_spec (Z.of_nat j) off) as [Hlt|Hge].
  - rewrite nth_error_app1 by lia.
    rewrite nth_error_firstn.
    destruct (Nat.ltb_spec j (Z.to_nat off)); [reflexivity|lia].
  - rewrite nth_error_app2 by lia. rewrite Hf.
    rewrite nth_error_app2 by (unfold len in *; lia).
    rewrite nth_error_skipn. f_equal. unfold len in *. lia.
Qed.

(** Writing past the end: the tail of the new value is appended, and the
    buffer grows. *)
Lemma setslice_past (b new : bytes) (off : Z) :
  0 <= off -> len b < off + len new ->
  setslice b off (off + len new) new = firstn (Z.to_nat off) b ++ new.
Proof.
  intros Hoff Hpast. unfold setslice.
  pose proof (len_nonneg b) as Hb.
  rewrite (adjust_index_past (len b) (off + len new)) by lia.
  assert (Hs : adjust_index (len b) off = Z.min off (len b)).
  { unfold adjust_index. destruct (Z.ltb_spec off 0); lia. }
  rewrite Hs, Z.max_r by lia.
  rewrite (skipn_all2 b) by (unfold len; lia).
  rewrite app_nil_r. f_equal.
  destruct (Z.le_ge_cases off (len b)) as [Hle|Hge].
  - now rewrite Z.min_l by lia.
  - rewrite Z.min_r by lia.
    rewrite (firstn_all2 (n := Z.to_nat off)) by (unfold len in Hge; lia).
    apply firstn_all2. unfold len. lia.
Qed.

Lemma setslice_past_length (b new : bytes) (off : Z) :
  0 <= off -> 0 < len new -> len b < off + len new ->
  len b < len (setslice b off (off + len new) new).
Proof.
  intros Hoff Hnew Hpast. rewrite setslice_past by assumption.
  rewrite len_app. unfold len in *. rewrite length_firstn. lia.
Qed.

End PyFacts.

Module CodecFacts.
Import Py Vocabulary PyFacts.

Lemma be16_value (u : Z) : (u / 256) * 256 + u mod 256 = u.
Proof. pose proof (Z.div_mod u 256). lia. Qed.

Lemma decode_cons2 (hi lo : Z) (rest : bytes) :
  decode_utf16_be (hi :: lo :: rest)
  = let u := hi * 256 + lo in
    if negb (is_surrogate u) then u :: decode_utf16_be rest
    else if is_low_surrogate u then REPLACEMENT :: decode_utf16_be rest
    else
      match rest with
      | hi2 :: lo2 :: rest' =>
          let u2 := hi2 * 256 + lo2 in
          if is_low_surrogate u2
          then (0x10000 + (u - 0xD800) * 1024 + (u2 - 0xDC00)) :: decode_utf16_be rest'
          else REPLACEMENT :: decode_utf16_be rest
      | _ => [REPLACEMENT]
      end.
Proof. reflexivity. Qed.

(** Decoding undoes the encoding of one character, whatever follows. *)
Lemma decode_encode_char (c : Z) (b rest : bytes) :
  encode_char c = Ok b ->
  decode_utf16_be (b ++ rest) = c :: decode_utf16_be rest.
Proof.
  unfold encode_char. intros H.
  destruct ((c <? 0) || (0x10FFFF <? c) || is_surrogate c) eqn:Hbad;
    [discriminate|].
  apply orb_false_iff in Hbad as [Hbad Hsur].
  apply orb_false_iff in Hbad as [Hneg Hmax].
  apply Z.ltb_ge in Hneg, Hmax.
  destruct (Z.ltb_spec c 0x10000) as [Hbmp|Hast].
  - apply Ok_inj in H. subst b. unfold be16. cbn [app].
    rewrite decode_cons2. cbv zeta. rewrite be16_value, Hsur. reflexivity.
  - cbv zeta in H. apply Ok_inj in H. subst b. unfold be16. cbn [app].
    set (v := c - 0x10000) in *.
    assert (Hv : 0 <= v < 1048576) by (unfold v; lia).
    assert (Hq : 0 <= v / 1024 < 1024).
    { split; [apply Z.div_pos; lia|apply Z.div_lt_upper_bound; lia]. }
    assert (Hr : 0 <= v mod 1024 < 1024) by (apply Z.mod_pos_bound; lia).
    rewrite decode_cons2. cbv zeta. rewrite !be16_value.
    assert (H1 : is_surrogate (0xD800 + v / 1024) = true).
    { unfold is_surrogate. apply andb_true_iff; split; apply Z.leb_le; lia. }
    assert (H2 : is_low_surrogate (0xD800 + v / 1024) = false).
    { unfold is_low_surrogate. apply andb_false_iff; left; apply Z.leb_gt; lia. }
    assert (H3 : is_low_surrogate (0xDC00 + v mod 1024) = true).
    { unfold is_low_surrogate. apply andb_true_iff; split; apply Z.leb_le; lia. }
    rewrite H1, H2. cbn [negb]. rewrite H3.
    f_equal. pose proof (Z.div_mod v 1024). unfold v in *. lia.
Qed.

Lemma decode_encode (v : str) (b : bytes) :
  encode_utf16_be v = Ok b -> decode_utf16_be b = v.
Proof.
  revert b; induction v as [|c v IH]; intros b H; simpl in H.
  - injection H as <-. reflexivity.
  - destruct (encode_char c) as [bc|] eqn:Hc; [|discriminate].
    destruct (encode_utf16_be v) as [bv|] eqn:Hv; [|discriminate].
    simpl in H. injection H as <-.
    rewrite (decode_encode_char c bc bv Hc). f_equal. now apply IH.
Qed.

Lemma encode_char_bmp (c : Z) :
  bmp_scalar c = true -> encode_char c = Ok (be16 c).
Proof.
  unfold bmp_scalar, encode_char. intros H.
  apply andb_true_iff in H as [H Hs]. apply andb_true_iff in H as [H0 H1].
  apply Z.leb_le in H0. apply Z.ltb_lt in H1. apply negb_true_iff in Hs.
  rewrite Hs.
  destruct (Z.ltb_spec c 0); [lia|].
  destruct (Z.ltb_spec 0x10FFFF c); [lia|].
  destruct (Z.ltb_spec c 0x10000); [reflexivity|lia].
Qed.

Lemma encode_bmp (v : str) :
  forallb bmp_scalar v = true ->
  encode_utf16_be v = Ok (flat_map be16 v).
Proof.
  induction v as [|c v IH]; simpl; intros H; [reflexivity|].
  apply andb_true_iff in H as [Hc Hv].
  rewrite (encode_char_bmp c Hc), (IH Hv). reflexivity.
Qed.

Lemma length_flat_map_be16 (v : str) :
  length (flat_map be16 v) = (2 * length v)%nat.
Proof. induction v as [|c v IH]; simpl; [reflexivity|lia]. Qed.

Lemma utf16_encodable (v : str) :
  encodable v = true -> encode_utf16_be v = Ok (utf16 v).
Proof.
  unfold encodable, utf16. now destruct (encode_utf16_be v).
Qed.

End CodecFacts.

Module DictFacts.
Import Py Vocabulary PyFacts UpdateDat.

Lemma dict_get_set_same {V : Type} (d : dict V) (k : str) (v : V) :
  dict_get (dict_set d k v) k = Ok v.
Proof.
  induction d as [|[k' v'] d IH]; simpl.
  - now rewrite list_eqb_refl.
  - destruct (list_eqb k' k) eqn:E; simpl; rewrite E; [reflexivity|apply IH].
Qed.

Lemma dict_get_set_other {V : Type} (d : dict V) (k k' : str) (v : V) :
  k <> k' -> dict_get (dict_set d k v) k' = dict_get d k'.
Proof.
  intros Hne. induction d as [|[k0 v0] d IH]; simpl.
  - assert (E : list_eqb k k' = false) by now apply list_eqb_neq.
    now rewrite E.
  - destruct (list_eqb k0 k) eqn:E; simpl.
    + apply list_eqb_eq in E; subst k0.
      assert (E : list_eqb k k' = false) by now apply list_eqb_neq.
      now rewrite E.
    + destruct (list_eqb k0 k'); [reflexivity|apply IH].
Qed.

Lemma dict_set_keeps_keys {V : Type} (d : dict V) (k k' : str) (v : V) :
  is_ok (dict_get d k') = true -> is_ok (dict_get (dict_set d k v) k') = true.
Proof.
  intros H. destruct (list_eqb k k') eqn:E.
  - apply list_eqb_eq in E; subst. now rewrite dict_get_set_same.
  - apply list_eqb_neq in E. now rewrite dict_get_set_other.
Qed.

Lemma dict_incr_ok (d : dict Z) (k : str) (h : Z) :
  dict_get d k = Ok h -> dict_incr d k = Ok (dict_set d k (h + 1)).
Proof. intros H. unfold dict_incr. now rewrite H. Qed.

(** The counters start at zero for every rule, and hold nothing else. *)
Lemma fold_init_get (rules : list rule) (d : dict Z) (k : str) :
  dict_get (fold_left (fun d r => dict_set d (Name r) 0) rules d) k
  = if existsb (fun r => list_eqb (Name r) k) rules then Ok 0 else dict_get d k.
Proof.
  revert d; induction rules as [|r rules IH]; intros d; simpl; [reflexivity|].
  rewrite IH. destruct (existsb _ rules) eqn:Ex.
  - now rewrite orb_true_r.
  - rewrite orb_false_r. destruct (list_eqb (Name r) k) eqn:E.
    + apply list_eqb_eq in E; subst. apply dict_get_set_same.
    + apply list_eqb_neq in E. now apply dict_get_set_other.
Qed.

Lemma init_hits_get (rules : list rule) (r : rule) :
  In r rules -> dict_get (init_hits rules) (Name r) = Ok 0.
Proof.
  intros Hin. unfold init_hits. rewrite fold_init_get.
  replace (existsb _ rules) with true; [reflexivity|].
  symmetry. apply existsb_exists. exists r. split; [assumption|apply list_eqb_refl].
Qed.

Lemma init_hits_has_keys (rules : list rule) :
  has_keys rules (init_hits rules) = true.
Proof.
  unfold has_keys. apply forallb_forall. intros r Hr.
  now rewrite (init_hits_get rules r Hr).
Qed.

End DictFacts.

(* ================================================================== *)
(** ** Facts about the rule engine *)
(* ================================================================== *)

Module EngineFacts.
Import Py Vocabulary PyFacts CodecFacts DictFacts UpdateDat.

Lemma all_match_total (conds : list entry) (rec : bytes) :
  entries_encodable conds = true -> exists m, all_match conds rec = Ok m.
Proof.
  induction conds as [|c conds IH]; simpl; intros H; [now exists true|].
  apply andb_true_iff in H as [Hc Hcs].
  rewrite (utf16_encodable _ Hc). simpl.
  destruct (list_eqb _ _); [now apply IH|now exists false].
Qed.

(** The update loop writes the updates one after the other and appends one
    change entry for each. *)
Lemma apply_updates_inv (name : str) (upds : list entry) (rec : bytes)
  (ch : list change) (rc : bytes * list change) :
  apply_updates name upds rec ch = Ok rc ->
  entries_encodable upds = true
  /\ rc = (fold_left write upds rec, ch ++ update_changes name upds rec).
Proof.
  revert rec ch; induction upds as [|u upds IH]; intros rec ch H; simpl in H.
  - apply Ok_inj in H. subst rc. simpl. now rewrite app_nil_r.
  - bind_inv H nb Enb.
    assert (Hu : utf16 (Value u) = nb) by (unfold utf16; now rewrite Enb).
    assert (Hw : setslice rec (StartByte u - 1) (StartByte u - 1 + len nb) nb
                 = write rec u) by (unfold write; now rewrite Hu).
    assert (Hc : {| ch_rule := name; ch_StartByte := StartByte u;
                    ch_old_val := decode_utf16_be
                      (getslice rec (StartByte u - 1) (StartByte u - 1 + len nb));
                    ch_new_val := Value u |} = change_of name rec u)
      by (unfold change_of; now rewrite Hu).
    rewrite Hw, Hc in H.
    apply IH in H as [Henc ->].
    split.
    + simpl. unfold encodable. now rewrite Enb, Henc.
    + simpl. now rewrite <- app_assoc.
Qed.

Lemma apply_updates_spec (name : str) (upds : list entry) (rec : bytes)
  (ch : list change) :
  entries_encodable upds = true ->
  apply_updates name upds rec ch
  = Ok (fold_left write upds rec, ch ++ update_changes name upds rec).
Proof.
  revert rec ch; induction upds as [|u upds IH]; intros rec ch H; simpl.
  - now rewrite app_nil_r.
  - simpl in H. apply andb_true_iff in H as [Hu Hus].
    rewrite (utf16_encodable _ Hu). simpl. rewrite (IH _ _ Hus).
    rewrite <- app_assoc. reflexivity.
Qed.


(** The two ways a turn of the rule loop can end well. *)
Lemma eval_rule_inv (r : rule) (st st' : eval_state) :
  eval_rule r st = Ok st' ->
  (all_match (Conditions r) (record st) = Ok false /\ st' = st)
  \/ (all_match (Conditions r) (record st) = Ok true
      /\ entries_encodable (Updates r) = true
      /\ exists h, dict_get (rule_hits st) (Name r) = Ok h
         /\ st' = {| record := fold_left write (Updates r) (record st);
                     changes := changes st
                                ++ update_changes (Name r) (Updates r) (record st);
                     has_change := true;
                     rule_hits := dict_set (rule_hits st) (Name r) (h + 1) |}).
Proof.
  unfold eval_rule. intros H.
  bind_inv H m Em. destruct m.
  - right. bind_inv H rc Erc. bind_inv H hs Ehs.
    apply apply_updates_inv in Erc as [Henc ->].
    unfold dict_incr in Ehs. bind_inv Ehs h Eh.
    apply Ok_inj in Ehs. apply Ok_inj in H. subst hs st'.
    repeat split; try assumption. now exists h.
  - left. apply Ok_inj in H. now split.
Qed.

Lemma eval_rule_fires (r : rule) (st : eval_state) (h : Z) :
  all_match (Conditions r) (record st) = Ok true ->
  entries_encodable (Updates r) = true ->
  dict_get (rule_hits st) (Name r) = Ok h ->
  eval_rule r st
  = Ok {| record := fold_left write (Updates r) (record st);
          changes := changes st ++ update_changes (Name r) (Updates r) (record st);
          has_change := true;
          rule_hits := dict_set (rule_hits st) (Name r) (h + 1) |}.
Proof.
  intros Hm Henc Hh. unfold eval_rule. rewrite Hm. simpl.
  rewrite (apply_updates_spec _ _ _ _ Henc). simpl.
  rewrite (dict_incr_ok _ _ _ Hh). reflexivity.
Qed.

Lemma eval_rule_skips (r : rule) (st : eval_state) :
  all_match (Conditions r) (record st) = Ok false -> eval_rule r st = Ok st.
Proof. intros Hm. unfold eval_rule. now rewrite Hm. Qed.

Lemma eval_rules_app (a b : list rule) (st : eval_state) :
  eval_rules (a ++ b) st = bind (eval_rules a st) (eval_rules b).
Proof.
  revert st; induction a as [|r a IH]; intros st; simpl; [reflexivity|].
  destruct (eval_rule r st); simpl; [apply IH|reflexivity].
Qed.

Lemma eval_rule_total (r : rule) (st : eval_state) :
  entries_encodable (Conditions r) = true ->
  entries_encodable (Updates r) = true ->
  is_ok (dict_get (rule_hits st) (Name r)) = true ->
  exists st', eval_rule r st = Ok st' /\ keys_kept (rule_hits st) (rule_hits st').
Proof.
  intros Hc Hu Hk.
  destruct (all_match_total _ (record st) Hc) as [m Hm].
  destruct (dict_get (rule_hits st) (Name r)) as [h|] eqn:Hh; [|discriminate].
  destruct m.
  - eexists. split; [now apply eval_rule_fires with (h := h)|].
    intros k Hkk. simpl. now apply dict_set_keeps_keys.
  - exists st. split; [now apply eval_rule_skips|]. now intros k Hkk.
Qed.

Lemma has_keys_kept (rules : list rule) (d d' : dict Z) :
  keys_kept d d' -> has_keys rules d = true -> has_keys rules d' = true.
Proof.
  unfold has_keys. intros Hk H. apply forallb_forall. intros r Hr.
  apply Hk. revert r Hr. now apply forallb_forall.
Qed.

(** With encodable values and a counter for every rule, the rule loop ends
    without an exception. *)
Lemma eval_rules_total (rules : list rule) (st : eval_state) :
  rules_encodable rules = true ->
  has_keys rules (rule_hits st) = true ->
  exists st', eval_rules rules st = Ok st'
              /\ keys_kept (rule_hits st) (rule_hits st').
Proof.
  revert st; induction rules as [|r rules IH]; intros st Henc Hkeys; simpl.
  - exists st. split; [reflexivity|now intros k Hk].
  - simpl in Henc, Hkeys.
    apply andb_true_iff in Henc as [Hr Henc].
    apply andb_true_iff in Hr as [Hc Hu].
    apply andb_true_iff in Hkeys as [Hk Hkeys].
    destruct (eval_rule_total r st Hc Hu Hk) as [st1 [E1 K1]].
    rewrite E1. simpl.
    destruct (IH st1 Henc (has_keys_kept _ _ _ K1 Hkeys)) as [st2 [E2 K2]].
    exists st2. split; [assumption|]. intros k Hkk. now apply K2, K1.
Qed.

(** A rule's turn leaves the counters of the other names alone. *)
Lemma eval_rule_other_hits (r : rule) (st st' : eval_state) (k : str) :
  eval_rule r st = Ok st' -> Name r <> k ->
  dict_get (rule_hits st') k = dict_get (rule_hits st) k.
Proof.
  intros H Hne. apply eval_rule_inv in H as [[_ ->]|[_ [_ [h [_ ->]]]]].
  - reflexivity.
  - simpl. now apply dict_get_set_other.
Qed.

Lemma eval_rules_other_hits (rules : list rule) (st st' : eval_state) (k : str) :
  eval_rules rules st = Ok st' -> ~ In k (map Name rules) ->
  dict_get (rule_hits st') k = dict_get (rule_hits st) k.
Proof.
  revert st; induction rules as [|r rules IH]; intros st H Hk; simpl in H.
  - apply Ok_inj in H. now subst.
  - bind_inv H st1 E1. simpl in Hk.
    rewrite (IH st1 H) by tauto.
    apply (eval_rule_other_hits r st st1 k E1). tauto.
Qed.

End EngineFacts.

(* ================================================================== *)
(** ** Frame facts: what the updates leave alone *)
(* ================================================================== *)

Module FrameFacts.
Import Py Vocabulary PyFacts CodecFacts DictFacts UpdateDat EngineFacts.

Lemma entry_in_bounds_spec (n : Z) (e : entry) :
  entry_in_bounds n e = true ->
  0 <= StartByte e - 1 /\ StartByte e - 1 + len (utf16 (Value e)) <= n.
Proof.
  unfold entry_in_bounds. intros H. apply andb_true_iff in H as [H1 H2].
  apply Z.leb_le in H1, H2. lia.
Qed.

Lemma write_length (b : bytes) (u : entry) :
  entry_in_bounds (len b) u = true -> length (write b u) = length b.
Proof.
  intros H. apply entry_in_bounds_spec in H as [H0 H1].
  unfold write. now apply setslice_inside_length.
Qed.

Lemma write_frame (b : bytes) (u : entry) (j : nat) :
  entry_in_bounds (len b) u = true -> ~ entry_covers u j ->
  nth_error (write b u) j = nth_error b j.
Proof.
  intros H Hj. apply entry_in_bounds_spec in H as [H0 H1].
  unfold write. now apply setslice_inside_frame.
Qed.


Lemma len_eq_length {A : Type} (a b : list A) :
  length a = length b -> len a = len b.
Proof. unfold len. congruence. Qed.

Lemma fold_write_length (upds : list entry) (b : bytes) :
  forallb (entry_in_bounds (len b)) upds = true ->
  length (fold_left write upds b) = length b.
Proof.
  revert b; induction upds as [|u upds IH]; intros b H; simpl; [reflexivity|].
  simpl in H. apply andb_true_iff in H as [Hu Hus].
  pose proof (write_length b u Hu) as Hl.
  rewrite IH; [assumption|]. now rewrite (len_eq_length _ _ Hl).
Qed.

Lemma fold_write_frame (upds : list entry) (b : bytes) (j : nat) :
  forallb (entry_in_bounds (len b)) upds = true ->
  (forall u, In u upds -> ~ entry_covers u j) ->
  nth_error (fold_left write upds b) j = nth_error b j.
Proof.
  revert b; induction upds as [|u upds IH]; intros b H Hj; simpl; [reflexivity|].
  simpl in H. apply andb_true_iff in H as [Hu Hus].
  pose proof (write_length b u Hu) as Hl.
  rewrite IH.
  - apply write_frame; [assumption|]. apply Hj. now left.
  - now rewrite (len_eq_length _ _ Hl).
  - intros u' Hin. apply Hj. now right.
Qed.

(** Every change entry comes from an update of the list, and carries its
    position and value. *)
Lemma update_changes_entry (name : str) (upds : list entry) (b : bytes)
  (c : change) :
  In c (update_changes name upds b) ->
  exists u, In u upds /\ ch_rule c = name
            /\ ch_StartByte c = StartByte u /\ ch_new_val c = Value u.
Proof.
  revert b; induction upds as [|u upds IH]; intros b H; simpl in H; [contradiction|].
  destruct H as [<-|H].
  - exists u. simpl. auto.
  - destruct (IH _ H) as [u' [Hin Hrest]]. exists u'. simpl. auto.
Qed.

Lemma update_changes_of_entry (name : str) (upds : list entry) (b : bytes)
  (u : entry) :
  In u upds ->
  exists c, In c (update_changes name upds b)
            /\ ch_StartByte c = StartByte u /\ ch_new_val c = Value u.
Proof.
  revert b; induction upds as [|u0 upds IH]; intros b H; simpl in H; [contradiction|].
  destruct H as [->|H].
  - exists (change_of name b u). simpl. auto.
  - destruct (IH (write b u0) H) as [c [Hin Hrest]]. exists c. simpl. auto.
Qed.

Lemma length_update_changes (name : str) (upds : list entry) (b : bytes) :
  length (update_changes name upds b) = length upds.
Proof.
  revert b; induction upds as [|u upds IH]; intros b; simpl; [reflexivity|].
  now rewrite IH.
Qed.

(** A pass of the rule loop with in-bounds updates keeps the record's
    length, only appends change entries, and leaves alone every byte that
    no appended change entry covers. *)
Lemma eval_rules_frame (rules : list rule) (st st' : eval_state) :
  eval_rules rules st = Ok st' ->
  updates_in_bounds (len (record st)) rules = true ->
  length (record st') = length (record st)
  /\ exists new, changes st' = changes st ++ new
     /\ forall j, (forall c, In c new -> ~ change_covers c j) ->
                  nth_error (record st') j = nth_error (record st) j.
Proof.
  revert st; induction rules as [|r rules IH]; intros st H Hb; simpl in H.
  - apply Ok_inj in H; subst st'. split; [reflexivity|].
    exists []. now rewrite app_nil_r.
  - bind_inv H st1 E1. simpl in Hb. apply andb_true_iff in Hb as [Hr Hrs].
    apply eval_rule_inv in E1 as [[_ ->]|[Hm [Henc [h [Hh ->]]]]].
    + now apply IH.
    + pose proof (fold_write_length _ _ Hr) as Hl.
      destruct (IH _ H) as [Hlen [new [Hch Hfr]]].
      { simpl. now rewrite (len_eq_length _ _ Hl). }
      simpl in Hlen, Hch, Hfr. split; [congruence|].
      exists (update_changes (Name r) (Updates r) (record st) ++ new).
      split; [now rewrite Hch, app_assoc|].
      intros j Hj. rewrite Hfr.
      * apply fold_write_frame; [assumption|].
        intros u Hu Hcov.
        destruct (update_changes_of_entry (Name r) _ (record st) u Hu)
          as [c [Hc [Hs Hv]]].
        apply (Hj c); [apply in_or_app; now left|].
        unfold change_covers. now rewrite Hs, Hv.
      * intros c Hc. apply Hj. apply in_or_app. now right.
Qed.

(** The bytes, the change entries and the flag a pass produces do not
    depend on the values of the counters. *)
Lemma eval_rules_hits_irrelevant (rules : list rule) (a a' b b' : eval_state) :
  eval_rules rules a = Ok a' -> eval_rules rules b = Ok b' ->
  record a = record b -> changes a = changes b -> has_change a = has_change b ->
  record a' = record b' /\ changes a' = changes b'
  /\ has_change a' = has_change b'.
Proof.
  revert a b; induction rules as [|r rules IH]; intros a b Ha Hb Hr Hc Hf;
    simpl in Ha, Hb.
  - apply Ok_inj in Ha, Hb. subst. auto.
  - bind_inv Ha a1 Ea. bind_inv Hb b1 Eb.
    apply (IH a1 b1 Ha Hb);
      apply eval_rule_inv in Ea as [[Hma ->]|[Hma [_ [ha [_ ->]]]]];
      apply eval_rule_inv in Eb as [[Hmb ->]|[Hmb [_ [hb [_ ->]]]]];
      simpl; try assumption; try reflexivity; try congruence.
Qed.

End FrameFacts.

(* ================================================================== *)
(** ** Facts about the record loop *)
(* ================================================================== *)

Module LoopFacts.
Import Py Vocabulary PyFacts CodecFacts DictFacts UpdateDat EngineFacts FrameFacts.

Lemma read_full (n : Z) (rest : bytes) :
  0 <= n -> read n rest = (firstn (Z.to_nat n) rest, skipn (Z.to_nat n) rest).
Proof. intros H. unfold read. destruct (Z.ltb_spec n 0); [lia|reflexivity]. Qed.

Lemma read_whole (rec : bytes) : read (len rec) rec = (rec, []).
Proof.
  rewrite read_full by apply len_nonneg. unfold len.
  rewrite Nat2Z.id, firstn_all, skipn_all. reflexivity.
Qed.

(** The loop body once the record read is known to start with [fb]. *)
Lemma process_record_eq (s : settings) (rules : list rule) (i : Z) (st : state)
  (fb : Z) (tl rest : bytes) :
  read (RecordSize s) (f_in st) = (fb :: tl, rest) ->
  process_record s rules i st
  = if fb =? HEADER s then
      Ok {| f_in := rest; f_out := f_out st ++ [fb :: tl];
            logs := logs st ++ [LHeaderSkip (i + 1)];
            modified_count := modified_count st; hits := hits st |}
    else if fb =? DATA s then
      bind (eval_rules rules (start (fb :: tl) (hits st))) (fun es =>
      if has_change es then
        Ok {| f_in := rest; f_out := f_out st ++ [record es];
              logs := logs st ++ LUpdated (i + 1) :: map LChange (changes es);
              modified_count := modified_count st + 1; hits := rule_hits es |}
      else
        Ok {| f_in := rest; f_out := f_out st ++ [record es];
              logs := logs st; modified_count := modified_count st;
              hits := rule_hits es |})
    else
      Ok {| f_in := rest; f_out := f_out st ++ [fb :: tl];
            logs := logs st; modified_count := modified_count st;
            hits := hits st |}.
Proof. intros H. unfold process_record. rewrite H. reflexivity. Qed.

Lemma Some_neq (a b : Z) : a <> b -> Some a <> Some b.
Proof. congruence. Qed.

(** With a whole record left to read, encodable values and a counter per
    rule, the loop body ends well, in one of the four ways. *)
Lemma process_record_step (s : settings) (rules : list rule) (i : Z) (st : state) :
  0 < RecordSize s -> RecordSize s <= len (f_in st) ->
  rules_encodable rules = true -> has_keys rules (hits st) = true ->
  exists st' k,
    process_record s rules i st = Ok st'
    /\ f_in st' = skipn (Z.to_nat (RecordSize s)) (f_in st)
    /\ has_keys rules (hits st') = true
    /\ step_spec s rules i (firstn (Z.to_nat (RecordSize s)) (f_in st)) st st' k.
Proof.
  intros Hpos Hlen Henc Hkeys.
  pose proof (read_full (RecordSize s) (f_in st) ltac:(lia)) as Hread.
  remember (firstn (Z.to_nat (RecordSize s)) (f_in st)) as rec eqn:Erec.
  assert (Hne : length rec = Z.to_nat (RecordSize s)).
  { subst rec. rewrite length_firstn. unfold len in Hlen. lia. }
  destruct rec as [|fb tl]; [simpl in Hne; lia|].
  rewrite (process_record_eq s rules i st fb tl _ Hread).
  destruct (Z.eqb_spec fb (HEADER s)) as [Eh|Nh].
  - eexists. exists Header. simpl. subst fb. repeat split; assumption.
  - destruct (Z.eqb_spec fb (DATA s)) as [Ed|Nd].
    + destruct (eval_rules_total rules (start (fb :: tl) (hits st)) Henc Hkeys)
        as [es [Ees Kes]].
      rewrite Ees. simpl.
      pose proof (has_keys_kept rules _ _ Kes Hkeys) as Hk'.
      destruct (has_change es) eqn:Ehc.
      * eexists. exists Updated. simpl. repeat split; try assumption.
        -- now apply Some_neq.
        -- now subst fb.
        -- exists es. repeat split; assumption.
      * eexists. exists Unmodified. simpl. repeat split; try assumption.
        -- now apply Some_neq.
        -- now subst fb.
        -- exists es. repeat split; assumption.
    + eexists. exists Unknown. simpl. repeat split; try assumption;
        now apply Some_neq.
Qed.

End LoopFacts.

(* ================================================================== *)
(** ** Facts about a whole run *)
(* ================================================================== *)

Module RunFacts.
Import Py Vocabulary PyFacts CodecFacts DictFacts UpdateDat EngineFacts FrameFacts
  LoopFacts.

(** What the loop body writes for a record of the configured size. *)
Lemma written_record_eq (s : settings) (rules : list rule) (fb : Z) (tl : bytes) :
  len (fb :: tl) = RecordSize s ->
  written_record s rules (fb :: tl)
  = if fb =? HEADER s then fb :: tl
    else if fb =? DATA s then
      match eval_rules rules (start (fb :: tl) (init_hits rules)) with
      | Ok es => record es
      | Raise _ => fb :: tl
      end
    else fb :: tl.
Proof.
  intros Hlen. unfold written_record.
  rewrite (process_record_eq s rules 0 _ fb tl []).
  - cbn [hits f_out logs modified_count app].
    destruct (fb =? HEADER s);
      [unfold output_bytes; cbn [f_out concat]; apply app_nil_r|].
    destruct (fb =? DATA s);
      [|unfold output_bytes; cbn [f_out concat]; apply app_nil_r].
    destruct (eval_rules rules _) as [es|]; [|reflexivity].
    cbn [bind]. destruct (has_change es); unfold output_bytes;
      cbn [f_out concat]; apply app_nil_r.
  - cbn [f_in]. rewrite <- Hlen. apply read_whole.
Qed.

Lemma written_record_header (s : settings) (rules : list rule) (rec : bytes) :
  len rec = RecordSize s -> hd_error rec = Some (HEADER s) ->
  written_record s rules rec = rec.
Proof.
  intros Hlen Hhd. destruct rec as [|fb tl]; [discriminate|].
  rewrite written_record_eq by assumption.
  simpl in Hhd. injection Hhd as ->. now rewrite Z.eqb_refl.
Qed.

Lemma written_record_unknown (s : settings) (rules : list rule) (rec : bytes) :
  len rec = RecordSize s ->
  hd_error rec <> Some (HEADER s) -> hd_error rec <> Some (DATA s) ->
  written_record s rules rec = rec.
Proof.
  intros Hlen Hh Hd. destruct rec as [|fb tl].
  - unfold written_record, process_record. cbn [f_in].
    rewrite <- Hlen. rewrite read_whole. reflexivity.
  - rewrite written_record_eq by assumption. simpl in Hh, Hd.
    destruct (Z.eqb_spec fb (HEADER s)); [congruence|].
    destruct (Z.eqb_spec fb (DATA s)); [congruence|reflexivity].
Qed.

Lemma summary_hits_total (rules : list rule) (d : dict Z) :
  has_keys rules d = true -> exists ls, summary_hits rules d = Ok ls.
Proof.
  unfold has_keys. induction rules as [|r rules IH]; simpl; intros H.
  - now exists [].
  - apply andb_true_iff in H as [Hr Hrs].
    destruct (dict_get d (Name r)) as [h|]; [|discriminate].
    destruct (IH Hrs) as [ls ->]. simpl. eauto.
Qed.

Lemma record_count_fits (n RS : Z) :
  0 <= n -> 0 < RS -> Z.of_nat (Z.to_nat (n / RS)) * RS <= n.
Proof.
  intros Hn HRS.
  assert (0 <= n / RS) by (apply Z.div_pos; lia).
  rewrite Z2Nat.id by assumption.
  pose proof (Z.mul_div_le n RS HRS). lia.
Qed.

(** From here on: one run, with a positive record size and encodable
    rule values. *)
Section Run.

Variables (s : settings) (rules : list rule).
Hypothesis Hpos : 0 < RecordSize s.
Hypothesis Henc : rules_encodable rules = true.

(** The loop body appends [written_record] of the record it read. *)
Lemma process_record_writes (i : Z) (st : state) :
  RecordSize s <= len (f_in st) -> has_keys rules (hits st) = true ->
  exists st',
    process_record s rules i st = Ok st'
    /\ f_in st' = skipn (Z.to_nat (RecordSize s)) (f_in st)
    /\ has_keys rules (hits st') = true
    /\ f_out st' = f_out st
         ++ [written_record s rules (firstn (Z.to_nat (RecordSize s)) (f_in st))].
Proof.
  intros Hlen Hkeys.
  destruct (process_record_step s rules i st Hpos Hlen Henc Hkeys)
    as [st' [k [Hrun [Hin [Hk Hspec]]]]].
  exists st'. repeat split; try assumption.
  remember (firstn (Z.to_nat (RecordSize s)) (f_in st)) as rec eqn:Erec.
  assert (Hl : len rec = RecordSize s).
  { subst rec. unfold len in *. rewrite length_firstn. lia. }
  destruct k; simpl in Hspec.
  - destruct Hspec as [Hhd [Hout _]].
    now rewrite written_record_header.
  - destruct Hspec as [Hnh [Hd [es [Ees [_ [Hout _]]]]]].
    destruct rec as [|fb tl]; [discriminate|].
    rewrite written_record_eq by assumption. simpl in Hnh, Hd.
    injection Hd as Hd.
    destruct (Z.eqb_spec fb (HEADER s)); [congruence|].
    destruct (Z.eqb_spec fb (DATA s)); [|congruence].
    destruct (eval_rules_total rules (start (fb :: tl) (init_hits rules)) Henc
                (init_hits_has_keys rules)) as [es0 [E0 _]].
    rewrite E0.
    destruct (eval_rules_hits_irrelevant rules _ _ _ _ E0 Ees) as [Hr _];
      try reflexivity.
    now rewrite Hr.
  - destruct Hspec as [Hnh [Hd [es [Ees [_ [Hout _]]]]]].
    destruct rec as [|fb tl]; [discriminate|].
    rewrite written_record_eq by assumption. simpl in Hnh, Hd.
    injection Hd as Hd.
    destruct (Z.eqb_spec fb (HEADER s)); [congruence|].
    destruct (Z.eqb_spec fb (DATA s)); [|congruence].
    destruct (eval_rules_total rules (start (fb :: tl) (init_hits rules)) Henc
                (init_hits_has_keys rules)) as [es0 [E0 _]].
    rewrite E0.
    destruct (eval_rules_hits_irrelevant rules _ _ _ _ E0 Ees) as [Hr _];
      try reflexivity.
    now rewrite Hr.
  - destruct Hspec as [Hnh [Hnd [Hout _]]].
    now rewrite written_record_unknown.
Qed.

Lemma record_loop_writes (n : nat) :
  forall (i : Z) (st : state),
  Z.of_nat n * RecordSize s <= len (f_in st) ->
  has_keys rules (hits st) = true ->
  exists st',
    record_loop s rules n i st = Ok st'
    /\ has_keys rules (hits st') = true
    /\ f_out st' = f_out st
         ++ map (written_record s rules) (input_records (RecordSize s) n (f_in st)).
Proof.
  induction n as [|n IH]; intros i st Hlen Hkeys.
  - exists st. simpl. now rewrite app_nil_r.
  - assert (H1 : RecordSize s <= len (f_in st)) by lia.
    destruct (process_record_writes i st H1 Hkeys)
      as [st1 [E1 [Hin [Hk1 Hout1]]]].
    destruct (IH (i + 1) st1) as [st2 [E2 [Hk2 Hout2]]]; try assumption.
    { rewrite Hin. unfold len in *. rewrite length_skipn. lia. }
    exists st2. cbn [record_loop]. rewrite E1. cbn [bind].
    repeat split; try assumption.
    rewrite Hout2, Hout1, Hin. cbn [input_records].
    rewrite read_full by lia. cbn [map]. now rewrite <- app_assoc.
Qed.

(** A run with a positive record size and encodable values ends well, and
    writes [written_record] of each record read, in order. *)
Lemma run_writes (p : paths) (input : bytes) :
  exists o,
    run p s rules input = Ok o
    /\ out_record_count o = len input / RecordSize s
    /\ out_records o
       = map (written_record s rules)
           (input_records (RecordSize s)
              (Z.to_nat (len input / RecordSize s)) input).
Proof.
  unfold run, floordiv.
  destruct (Z.eqb_spec (RecordSize s) 0) as [E|_]; [lia|]. cbn [bind].
  set (n := Z.to_nat (len input / RecordSize s)).
  set (st0 := {| f_in := input; f_out := []; logs := _; modified_count := 0;
                 hits := init_hits rules |}).
  destruct (record_loop_writes n 0 st0) as [st [E [Hk Hout]]].
  { apply record_count_fits; [apply len_nonneg|assumption]. }
  { apply init_hits_has_keys. }
  rewrite E. cbn [bind].
  destruct (summary_hits_total rules (hits st) Hk) as [ls ->]. cbn [bind].
  eexists. split; [reflexivity|]. split; [reflexivity|]. exact Hout.
Qed.

(** The lines about records that the loop body, the loop and the run add
    to the log. *)
Lemma record_entries_changes (cs : list change) :
  record_entries (map LChange cs) = [].
Proof. induction cs as [|c cs IH]; simpl; [reflexivity|exact IH]. Qed.

Lemma record_entries_updated (n : Z) (cs : list change) :
  record_entries (LUpdated n :: map LChange cs) = [LUpdated n].
Proof.
  unfold record_entries. cbn [filter is_record_entry]. f_equal.
  apply record_entries_changes.
Qed.

Lemma record_entries_rules (rs : list rule) :
  record_entries (map LRule rs) = [].
Proof. induction rs as [|r rs IH]; simpl; [reflexivity|exact IH]. Qed.

Lemma record_entries_app (a b : list log_line) :
  record_entries (a ++ b) = record_entries a ++ record_entries b.
Proof. apply filter_app. Qed.

Lemma process_record_logs (i : Z) (st : state) :
  RecordSize s <= len (f_in st) -> has_keys rules (hits st) = true ->
  exists st',
    process_record s rules i st = Ok st'
    /\ f_in st' = skipn (Z.to_nat (RecordSize s)) (f_in st)
    /\ has_keys rules (hits st') = true
    /\ record_entries (logs st')
       = record_entries (logs st)
         ++ entry_of s rules i (firstn (Z.to_nat (RecordSize s)) (f_in st)).
Proof.
  intros Hlen Hkeys.
  destruct (process_record_step s rules i st Hpos Hlen Henc Hkeys)
    as [st' [k [Hrun [Hin [Hk Hspec]]]]].
  exists st'. repeat split; try assumption.
  remember (firstn (Z.to_nat (RecordSize s)) (f_in st)) as rec eqn:Erec.
  assert (Hne : length rec = Z.to_nat (RecordSize s)).
  { subst rec. rewrite length_firstn. unfold len in Hlen. lia. }
  destruct rec as [|fb tl]; [simpl in Hne; lia|].
  unfold entry_of, fires.
  destruct (eval_rules_total rules (start (fb :: tl) (init_hits rules)) Henc
              (init_hits_has_keys rules)) as [es0 [E0 _]].
  rewrite E0.
  destruct k; simpl in Hspec.
  - destruct Hspec as [Hhd [_ [Hlog _]]]. injection Hhd as ->.
    rewrite Z.eqb_refl, Hlog, record_entries_app. reflexivity.
  - destruct Hspec as [Hnh [Hd [es [Ees [Hc [_ [Hlog _]]]]]]].
    injection Hd as ->.
    destruct (Z.eqb_spec (DATA s) (HEADER s)) as [Eq|_];
      [rewrite Eq in Hnh; now contradiction Hnh|].
    rewrite Z.eqb_refl.
    destruct (eval_rules_hits_irrelevant rules _ _ _ _ E0 Ees) as [_ [_ Hf]];
      try reflexivity.
    rewrite Hf, Hc, Hlog, record_entries_app. cbn [andb].
    now rewrite record_entries_updated.
  - destruct Hspec as [Hnh [Hd [es [Ees [Hc [_ [Hlog _]]]]]]].
    injection Hd as ->.
    destruct (Z.eqb_spec (DATA s) (HEADER s)) as [Eq|_];
      [rewrite Eq in Hnh; now contradiction Hnh|].
    rewrite Z.eqb_refl.
    destruct (eval_rules_hits_irrelevant rules _ _ _ _ E0 Ees) as [_ [_ Hf]];
      try reflexivity.
    rewrite Hf, Hc, Hlog. cbn [andb]. now rewrite app_nil_r.
  - destruct Hspec as [Hnh [Hnd [_ [Hlog _]]]]. simpl in Hnh, Hnd.
    destruct (Z.eqb_spec fb (HEADER s)); [congruence|].
    destruct (Z.eqb_spec fb (DATA s)); [congruence|].
    rewrite Hlog. cbn [andb]. now rewrite app_nil_r.
Qed.

Lemma record_loop_logs (n : nat) :
  forall (i : Z) (st : state),
  Z.of_nat n * RecordSize s <= len (f_in st) ->
  has_keys rules (hits st) = true ->
  exists st',
    record_loop s rules n i st = Ok st'
    /\ record_entries (logs st')
       = record_entries (logs st)
         ++ entries_from s rules i (input_records (RecordSize s) n (f_in st)).
Proof.
  induction n as [|n IH]; intros i st Hlen Hkeys.
  - exists st. simpl. now rewrite app_nil_r.
  - assert (H1 : RecordSize s <= len (f_in st)) by lia.
    destruct (process_record_logs i st H1 Hkeys) as [st1 [E1 [Hin [Hk1 Hl1]]]].
    destruct (IH (i + 1) st1) as [st2 [E2 Hl2]]; try assumption.
    { rewrite Hin. unfold len in *. rewrite length_skipn. lia. }
    exists st2. cbn [record_loop]. rewrite E1. cbn [bind].
    split; [assumption|].
    rewrite Hl2, Hl1, Hin. cbn [input_records].
    rewrite read_full by lia. cbn [entries_from]. now rewrite <- app_assoc.
Qed.

Lemma summary_hits_entries (rs : list rule) (d : dict Z) (ls : list log_line) :
  summary_hits rs d = Ok ls -> record_entries ls = [].
Proof.
  revert ls; induction rs as [|r rs IH]; intros ls H; simpl in H.
  - apply Ok_inj in H. now subst.
  - bind_inv H h Eh. bind_inv H ls' El. apply Ok_inj in H. subst ls.
    simpl. now apply IH.
Qed.

Lemma run_logs (p : paths) (input : bytes) :
  exists o,
    run p s rules input = Ok o
    /\ record_entries (out_logs o)
       = entries_from s rules 0
           (input_records (RecordSize s)
              (Z.to_nat (len input / RecordSize s)) input).
Proof.
  destruct (run_writes p input) as [o [E _]].
  exists o. split; [assumption|].
  revert E. unfold run, floordiv.
  destruct (Z.eqb_spec (RecordSize s) 0) as [E0|_]; [lia|]. cbn [bind].
  set (n := Z.to_nat (len input / RecordSize s)).
  set (st0 := {| f_in := input; f_out := []; logs := _; modified_count := 0;
                 hits := init_hits rules |}).
  destruct (record_loop_logs n 0 st0) as [st [E Hl]].
  { apply record_count_fits; [apply len_nonneg|assumption]. }
  { apply init_hits_has_keys. }
  rewrite E. cbn [bind].
  destruct (summary_hits rules (hits st)) as [ls|] eqn:Els; [|discriminate].
  cbn [bind]. intros Ho. apply Ok_inj in Ho. subst o. cbn [out_logs].
  rewrite !record_entries_app, Hl, (summary_hits_entries _ _ _ Els).
  unfold st0. cbn [logs f_in]. unfold preamble.
  rewrite !record_entries_app, record_entries_rules.
  cbn [record_entries filter is_record_entry app]. now rewrite app_nil_r.
Qed.

End Run.

(** *** The records read *)

Lemma input_records_length (RS : Z) (n : nat) (rest : bytes) :
  length (input_records RS n rest) = n.
Proof.
  revert rest; induction n as [|n IH]; intros rest; simpl; [reflexivity|].
  destruct (read RS rest). simpl. now rewrite IH.
Qed.

Lemma input_records_sized (RS : Z) (n : nat) (rest : bytes) :
  0 < RS -> Z.of_nat n * RS <= len rest ->
  Forall (fun rec => len rec = RS) (input_records RS n rest).
Proof.
  intros Hpos. revert rest; induction n as [|n IH]; intros rest Hlen; simpl.
  - constructor.
  - rewrite read_full by lia. constructor.
    + unfold len in *. rewrite length_firstn. lia.
    + apply IH. unfold len in *. rewrite length_skipn. lia.
Qed.

Lemma firstn_add {A : Type} (a b : nat) (l : list A) :
  firstn (a + b) l = firstn a l ++ firstn b (skipn a l).
Proof.
  revert l; induction a as [|a IH]; intros l; simpl; [reflexivity|].
  destruct l as [|x l]; simpl.
  - now rewrite firstn_nil.
  - now rewrite IH.
Qed.

Lemma input_records_concat (RS : Z) (n : nat) (rest : bytes) :
  0 < RS ->
  concat (input_records RS n rest) = firstn (n * Z.to_nat RS) rest.
Proof.
  intros Hpos. revert rest; induction n as [|n IH]; intros rest; simpl.
  - reflexivity.
  - rewrite read_full by lia. cbn [concat]. rewrite IH.
    symmetry. apply firstn_add.
Qed.

Lemma input_records_app (RS : Z) (n : nat) (body tail : bytes) :
  0 < RS -> Z.of_nat n * RS <= len body ->
  input_records RS n (body ++ tail) = input_records RS n body.
Proof.
  intros Hpos. revert body; induction n as [|n IH]; intros body Hlen; simpl.
  - reflexivity.
  - rewrite !read_full by lia.
    assert (Hb : (Z.to_nat RS <= length body)%nat) by (unfold len in *; lia).
    rewrite firstn_app, skipn_app.
    replace (Z.to_nat RS - length body)%nat with O by lia.
    simpl. rewrite app_nil_r. f_equal. apply IH.
    unfold len in *. rewrite length_skipn. lia.
Qed.

End RunFacts.

(* ================================================================== *)
(** ** Facts about the loader *)
(* ================================================================== *)

Module LoaderFacts.
Import Py Vocabulary PyFacts UpdateDat.

(** The rules loaded are named after the sections that load, in file
    order. *)
Lemma load_rules_names (sections : list section) (acc rules : list rule) :
  load_rules sections acc = Ok rules ->
  map Name rules = map Name acc ++ map sec_name (filter loads sections).
Proof.
  revert acc; induction sections as [|s sections IH]; intros acc H;
    cbn [load_rules] in H.
  - apply Ok_inj in H. subst rules. cbn. now rewrite app_nil_r.
  - cbn [filter]. unfold loads at 1.
    destruct (startswith (sec_name s) RULE_PREFIX); cbn [andb];
      [|now apply IH].
    bind_inv H conds Ec. bind_inv H upds Eu.
    destruct conds as [|c conds]; [now apply IH|].
    destruct upds as [|u upds]; [now apply IH|].
    rewrite (IH _ H), map_app. cbn [map Name]. now rewrite <- app_assoc.
Qed.

Lemma loaded_names_distinct (sections : list section) :
  NoDup (map sec_name sections) ->
  NoDup (map sec_name (filter loads sections)).
Proof.
  induction sections as [|s sections IH]; cbn [map filter]; intros Hnd.
  - constructor.
  - apply NoDup_cons_iff in Hnd as [Hfresh Hrest].
    destruct (loads s); [|exact (IH Hrest)].
    cbn [map]. apply NoDup_cons; [|exact (IH Hrest)].
    intros Hdup. apply Hfresh.
    apply in_map_iff in Hdup as [s' [Hname Hs']].
    apply filter_In in Hs' as [Hs' _].
    rewrite <- Hname. now apply in_map.
Qed.

(** Section names are distinct in a file [configparser] accepts, so the
    rules [load_config] returns have distinct names. *)
Lemma load_config_names_distinct (c : config) (s : settings) (rules : list rule) :
  NoDup (map sec_name (cfg_sections c)) ->
  load_config c = Ok (s, rules) ->
  NoDup (map Name rules).
Proof.
  intros Hnd H. unfold load_config in H. bind_inv H rs Ers.
  apply Ok_inj in H. injection H as _ <-.
  rewrite (load_rules_names _ _ _ Ers). cbn [map app].
  now apply loaded_names_distinct.
Qed.

End LoaderFacts.

(* ================================================================== *)
(** ** The properties of the specification *)
(* ================================================================== *)

Import Py UpdateDat Vocabulary Samples.
Import PyFacts CodecFacts DictFacts EngineFacts FrameFacts LoopFacts RunFacts
  LoaderFacts.

(** *** The generated test data

    The run of the script on the data of [create_test_data.py]: five
    records written, three of them updated, Rule-1 fired on two records
    and Rule-2 on one, and the fields at bytes 70 and 300 rewritten. *)
Example fixture_run :
  bind (main p0 fixture_config CreateTestData.create_test_dat) (fun o =>
    Ok (out_record_count o, out_modified_count o, out_rule_hits o,
        record_entries (out_logs o), len (out_file o),
        map (fun rec => decode_utf16_be (getslice rec 69 75)) (out_records o),
        map (fun rec => decode_utf16_be (getslice rec 299 303)) (out_records o)))
  = Ok (5, 3, [(of_string "Rule-1", 2); (of_string "Rule-2", 1)],
        [LHeaderSkip 1; LUpdated 2; LUpdated 3; LUpdated 4], 6500,
        [[0; 0; 0]; of_string "056"; of_string "056"; [0; 0; 0]; [0; 0; 0]],
        [[0; 0]; [0; 0]; [0; 0]; of_string "77"; [0; 0]]).
Proof. vm_compute. reflexivity. Qed.

(** *** C9: the codec round trip *)

(** C9.  For every text whose characters are code points of the Basic
    Multilingual Plane other than surrogates (the ASCII digits and
    punctuation of condition and update values among them), encoding
    succeeds, writes each character as the two bytes of one big-endian code
    unit, and decoding the result gives the text back. *)
Theorem decode_encode_roundtrip (v : str) :
  forallb bmp_scalar v = true ->
  exists b, encode_utf16_be v = Ok b
            /\ b = flat_map be16 v
            /\ len b = 2 * len v
            /\ decode_utf16_be b = v.
Proof.
  intros H. exists (flat_map be16 v).
  pose proof (encode_bmp v H) as E.
  repeat split.
  - exact E.
  - unfold len. rewrite length_flat_map_be16. lia.
  - now apply decode_encode.
Qed.

Lemma decode_encode_roundtrip_witness :
  exists b, encode_utf16_be (of_string "056,:-.") = Ok b
            /\ b = flat_map be16 (of_string "056,:-.")
            /\ len b = 2 * len (of_string "056,:-.")
            /\ decode_utf16_be b = of_string "056,:-.".
Proof. apply (decode_encode_roundtrip (of_string "056,:-.")). reflexivity. Defined.

(** *** C1: a matching rule applies all its updates and counts once *)

Lemma eval_rules_deterministic_keys (rules all : list rule) (st st' : eval_state) :
  rules_encodable rules = true -> has_keys rules (rule_hits st) = true ->
  eval_rules rules st = Ok st' -> has_keys all (rule_hits st) = true ->
  has_keys all (rule_hits st') = true.
Proof.
  intros Henc Hk E Hall.
  destruct (eval_rules_total rules st Henc Hk) as [st1 [E1 K1]].
  rewrite E in E1. apply Ok_inj in E1. subst st1.
  now apply (has_keys_kept all _ _ K1).
Qed.

Lemma rules_encodable_app (a b : list rule) :
  rules_encodable (a ++ b) = true ->
  rules_encodable a = true /\ rules_encodable b = true.
Proof. unfold rules_encodable. rewrite forallb_app. apply andb_true_iff. Qed.

Lemma has_keys_app (a b : list rule) (d : dict Z) :
  has_keys (a ++ b) d = true -> has_keys a d = true /\ has_keys b d = true.
Proof. unfold has_keys. rewrite forallb_app. apply andb_true_iff. Qed.


(** C1.  Take the rule loop on one data record, with rules of distinct
    names, at the turn of rule [R]: [st1] is the state the earlier rules
    [pre] left.  If all conditions of [R] match the record buffer of [st1],
    then the turn writes every update of [R] into the buffer, in order,
    appends one change entry per update, and adds 1 to the counter of [R];
    the later rules [post] leave that counter alone, so that over the whole
    record the counter of [R] grows by exactly 1, however many updates [R]
    has.  (Names are distinct in what [load_config] returns, see
    [load_config_names_distinct].) *)
Theorem matching_rule_applies_updates_and_counts_once
  (pre post : list rule) (R : rule) (st st1 : eval_state) (h : Z) :
  NoDup (map Name (pre ++ R :: post)) ->
  rules_encodable (pre ++ R :: post) = true ->
  has_keys (pre ++ R :: post) (rule_hits st) = true ->
  dict_get (rule_hits st) (Name R) = Ok h ->
  eval_rules pre st = Ok st1 ->
  all_match (Conditions R) (record st1) = Ok true ->
  exists st2 stF,
    eval_rule R st1 = Ok st2
    /\ record st2 = fold_left write (Updates R) (record st1)
    /\ changes st2
       = changes st1 ++ update_changes (Name R) (Updates R) (record st1)
    /\ length (update_changes (Name R) (Updates R) (record st1))
       = length (Updates R)
    /\ dict_get (rule_hits st2) (Name R) = Ok (h + 1)
    /\ eval_rules post st2 = Ok stF
    /\ eval_rules (pre ++ R :: post) st = Ok stF
    /\ dict_get (rule_hits stF) (Name R) = Ok (h + 1).
Proof.
  intros Hnd Henc Hkeys Hh Hpre Hm.
  rewrite map_app in Hnd. cbn [map] in Hnd.
  pose proof (NoDup_remove_2 _ _ _ Hnd) as Hnot.
  assert (Hnpre : ~ In (Name R) (map Name pre))
    by (intros Hin; apply Hnot, in_or_app; now left).
  assert (Hnpost : ~ In (Name R) (map Name post))
    by (intros Hin; apply Hnot, in_or_app; now right).
  apply rules_encodable_app in Henc as [Hepre HeR].
  cbn [rules_encodable forallb] in HeR.
  apply andb_true_iff in HeR as [HeR Hepost].
  apply andb_true_iff in HeR as [HeRc HeRu].
  pose proof (has_keys_app _ _ _ Hkeys) as [Hkpre _].
  pose proof (eval_rules_deterministic_keys pre (pre ++ R :: post) st st1
                Hepre Hkpre Hpre Hkeys) as Hk1.
  assert (Hh1 : dict_get (rule_hits st1) (Name R) = Ok h).
  { rewrite <- Hh. now apply eval_rules_other_hits with (rules := pre). }
  pose proof (eval_rule_fires R st1 h Hm HeRu Hh1) as E2.
  set (st2 := {| record := fold_left write (Updates R) (record st1);
                 changes := changes st1
                            ++ update_changes (Name R) (Updates R) (record st1);
                 has_change := true;
                 rule_hits := dict_set (rule_hits st1) (Name R) (h + 1) |}) in *.
  assert (Hk2 : has_keys post (rule_hits st2) = true).
  { apply has_keys_app in Hk1 as [_ Hk1]. cbn [has_keys forallb] in Hk1.
    apply andb_true_iff in Hk1 as [_ Hk1].
    apply (has_keys_kept post (rule_hits st1)); [|exact Hk1].
    intros k Hk. unfold st2. cbn [rule_hits]. now apply dict_set_keeps_keys. }
  destruct (eval_rules_total post st2 Hepost Hk2) as [stF [EF _]].
  assert (H2 : dict_get (rule_hits st2) (Name R) = Ok (h + 1))
    by apply dict_get_set_same.
  exists st2, stF. repeat split; try assumption; try reflexivity.
  - apply length_update_changes.
  - rewrite eval_rules_app, Hpre. cbn [bind eval_rules]. now rewrite E2.
  - rewrite <- H2. now apply eval_rules_other_hits with (rules := post).
Qed.

Lemma matching_rule_applies_updates_and_counts_once_witness :
  exists st2 stF,
    eval_rule rule_B (after [rule_A] (start data8 (init_hits [rule_A; rule_B; rule_D])))
    = Ok st2
    /\ record st2 = [0x32; 0; 65; 0; 90; 0; 67; 7]
    /\ dict_get (rule_hits st2) (Name rule_B) = Ok 1
    /\ eval_rules [rule_A; rule_B; rule_D]
         (start data8 (init_hits [rule_A; rule_B; rule_D])) = Ok stF
    /\ dict_get (rule_hits stF) (Name rule_B) = Ok 1.
Proof.
  destruct (matching_rule_applies_updates_and_counts_once
              [rule_A] [rule_D] rule_B
              (start data8 (init_hits [rule_A; rule_B; rule_D]))
              (after [rule_A] (start data8 (init_hits [rule_A; rule_B; rule_D])))
              0)
    as [st2 [stF [E2 [Hrec [_ [_ [Hh2 [_ [EF HhF]]]]]]]]].
  - repeat constructor; simpl; intuition discriminate.
  - reflexivity.
  - reflexivity.
  - reflexivity.
  - reflexivity.
  - reflexivity.
  - exists st2, stF. repeat split; assumption.
Defined.

(** C1, as stated, fails.  The condition of Rule-D matches the data record
    as it is read, yet in a run with Rule-C declared before it the update
    of Rule-D is not applied (bytes 6 and 7 are written as read) and its
    counter ends at 0: at the turn of Rule-D, Rule-C has replaced the [A]
    that Rule-D looks for. *)
Lemma matching_rule_can_be_left_unapplied :
  hd_error data8 = Some (DATA s8)
  /\ all_match (Conditions rule_D) data8 = Ok true
  /\ exists o,
       run p0 s8 [rule_C; rule_D] data8 = Ok o
       /\ out_records o = [[0x32; 0; 88; 7; 7; 7; 7; 7]]
       /\ out_modified_count o = 1
       /\ out_rule_hits o = [(of_string "Rule-C", 1); (of_string "Rule-D", 0)].
Proof.
  split; [reflexivity|]. split; [reflexivity|].
  eexists. split; [reflexivity|]. repeat split.
Qed.

(** *** C10: conditions are read from the buffer as mutated so far *)

(** C10.  In the rule loop on one record, the turn of a rule [R] starts
    from the state the earlier rules left: its conditions are compared with
    the buffer as already written by the earlier rules that fired, not with
    the bytes read from the input.  So an earlier update can make a later
    rule match (Rule-B matches only the [B] that Rule-A wrote) and can break
    a later match (Rule-D matches the input record, but not after Rule-C
    replaced the [A] it looks for). *)
Theorem conditions_read_the_mutated_buffer :
  (forall (pre post : list rule) (R : rule) (st : eval_state),
     eval_rules (pre ++ R :: post) st
     = bind (eval_rules pre st) (fun st1 =>
       bind (all_match (Conditions R) (record st1)) (fun m =>
       bind (if (m : bool) then
               bind (apply_updates (Name R) (Updates R) (record st1) (changes st1))
                 (fun rc =>
               bind (dict_incr (rule_hits st1) (Name R)) (fun hits =>
               Ok {| record := fst rc; changes := snd rc; has_change := true;
                     rule_hits := hits |}))
             else Ok st1)
         (eval_rules post))))
  /\ (all_match (Conditions rule_B) data8 = Ok false
      /\ exists stF,
           eval_rules [rule_A; rule_B] (start data8 (init_hits [rule_A; rule_B]))
           = Ok stF
           /\ dict_get (rule_hits stF) (Name rule_B) = Ok 1
           /\ record stF = [0x32; 0; 65; 0; 90; 0; 67; 7])
  /\ (all_match (Conditions rule_D) data8 = Ok true
      /\ exists stF,
           eval_rules [rule_C; rule_D] (start data8 (init_hits [rule_C; rule_D]))
           = Ok stF
           /\ dict_get (rule_hits stF) (Name rule_D) = Ok 0
           /\ record stF = [0x32; 0; 88; 7; 7; 7; 7; 7]).
Proof.
  split; [|split].
  - intros pre post R st. rewrite eval_rules_app.
    destruct (eval_rules pre st) as [st1|]; [|reflexivity].
    cbn [bind eval_rules]. unfold eval_rule.
    destruct (all_match (Conditions R) (record st1)) as [m|]; reflexivity.
  - split; [reflexivity|]. eexists. split; [reflexivity|]. split; reflexivity.
  - split; [reflexivity|]. eexists. split; [reflexivity|]. split; reflexivity.
Qed.

(** *** C4: the last writer wins *)





(** *** C5: header records *)

Lemma nth_error_map_some {A B : Type} (f : A -> B) (l : list A) (i : nat) (x : A) :
  nth_error l i = Some x -> nth_error (map f l) i = Some (f x).
Proof. intros H. rewrite nth_error_map, H. reflexivity. Qed.

(** C5.  Whatever the rules, the loop body writes a record whose first
    byte is the header marker exactly as it was read, and touches neither
    the counters nor the count of modified records.  In a run (positive
    record size, encodable rule values) the record written at the index of
    every such input record is that record, byte for byte. *)
Theorem header_record_never_mutated (p : paths) (s : settings) (rules : list rule) :
  (forall (i : Z) (st : state) (rec rest : bytes),
     read (RecordSize s) (f_in st) = (rec, rest) ->
     hd_error rec = Some (HEADER s) ->
     exists st', process_record s rules i st = Ok st'
                 /\ f_out st' = f_out st ++ [rec]
                 /\ hits st' = hits st
                 /\ modified_count st' = modified_count st)
  /\ (forall input : bytes,
        0 < RecordSize s -> rules_encodable rules = true ->
        exists o, run p s rules input = Ok o
          /\ forall (i : nat) (rec : bytes),
               nth_error (input_records (RecordSize s)
                            (Z.to_nat (len input / RecordSize s)) input) i
               = Some rec ->
               hd_error rec = Some (HEADER s) ->
               nth_error (out_records o) i = Some rec).
Proof.
  split.
  - intros i st rec rest Hread Hhd.
    destruct rec as [|fb tl]; [discriminate|]. simpl in Hhd. injection Hhd as ->.
    rewrite (process_record_eq s rules i st _ tl rest Hread).
    rewrite Z.eqb_refl. eexists. repeat split.
  - intros input Hpos Henc.
    destruct (run_writes s rules Hpos Henc p input) as [o [E [_ Hout]]].
    exists o. split; [assumption|]. intros i rec Hi Hhd.
    rewrite Hout. rewrite (nth_error_map_some _ _ _ _ Hi). f_equal.
    apply written_record_header; [|assumption].
    pose proof (input_records_sized (RecordSize s)
                  (Z.to_nat (len input / RecordSize s)) input Hpos
                  (record_count_fits _ _ (len_nonneg input) Hpos)) as Hall.
    rewrite Forall_forall in Hall. apply Hall.
    now apply nth_error_In with (n := i).
Qed.

Lemma header_record_never_mutated_witness :
  exists o, run p0 s8 [rule_A; rule_C] (data8 ++ header8) = Ok o
            /\ nth_error (out_records o) 1 = Some header8.
Proof.
  destruct (proj2 (header_record_never_mutated p0 s8 [rule_A; rule_C])
              (data8 ++ header8)) as [o [E H]].
  - reflexivity.
  - reflexivity.
  - exists o. split; [exact E|]. apply H; reflexivity.
Defined.

(** *** C2: what a run changes in the file *)

Lemma Forall_map_Forall2 {A B : Type} (P : A -> Prop) (R : A -> B -> Prop)
  (f : A -> B) (l : list A) :
  Forall P l -> (forall x, P x -> R x (f x)) -> Forall2 R l (map f l).
Proof.
  intros H HR. induction H as [|x l Hx Hl IH]; simpl; constructor; auto.
Qed.

Lemma Forall2_concat_length {A : Type} (R : list A -> list A -> Prop)
  (l l' : list (list A)) :
  Forall2 R l l' -> (forall a b, R a b -> length b = length a) ->
  length (concat l') = length (concat l).
Proof.
  intros H HR. induction H as [|a b l l' Hab Hl IH]; simpl; [reflexivity|].
  rewrite !length_app, IH. now rewrite (HR a b Hab).
Qed.

(** The record written for a record of the configured size, when every
    update window lies inside the record. *)
Lemma written_record_frame (s : settings) (rules : list rule) (rec : bytes) :
  0 < RecordSize s -> len rec = RecordSize s ->
  rules_encodable rules = true ->
  updates_in_bounds (RecordSize s) rules = true ->
  length (written_record s rules rec) = length rec
  /\ (hd_error rec = Some (HEADER s) \/ hd_error rec <> Some (DATA s) ->
      written_record s rules rec = rec)
  /\ forall j, (forall c, In c (applied_changes s rules rec) ->
                          ~ change_covers c j) ->
               nth_error (written_record s rules rec) j = nth_error rec j.
Proof.
  intros Hpos Hlen Henc Hb.
  destruct rec as [|fb tl]; [unfold len in Hlen; simpl in Hlen; lia|].
  rewrite written_record_eq by assumption.
  unfold applied_changes. cbn [hd_error].
  destruct (Z.eqb_spec fb (HEADER s)) as [Hh|Hh]; [now repeat split|].
  destruct (Z.eqb_spec fb (DATA s)) as [Hd|Hd]; [|now repeat split].
  assert (Hcases : Some fb = Some (HEADER s) \/ Some fb <> Some (DATA s)
                   -> False).
  { intros [E|E]; [apply Hh; congruence|apply E; congruence]. }
  unfold fired_changes.
  destruct (eval_rules_total rules (start (fb :: tl) (init_hits rules)) Henc
              (init_hits_has_keys rules)) as [es [E _]].
  rewrite E.
  destruct (eval_rules_frame rules _ es E) as [Hl [new [Hch Hfr]]].
  { cbn [start record]. now rewrite Hlen. }
  cbn [start record changes app] in Hl, Hch, Hfr. subst new.
  split; [assumption|]. split; [|assumption].
  intros H. destruct (Hcases H).
Qed.

(** C2 (amended).  In a run with a positive record size, an input whose
    length is a multiple of the record size, encodable rule values and
    every update window inside the record, the output has the length of the
    input and as many records, in the same order; each written record has
    the length of the record read; a header record and a record whose first
    byte is not the data marker are written as read, whatever the rules
    would match in them; and a data record differs from the record read
    only at bytes that a change entry of an update fired on it covers. *)
Theorem output_differs_only_in_fired_windows
  (p : paths) (s : settings) (rules : list rule) (input : bytes) :
  0 < RecordSize s ->
  len input mod RecordSize s = 0 ->
  rules_encodable rules = true ->
  updates_in_bounds (RecordSize s) rules = true ->
  exists o,
    run p s rules input = Ok o
    /\ len (out_file o) = len input
    /\ out_record_count o = len input / RecordSize s
    /\ concat (input_records (RecordSize s)
                 (Z.to_nat (len input / RecordSize s)) input) = input
    /\ Forall2
         (fun rec rec' =>
            length rec' = length rec
            /\ (hd_error rec = Some (HEADER s) \/ hd_error rec <> Some (DATA s) ->
                rec' = rec)
            /\ forall j,
                 (forall c, In c (applied_changes s rules rec) ->
                            ~ change_covers c j) ->
                 nth_error rec' j = nth_error rec j)
         (input_records (RecordSize s)
            (Z.to_nat (len input / RecordSize s)) input)
         (out_records o).
Proof.
  intros Hpos Hmod Henc Hb.
  destruct (run_writes s rules Hpos Henc p input) as [o [E [Hcount Hout]]].
  set (n := Z.to_nat (len input / RecordSize s)) in *.
  pose proof (record_count_fits _ _ (len_nonneg input) Hpos) as Hfit.
  fold n in Hfit.
  pose proof (input_records_sized (RecordSize s) n input Hpos Hfit) as Hall.
  assert (HF2 : Forall2
         (fun rec rec' =>
            length rec' = length rec
            /\ (hd_error rec = Some (HEADER s) \/ hd_error rec <> Some (DATA s) ->
                rec' = rec)
            /\ forall j,
                 (forall c, In c (applied_changes s rules rec) ->
                            ~ change_covers c j) ->
                 nth_error rec' j = nth_error rec j)
         (input_records (RecordSize s) n input) (out_records o)).
  { rewrite Hout.
    apply Forall_map_Forall2 with (P := fun rec => len rec = RecordSize s);
      [assumption|].
    intros rec Hrec. now apply written_record_frame. }
  assert (Hcat : concat (input_records (RecordSize s) n input) = input).
  { rewrite input_records_concat by assumption.
    apply firstn_all2. unfold n.
    assert (Hq : 0 <= len input / RecordSize s)
      by (apply Z.div_pos; [apply len_nonneg|lia]).
    pose proof (Z.div_mod (len input) (RecordSize s) ltac:(lia)) as Hdm.
    unfold len in *. nia. }
  exists o. repeat split; try assumption.
  unfold out_file, len. f_equal.
  transitivity (length (concat (input_records (RecordSize s) n input)));
    [|now rewrite Hcat].
  apply Forall2_concat_length with (1 := HF2). now intros a b [Hl _].
Qed.

Lemma output_differs_only_in_fired_windows_witness :
  exists o,
    run p0 s8 [rule_A; rule_B] (header8 ++ data8) = Ok o
    /\ len (out_file o) = 16.
Proof.
  destruct (output_differs_only_in_fired_windows p0 s8 [rule_A; rule_B]
              (header8 ++ data8)) as [o [E [Hl _]]].
  - reflexivity.
  - reflexivity.
  - reflexivity.
  - reflexivity.
  - exists o. split; assumption.
Defined.

(** C2, as stated, fails in two ways.  An update whose window ends past
    the record (Rule-G writes two bytes at the last byte of an 8-byte
    record) makes the output one byte longer than the input; and of an
    input of 11 bytes only the first 8 reach the output. *)
Lemma output_length_can_differ :
  (exists o, run p0 s8 [rule_G] data8 = Ok o
             /\ out_file o = [0x32; 0; 65; 7; 7; 7; 7; 0; 81]
             /\ len (out_file o) = 9 /\ len data8 = 8)
  /\ (exists o, run p0 s8 [rule_A] (data8 ++ [1; 2; 3]) = Ok o
                /\ len (out_file o) = 8 /\ len (data8 ++ [1; 2; 3]) = 11).
Proof.
  split; eexists; (split; [reflexivity|]); repeat split.
Qed.

(** *** C3: an input that ends inside a record *)

(** C3 (amended).  When the input length is not a multiple of the (positive)
    record size, the run does not fail: it processes
    [len input // RecordSize] records and writes exactly the records it
    would write for the input cut after the last whole record; the bytes
    of the incomplete last record are read by nobody and reach no output. *)
Theorem truncated_input_is_cut_silently
  (p : paths) (s : settings) (rules : list rule) (input : bytes) :
  0 < RecordSize s ->
  len input mod RecordSize s <> 0 ->
  rules_encodable rules = true ->
  exists o o',
    run p s rules input = Ok o
    /\ out_record_count o = len input / RecordSize s
    /\ length (out_records o) = Z.to_nat (len input / RecordSize s)
    /\ RecordSize s * (len input / RecordSize s) < len input
    /\ run p s rules
         (firstn (Z.to_nat (RecordSize s * (len input / RecordSize s))) input)
       = Ok o'
    /\ out_records o = out_records o'.
Proof.
  intros Hpos Hmod Henc.
  set (q := len input / RecordSize s).
  set (body := firstn (Z.to_nat (RecordSize s * q)) input).
  destruct (run_writes s rules Hpos Henc p input) as [o [E [Hcount Hout]]].
  destruct (run_writes s rules Hpos Henc p body) as [o' [E' [Hcount' Hout']]].
  fold q in Hcount, Hout.
  assert (Hq : 0 <= q) by (apply Z.div_pos; [apply len_nonneg|lia]).
  pose proof (Z.div_mod (len input) (RecordSize s) ltac:(lia)) as Hdm.
  pose proof (Z.mod_pos_bound (len input) (RecordSize s) Hpos) as Hmb.
  fold q in Hdm.
  assert (Hlt : RecordSize s * q < len input) by lia.
  assert (Hbody : len body = RecordSize s * q).
  { unfold body, len in *. rewrite length_firstn. lia. }
  assert (Hq' : len body / RecordSize s = q).
  { rewrite Hbody, Z.mul_comm. apply Z.div_mul. lia. }
  rewrite Hq' in Hout'.
  exists o, o'. repeat split; try assumption.
  - rewrite Hout, length_map. apply input_records_length.
  - rewrite Hout, Hout'. f_equal.
    rewrite <- (firstn_skipn (Z.to_nat (RecordSize s * q)) input) at 1.
    fold body. apply input_records_app; [assumption|].
    rewrite Hbody. rewrite Z2Nat.id by assumption. lia.
Qed.

Lemma truncated_input_is_cut_silently_witness :
  exists o o',
    run p0 s8 [rule_A] (data8 ++ [1; 2; 3]) = Ok o
    /\ run p0 s8 [rule_A] data8 = Ok o'
    /\ out_records o = out_records o'.
Proof.
  destruct (truncated_input_is_cut_silently p0 s8 [rule_A] (data8 ++ [1; 2; 3]))
    as [o [o' [E [_ [_ [_ [E' Heq]]]]]]].
  - reflexivity.
  - discriminate.
  - reflexivity.
  - exists o, o'. repeat split; assumption.
Defined.

(** C3, as stated, fails: an input of 11 bytes with records of 8 bytes is
    processed without any error; one record is written and the last three
    bytes are dropped. *)
Lemma truncated_input_raises_nothing :
  exists o, run p0 s8 [rule_A] (data8 ++ [1; 2; 3]) = Ok o
            /\ out_record_count o = 1
            /\ out_file o = [0x32; 0; 65; 0; 66; 0; 67; 7].
Proof. eexists. split; [reflexivity|]. split; reflexivity. Qed.

(** *** C6: the log, record by record *)

Lemma eval_rules_keeps_flag (rules : list rule) (st st' : eval_state) :
  eval_rules rules st = Ok st' -> has_change st = true -> has_change st' = true.
Proof.
  revert st; induction rules as [|r rules IH]; intros st E H; simpl in E.
  - apply Ok_inj in E. now subst.
  - bind_inv E st1 E1. apply (IH st1 E).
    apply eval_rule_inv in E1 as [[_ ->]|[_ [_ [h [_ ->]]]]]; [assumption|reflexivity].
Qed.

(** A pass in which no rule fired leaves the state as it was. *)
Lemma eval_rules_no_change (rules : list rule) (st st' : eval_state) :
  eval_rules rules st = Ok st' -> has_change st' = false -> st' = st.
Proof.
  revert st; induction rules as [|r rules IH]; intros st E H; simpl in E.
  - apply Ok_inj in E. now subst.
  - bind_inv E st1 E1.
    apply eval_rule_inv in E1 as [[_ ->]|[_ [_ [h [_ ->]]]]].
    + now apply IH.
    + apply eval_rules_keeps_flag in E; [congruence|reflexivity].
Qed.

(** C6 (amended).  In a run with a positive record size and encodable
    rule values, every record the loop body processes (a whole record left
    to read, a counter per rule) is written, and is logged as follows:
    - first byte the header marker: the line [HEADER - Skip], and the
      record is written unchanged;
    - a data record on which at least one rule fired: the line [UPDATED]
      followed by the change lines of the fired updates;
    - a data record on which no rule fired: no line at all, and the record
      is written unchanged;
    - any other first byte: no line at all, and the record is written
      unchanged.
    So the lines of a whole run's log that report on records are, in
    order, one per header record and one per data record on which a rule
    fires, and none for the other records. *)
Theorem log_lines_per_record (s : settings) (rules : list rule) :
  0 < RecordSize s -> rules_encodable rules = true ->
  (forall (i : Z) (st : state),
     RecordSize s <= len (f_in st) -> has_keys rules (hits st) = true ->
     exists st' rec',
       process_record s rules i st = Ok st'
       /\ f_out st' = f_out st ++ [rec']
       /\ let rec := firstn (Z.to_nat (RecordSize s)) (f_in st) in
          (hd_error rec = Some (HEADER s)
           /\ logs st' = logs st ++ [LHeaderSkip (i + 1)]
           /\ rec' = rec)
          \/ (hd_error rec <> Some (HEADER s) /\ hd_error rec = Some (DATA s)
              /\ exists es,
                   eval_rules rules (start rec (hits st)) = Ok es
                   /\ has_change es = true
                   /\ logs st' = logs st
                                 ++ LUpdated (i + 1) :: map LChange (changes es)
                   /\ rec' = record es)
          \/ (hd_error rec <> Some (HEADER s) /\ hd_error rec = Some (DATA s)
              /\ eval_rules rules (start rec (hits st)) = Ok (start rec (hits st))
              /\ logs st' = logs st
              /\ rec' = rec)
          \/ (hd_error rec <> Some (HEADER s) /\ hd_error rec <> Some (DATA s)
              /\ logs st' = logs st
              /\ rec' = rec))
  /\ (forall (p : paths) (input : bytes),
        exists o,
          run p s rules input = Ok o
          /\ record_entries (out_logs o)
             = entries_from s rules 0
                 (input_records (RecordSize s)
                    (Z.to_nat (len input / RecordSize s)) input)).
Proof.
  intros Hpos Henc. split; [|exact (run_logs s rules Hpos Henc)].
  intros i st Hlen Hkeys.
  destruct (process_record_step s rules i st Hpos Hlen Henc Hkeys)
    as [st' [k [E [_ [_ Hspec]]]]].
  exists st'. destruct k; simpl in Hspec.
  - destruct Hspec as [Hhd [Hout [Hlog _]]].
    eexists. split; [exact E|]. split; [exact Hout|]. left. auto.
  - destruct Hspec as [Hnh [Hd [es [Ees [Hc [Hout [Hlog _]]]]]]].
    eexists. split; [exact E|]. split; [exact Hout|]. right. left.
    repeat split; try assumption. exists es. auto.
  - destruct Hspec as [Hnh [Hd [es [Ees [Hc [Hout [Hlog _]]]]]]].
    pose proof (eval_rules_no_change _ _ _ Ees Hc) as ->.
    eexists. split; [exact E|]. split; [exact Hout|]. right. right. left.
    repeat split; assumption.
  - destruct Hspec as [Hnh [Hnd [Hout [Hlog _]]]].
    eexists. split; [exact E|]. split; [exact Hout|]. right. right. right.
    repeat split; assumption.
Qed.

Lemma log_lines_per_record_witness :
  (exists st', process_record s8 [rule_A] 0 st_unknown8 = Ok st'
               /\ f_out st' = [unknown8] /\ logs st' = [])
  /\ (exists o, run p0 s8 [rule_A; rule_F]
                  (header8 ++ data8 ++ unknown8 ++ header8 ++ data8) = Ok o
                /\ record_entries (out_logs o)
                   = [LHeaderSkip 1; LUpdated 2; LHeaderSkip 4; LUpdated 5]).
Proof.
  destruct (log_lines_per_record s8 [rule_A]) as [Hstep _];
    [reflexivity|reflexivity|].
  destruct (log_lines_per_record s8 [rule_A; rule_F]) as [_ Hrun];
    [reflexivity|reflexivity|].
  split.
  - destruct (Hstep 0 st_unknown8) as [st' [rec' [E [Hout Hcases]]]].
    + discriminate.
    + reflexivity.
    + exists st'. split; [exact E|].
      cbv zeta in Hcases.
      destruct Hcases as [[Hh _]|[[_ [Hd _]]|[[_ [Hd _]]|[_ [_ [Hlog Hrec]]]]]];
        try discriminate.
      subst rec'. split; assumption.
  - destruct (Hrun p0 (header8 ++ data8 ++ unknown8 ++ header8 ++ data8))
      as [o [E Hl]].
    exists o. split; assumption.
Defined.

(** C6, as stated, fails: in a run over a record with an unknown marker
    byte followed by a data record on which no rule fires, the two records
    are written unchanged and the log holds no line about either of them;
    the log is the preamble followed by the summary. *)
Lemma unknown_and_unmodified_records_are_not_logged :
  exists o, run p0 s8 [rule_F] (unknown8 ++ data8) = Ok o
            /\ out_record_count o = 2
            /\ out_records o = [unknown8; data8]
            /\ record_entries (out_logs o) = []
            /\ out_logs o
               = preamble p0 s8 [rule_F] 16 2
                 ++ [LBlank; LSeparator; LSummary 0 2;
                     LRuleHits (Name rule_F) 0].
Proof. eexists. split; [reflexivity|]. repeat split. Qed.

(** *** C7: windows that reach past the record *)

Lemma all_match_past_end (conds : list entry) (c : entry) (rec : bytes) :
  entries_encodable conds = true -> In c conds ->
  0 <= StartByte c - 1 -> 0 < len (utf16 (Value c)) ->
  len rec < StartByte c - 1 + len (utf16 (Value c)) ->
  all_match conds rec = Ok false.
Proof.
  intros Henc Hin Hoff Hne Hpast.
  induction conds as [|c0 conds IH]; [contradiction|].
  simpl in Henc. apply andb_true_iff in Henc as [Hc0 Hcs].
  simpl. rewrite (utf16_encodable _ Hc0). cbn [bind].
  destruct (list_eqb _ _) eqn:Eq; [|reflexivity].
  destruct Hin as [->|Hin]; [|now apply IH].
  exfalso. apply list_eqb_length in Eq.
  pose proof (getslice_length_past rec (StartByte c - 1)
                (len (utf16 (Value c))) Hoff Hne Hpast) as Hlt.
  unfold len in Hlt at 1 3. lia.
Qed.

(** C7 (amended).  Windows are checked nowhere, and a window that reaches
    past the record is not an error.  A run with a positive record size and
    encodable rule values ends well whatever the windows of its rules are;
    a condition whose non-empty window starts at or after byte 1 and ends
    past the record makes its rule fail to match (the slice read is
    shorter than the expected bytes); an update with such a window
    overwrites the record from its offset to the end and appends the rest
    of its value, so the record grows. *)
Theorem window_past_record_is_not_an_error :
  (forall (p : paths) (s : settings) (rules : list rule) (input : bytes),
     0 < RecordSize s -> rules_encodable rules = true ->
     exists o, run p s rules input = Ok o)
  /\ (forall (conds : list entry) (c : entry) (rec : bytes),
        entries_encodable conds = true -> In c conds ->
        0 <= StartByte c - 1 -> 0 < len (utf16 (Value c)) ->
        len rec < StartByte c - 1 + len (utf16 (Value c)) ->
        all_match conds rec = Ok false)
  /\ (forall (name : str) (u : entry) (rec : bytes) (ch : list change),
        encodable (Value u) = true ->
        0 <= StartByte u - 1 -> 0 < len (utf16 (Value u)) ->
        len rec < StartByte u - 1 + len (utf16 (Value u)) ->
        exists rec' ch',
          apply_updates name [u] rec ch = Ok (rec', ch')
          /\ rec' = firstn (Z.to_nat (StartByte u - 1)) rec ++ utf16 (Value u)
          /\ len rec < len rec').
Proof.
  split; [|split].
  - intros p s rules input Hpos Henc.
    destruct (run_writes s rules Hpos Henc p input) as [o [E _]]. now exists o.
  - exact all_match_past_end.
  - intros name u rec ch Henc Hoff Hne Hpast.
    assert (He : entries_encodable [u] = true) by (simpl; now rewrite Henc).
    rewrite (apply_updates_spec name [u] rec ch He). cbn [fold_left].
    do 2 eexists. split; [reflexivity|].
    unfold write. split.
    + now apply setslice_past.
    + now apply setslice_past_length.
Qed.

Lemma window_past_record_is_not_an_error_witness :
  all_match (Conditions rule_F) data8 = Ok false
  /\ exists rec' ch',
       apply_updates (Name rule_G) [ent 8 "Q"] data8 [] = Ok (rec', ch')
       /\ rec' = [0x32; 0; 65; 7; 7; 7; 7; 0; 81].
Proof.
  destruct window_past_record_is_not_an_error as [_ [Hcond Hupd]].
  split.
  - apply (Hcond (Conditions rule_F) (ent 8 "7") data8).
    + reflexivity.
    + now left.
    + discriminate.
    + reflexivity.
    + reflexivity.
  - destruct (Hupd (Name rule_G) (ent 8 "Q") data8 []) as [rec' [ch' [E [Hrec _]]]].
    + reflexivity.
    + discriminate.
    + reflexivity.
    + reflexivity.
    + exists rec', ch'. split; assumption.
Defined.

(** C7, as stated, fails: Rule-G, whose update window is bytes 8 and 9 of
    an 8-byte record, is loaded and run without any error, and the record
    written has 9 bytes. *)
Lemma window_past_record_is_accepted :
  exists sr o,
    load_config (cfg [sec "Rule-G" "2:A" "8:Q"]) = Ok sr
    /\ snd sr = [rule_G]
    /\ entry_in_bounds (RecordSize (fst sr)) (ent 8 "Q") = false
    /\ run p0 (fst sr) (snd sr) data8 = Ok o
    /\ out_records o = [[0x32; 0; 65; 7; 7; 7; 7; 0; 81]].
Proof. do 2 eexists. split; [reflexivity|]. repeat split. Qed.

(** *** C8: malformed entries of a rule *)

Lemma int_raises_ValueError (t : str) (e : exn) :
  int t = Raise e -> e = ValueError.
Proof.
  unfold int. destruct (strip_by is_int_space t) as [|c ds]; [congruence|].
  destruct (c =? 45).
  - destruct (digits_from 0 false ds); congruence.
  - destruct (digits_from 0 false _); congruence.
Qed.

Lemma int_not_ok (t : str) : is_ok (int t) = false -> int t = Raise ValueError.
Proof.
  destruct (int t) as [n|e] eqn:E; [discriminate|].
  intros _. now rewrite (int_raises_ValueError t e E).
Qed.

Lemma parse_items_raises (items : list str) (acc : list entry) (e : exn) :
  parse_items items acc = Raise e -> e = ValueError.
Proof.
  revert acc; induction items as [|item items IH]; intros acc H; simpl in H.
  - discriminate.
  - destruct (contains COLON (strip item)); [|now apply IH in H].
    destruct (split_once COLON (strip item)) as [byte_pos value].
    destruct (int byte_pos) as [n|e'] eqn:E; simpl in H.
    + now apply IH in H.
    + apply int_raises_ValueError in E. congruence.
Qed.

(** One entry with a colon whose offset [int] rejects makes the whole
    parse raise. *)
Lemma parse_items_bad (items : list str) (item : str) (acc : list entry) :
  In item items ->
  contains COLON (strip item) = true ->
  is_ok (int (fst (split_once COLON (strip item)))) = false ->
  parse_items items acc = Raise ValueError.
Proof.
  intros Hin Hcolon Hbad. revert acc.
  induction items as [|item0 items IH]; intros acc; [contradiction|].
  destruct (parse_items (item0 :: items) acc) as [es|e] eqn:E;
    [|now rewrite (parse_items_raises _ _ _ E)].
  exfalso. simpl in E. destruct Hin as [->|Hin].
  - rewrite Hcolon in E.
    destruct (split_once COLON (strip item)) as [byte_pos value].
    simpl in Hbad. apply int_not_ok in Hbad. rewrite Hbad in E. discriminate.
  - destruct (contains COLON (strip item0)).
    + destruct (split_once COLON (strip item0)) as [byte_pos value].
      destruct (int byte_pos); simpl in E; [|discriminate].
      rewrite (IH Hin) in E. discriminate.
    + rewrite (IH Hin) in E. discriminate.
Qed.

Lemma parse_items_skip (before after : list str) (item : str) (acc : list entry) :
  contains COLON (strip item) = false ->
  parse_items (before ++ item :: after) acc = parse_items (before ++ after) acc.
Proof.
  intros Hno. revert acc.
  induction before as [|b before IH]; intros acc; simpl.
  - now rewrite Hno.
  - destruct (contains COLON (strip b)); [|apply IH].
    destruct (split_once COLON (strip b)) as [byte_pos value].
    destruct (int byte_pos); simpl; [apply IH|reflexivity].
Qed.

Lemma load_rules_raises (sections : list section) (acc : list rule) (e : exn) :
  load_rules sections acc = Raise e -> e = ValueError.
Proof.
  revert acc; induction sections as [|s sections IH]; intros acc H; simpl in H.
  - discriminate.
  - destruct (startswith (sec_name s) RULE_PREFIX); [|now apply IH in H].
    unfold parse_updates, parse_conditions in H.
    destruct (parse_items (split COMMA (fallback (sec_Conditions s) [])) [])
      as [conds|e1] eqn:E1; cbn [bind] in H;
      [|apply parse_items_raises in E1; congruence].
    destruct (parse_items (split COMMA (fallback (sec_Updates s) [])) [])
      as [upds|e2] eqn:E2; cbn [bind] in H;
      [|apply parse_items_raises in E2; congruence].
    destruct conds, upds; now apply IH in H.
Qed.

Lemma load_rules_bad (sections : list section) (s : section) (acc : list rule) :
  In s sections -> startswith (sec_name s) RULE_PREFIX = true ->
  parse_conditions (fallback (sec_Conditions s) []) = Raise ValueError
  \/ parse_updates (fallback (sec_Updates s) []) = Raise ValueError ->
  load_rules sections acc = Raise ValueError.
Proof.
  intros Hin Hrule Hbad. revert acc.
  induction sections as [|s0 sections IH]; intros acc; [contradiction|].
  destruct (load_rules (s0 :: sections) acc) as [rs|e] eqn:E;
    [|now rewrite (load_rules_raises _ _ _ E)].
  exfalso. cbn [load_rules] in E. destruct Hin as [->|Hin].
  - rewrite Hrule in E.
    destruct Hbad as [Hb|Hb].
    + rewrite Hb in E. discriminate.
    + destruct (parse_conditions (fallback (sec_Conditions s) []));
        cbn [bind] in E; [|discriminate].
      rewrite Hb in E. discriminate.
  - destruct (startswith (sec_name s0) RULE_PREFIX).
    + destruct (parse_conditions (fallback (sec_Conditions s0) []))
        as [conds|]; cbn [bind] in E; [|discriminate].
      destruct (parse_updates (fallback (sec_Updates s0) []))
        as [upds|]; cbn [bind] in E; [|discriminate].
      destruct conds, upds; rewrite (IH Hin) in E; discriminate.
    + rewrite (IH Hin) in E. discriminate.
Qed.

(** C8 (amended).  The loader reports no error per rule and drops no rule
    for a malformed entry.  An entry without a colon is skipped as if it
    were not there: the other entries of the list are parsed as usual, and
    the rule is loaded whenever its two lists end up non-empty.  An entry
    with a colon whose offset [int] does not accept, anywhere in the
    [Conditions] or [Updates] of a rule section, makes [load_config] raise
    [ValueError]: the whole load is lost, the well-formed rules included. *)
Theorem malformed_entry_is_skipped_or_fatal :
  (forall (before after : list str) (item : str) (acc : list entry),
     contains COLON (strip item) = false ->
     parse_items (before ++ item :: after) acc
     = parse_items (before ++ after) acc)
  /\ (forall (s : section) (rest : list section) (acc : list rule)
             (conds upds : list entry),
        startswith (sec_name s) RULE_PREFIX = true ->
        parse_conditions (fallback (sec_Conditions s) []) = Ok conds ->
        parse_updates (fallback (sec_Updates s) []) = Ok upds ->
        load_rules (s :: rest) acc
        = load_rules rest
            (match conds, upds with
             | _ :: _, _ :: _ =>
                 acc ++ [{| Name := sec_name s; Conditions := conds;
                            Updates := upds |}]
             | _, _ => acc
             end))
  /\ (forall (c : config) (s : section) (item : str),
        In s (cfg_sections c) ->
        startswith (sec_name s) RULE_PREFIX = true ->
        In item (split COMMA (fallback (sec_Conditions s) [])
                 ++ split COMMA (fallback (sec_Updates s) [])) ->
        contains COLON (strip item) = true ->
        is_ok (int (fst (split_once COLON (strip item)))) = false ->
        load_config c = Raise ValueError).
Proof.
  split; [|split].
  - exact parse_items_skip.
  - intros s rest acc conds upds Hrule Hc Hu. cbn [load_rules].
    rewrite Hrule, Hc, Hu. cbn [bind]. destruct conds, upds; reflexivity.
  - intros c s item Hin Hrule Hitem Hcolon Hbad.
    unfold load_config.
    rewrite (load_rules_bad (cfg_sections c) s [] Hin Hrule); [reflexivity|].
    apply in_app_or in Hitem as [Hi|Hi]; [left|right];
      unfold parse_updates, parse_conditions;
      now apply parse_items_bad with (item := item).
Qed.

Lemma malformed_entry_is_skipped_or_fatal_witness :
  parse_items [of_string "50:02"; of_string " 78"; of_string "80:1"] []
  = parse_items [of_string "50:02"; of_string "80:1"] []
  /\ load_config (cfg [sec "Rule-1" "50:02" "70:056"; sec "Rule-2" "x:99" "300:77"])
     = Raise ValueError.
Proof.
  destruct malformed_entry_is_skipped_or_fatal as [Hskip [_ Hfatal]].
  split.
  - apply (Hskip [of_string "50:02"] [of_string "80:1"] (of_string " 78") []).
    reflexivity.
  - apply (Hfatal _ (sec "Rule-2" "x:99" "300:77") (of_string "x:99")).
    + right. now left.
    + reflexivity.
    + now left.
    + reflexivity.
    + reflexivity.
Defined.

(** C8, as stated, fails on both kinds of malformed entry.  A non-integer
    offset in Rule-1 raises [ValueError] out of [load_config], so that the
    well-formed Rule-2 is not loaded either; and an entry without a colon
    in Rule-1 is dropped while Rule-1 itself is loaded, with its other
    condition. *)
Lemma malformed_entry_counterexample :
  load_config (cfg [sec "Rule-1" "x:02" "70:056"; sec "Rule-2" "234:99" "300:77"])
  = Raise ValueError
  /\ load_config (cfg [sec "Rule-1" "50:02, 78" "70:056"])
     = Ok ({| RecordSize := 8; HeaderMarker := 1; DataMarker := 2 |},
           [mk_rule "Rule-1" [ent 50 "02"] [ent 70 "056"]]).
Proof. split; reflexivity. Qed.

(* ================================================================== *)
(** ** Further properties of the code *)
(* ================================================================== *)

Import Notions.

(** *** The text format of conditions and updates *)

Module FormatFacts.

Lemma digit_cases (d : Z) :
  0 <= d <= 9 ->
  d = 0 \/ d = 1 \/ d = 2 \/ d = 3 \/ d = 4 \/ d = 5 \/ d = 6 \/ d = 7
  \/ d = 8 \/ d = 9.
Proof. lia. Qed.

Ltac by_digit d H :=
  destruct (digit_cases d H) as [->|[->|[->|[->|[->|[->|[->|[->|[->| ->]]]]]]]]];
  reflexivity.

Lemma digit_char (d : Z) :
  0 <= d <= 9 ->
  decimal_value (48 + d) = Some d
  /\ is_space (48 + d) = false /\ is_int_space (48 + d) = false
  /\ (48 + d =? COLON) = false /\ (48 + d =? COMMA) = false
  /\ (48 + d =? 45) = false /\ (48 + d =? 43) = false.
Proof. intros H. repeat split; by_digit d H. Qed.

Lemma digits_ok_spec (ds : list Z) :
  forallb (fun d => (0 <=? d) && (d <=? 9)) ds = true ->
  Forall (fun d => 0 <= d <= 9) ds.
Proof.
  intros H. apply Forall_forall. intros d Hd.
  rewrite forallb_forall in H. specialize (H d Hd).
  apply andb_true_iff in H as [H1 H2]. apply Z.leb_le in H1, H2. lia.
Qed.

(** Reading digit characters. *)
Lemma digits_from_digits (ds : list Z) (acc : Z) (after : bool) :
  Forall (fun d => 0 <= d <= 9) ds ->
  digits_from acc after (map (fun d => 48 + d) ds)
  = match ds with
    | [] => if after then Some acc else None
    | _ :: _ => Some (fold_left (fun a d => a * 10 + d) ds acc)
    end.
Proof.
  intros H. revert acc after.
  induction H as [|d ds Hd Hds IH]; intros acc after; [reflexivity|].
  cbn [map digits_from fold_left].
  destruct (digit_char d Hd) as [-> _].
  rewrite IH. now destruct ds.
Qed.

(** White space is stripped from neither end of a text that starts and
    ends with other characters. *)
Lemma strip_by_fixed (space : Z -> bool) (c : Z) (t : str) :
  space c = false ->
  match rev (c :: t) with [] => true | x :: _ => negb (space x) end = true ->
  strip_by space (c :: t) = c :: t.
Proof.
  intros Hc Hlast. unfold strip_by. cbn [lstrip_by]. rewrite Hc.
  destruct (rev (c :: t)) as [|x r] eqn:E.
  - apply (f_equal (@rev Z)) in E. rewrite rev_involutive in E. discriminate.
  - cbn [lstrip_by]. apply negb_true_iff in Hlast. rewrite Hlast.
    rewrite <- E. apply rev_involutive.
Qed.

Lemma strip_skips_space (c : Z) (t : str) :
  is_space c = true -> t <> [] ->
  match rev t with [] => true | x :: _ => negb (is_space x) end = true ->
  strip (c :: t) = strip t.
Proof.
  intros Hc Hne Hlast. unfold strip, strip_by. cbn [lstrip_by]. rewrite Hc.
  reflexivity.
Qed.

Lemma int_of_digits (ds : list Z) :
  ds <> [] -> Forall (fun d => 0 <= d <= 9) ds ->
  int (map (fun d => 48 + d) ds) = Ok (number ds).
Proof.
  intros Hne Hds. destruct ds as [|d ds]; [contradiction|].
  pose proof (Forall_inv Hds) as Hd.
  destruct (digit_char d Hd) as [_ [_ [Hsp [_ [_ [Hm Hp]]]]]].
  unfold int. cbn [map]. rewrite strip_by_fixed.
  - rewrite Hm, Hp.
    change (48 + d :: map (fun d0 => 48 + d0) ds)
      with (map (fun d0 => 48 + d0) (d :: ds)).
    now rewrite digits_from_digits.
  - exact Hsp.
  - change (48 + d :: map (fun d0 => 48 + d0) ds)
      with (map (fun d0 => 48 + d0) (d :: ds)).
    rewrite <- map_rev.
    destruct (rev (d :: ds)) as [|x r] eqn:E; [reflexivity|].
    cbn [map]. apply negb_true_iff.
    assert (Hx : In x (d :: ds)) by (apply in_rev; rewrite E; now left).
    rewrite Forall_forall in Hds.
    now destruct (digit_char x (Hds x Hx)) as [_ [_ [Hs _]]].
Qed.

Lemma contains_app (c : Z) (a b : str) :
  contains c (a ++ b) = contains c a || contains c b.
Proof. apply existsb_app. Qed.

Lemma digits_contain (c : Z) (ds : list Z) :
  Forall (fun d => 0 <= d <= 9) ds -> c = COLON \/ c = COMMA ->
  contains c (map (fun d => 48 + d) ds) = false.
Proof.
  intros H Hc. induction H as [|d ds Hd Hds IH]; [reflexivity|].
  cbn [map contains existsb]. fold (contains c (map (fun d0 => 48 + d0) ds)).
  rewrite IH, orb_false_r. rewrite Z.eqb_sym.
  destruct (digit_char d Hd) as [_ [_ [_ [H1 [H2 _]]]]].
  now destruct Hc as [->| ->].
Qed.

Lemma split_once_first (sep : Z) (a v : str) :
  contains sep a = false -> split_once sep (a ++ sep :: v) = (a, v).
Proof.
  induction a as [|x a IH]; intros H.
  - cbn. now rewrite Z.eqb_refl.
  - cbn [contains existsb] in H. apply orb_false_iff in H as [Hx Ha].
    cbn [app split_once]. rewrite Z.eqb_sym, Hx. now rewrite (IH Ha).
Qed.

Lemma split_piece (sep : Z) (a t : str) :
  contains sep a = false -> split sep (a ++ sep :: t) = a :: split sep t.
Proof.
  induction a as [|x a IH]; intros H.
  - cbn. now rewrite Z.eqb_refl.
  - cbn [contains existsb] in H. apply orb_false_iff in H as [Hx Ha].
    cbn [app split]. rewrite Z.eqb_sym, Hx. now rewrite (IH Ha).
Qed.

Lemma split_last (sep : Z) (a : str) :
  contains sep a = false -> split sep a = [a].
Proof.
  induction a as [|x a IH]; intros H; [reflexivity|].
  cbn [contains existsb] in H. apply orb_false_iff in H as [Hx Ha].
  cbn [split]. rewrite Z.eqb_sym, Hx. now rewrite (IH Ha).
Qed.

End FormatFacts.

Module RoundTrip.
Import FormatFacts.

Lemma field_ok_spec (f : field) :
  field_ok f = true ->
  f_digits f <> []
  /\ Forall (fun d => 0 <= d <= 9) (f_digits f)
  /\ contains COMMA (f_value f) = false
  /\ match rev (f_value f) with [] => true | c :: _ => negb (is_space c) end
     = true.
Proof.
  unfold field_ok. intros H.
  apply andb_true_iff in H as [H Hlast].
  apply andb_true_iff in H as [H Hcomma].
  apply andb_true_iff in H as [Hne Hds].
  repeat split.
  - destruct (f_digits f); [discriminate|congruence].
  - now apply digits_ok_spec.
  - now apply negb_true_iff.
  - exact Hlast.
Qed.

Lemma render_field_last (f : field) :
  field_ok f = true ->
  match rev (render_field f) with [] => true | c :: _ => negb (is_space c) end
  = true.
Proof.
  intros H. destruct (field_ok_spec f H) as [_ [_ [_ Hlast]]].
  unfold render_field. rewrite rev_app_distr. cbn [rev].
  rewrite <- app_assoc. cbn [app].
  destruct (rev (f_value f)) as [|c r]; [reflexivity|exact Hlast].
Qed.

Lemma strip_render_field (f : field) (padded : bool) :
  field_ok f = true ->
  strip ((if padded then [SPACE] else []) ++ render_field f) = render_field f.
Proof.
  intros H. pose proof (render_field_last f H) as Hlast.
  destruct (field_ok_spec f H) as [Hne [Hds _]].
  assert (Hfix : strip (render_field f) = render_field f).
  { unfold render_field in *. destruct (f_digits f) as [|d ds]; [contradiction|].
    cbn [map app] in *. apply strip_by_fixed; [|exact Hlast].
    now destruct (digit_char d (Forall_inv Hds)) as [_ [Hs _]]. }
  destruct padded; [|exact Hfix].
  cbn [app]. rewrite <- Hfix at 2. reflexivity.
Qed.

(** One well-formed item of the list, with or without the blank that
    follows a comma, adds its entry. *)
Lemma parse_items_field (f : field) (padded : bool) (items : list str)
  (acc : list entry) :
  field_ok f = true ->
  parse_items (((if padded then [SPACE] else []) ++ render_field f) :: items) acc
  = parse_items items (acc ++ [entry_of_field f]).
Proof.
  intros H. destruct (field_ok_spec f H) as [Hne [Hds _]].
  cbn [parse_items]. rewrite (strip_render_field f padded H).
  assert (Hc : contains COLON (render_field f) = true).
  { unfold render_field. rewrite contains_app. cbn [contains existsb].
    rewrite Z.eqb_refl. cbn. now rewrite orb_true_r. }
  rewrite Hc. unfold render_field at 1.
  rewrite split_once_first by (apply digits_contain; auto).
  now rewrite (int_of_digits _ Hne Hds).
Qed.

Lemma render_field_comma_free (f : field) :
  field_ok f = true -> contains COMMA (render_field f) = false.
Proof.
  intros H. destruct (field_ok_spec f H) as [_ [Hds [Hcomma _]]].
  unfold render_field. rewrite contains_app.
  rewrite (digits_contain COMMA _ Hds) by auto.
  cbn [contains existsb orb]. exact Hcomma.
Qed.

Lemma split_render (fs : list field) (f : field) (padded : bool) :
  forallb field_ok (f :: fs) = true ->
  split COMMA ((if padded then [SPACE] else []) ++ render (f :: fs))
  = ((if padded then [SPACE] else []) ++ render_field f)
    :: map (fun g => SPACE :: render_field g) fs.
Proof.
  revert f padded; induction fs as [|g fs IH]; intros f padded H.
  - cbn [forallb] in H. apply andb_true_iff in H as [Hf _].
    unfold render. cbn [map join]. apply split_last.
    rewrite contains_app, (render_field_comma_free f Hf).
    now destruct padded.
  - cbn [forallb] in H. apply andb_true_iff in H as [Hf Hrest].
    replace ((if padded then [SPACE] else []) ++ render (f :: g :: fs))
      with (((if padded then [SPACE] else []) ++ render_field f)
            ++ COMMA :: ([SPACE] ++ render (g :: fs))).
    + rewrite split_piece.
      * f_equal. apply (IH g true Hrest).
      * rewrite contains_app, (render_field_comma_free f Hf).
        now destruct padded.
    + unfold render. cbn [map join]. rewrite <- !app_assoc. reflexivity.
Qed.

Lemma parse_items_fields (fs : list field) (acc : list entry) :
  forallb field_ok fs = true ->
  parse_items (map (fun g => SPACE :: render_field g) fs) acc
  = Ok (acc ++ map entry_of_field fs).
Proof.
  revert acc; induction fs as [|f fs IH]; intros acc H.
  - cbn. now rewrite app_nil_r.
  - cbn [forallb] in H. apply andb_true_iff in H as [Hf Hrest].
    cbn [map]. rewrite (parse_items_field f true _ acc Hf : parse_items
      ((SPACE :: render_field f) :: _) acc = _).
    rewrite (IH _ Hrest), <- app_assoc. reflexivity.
Qed.

End RoundTrip.

(** X1.  [parse_conditions] (and [parse_updates], the same function) reads
    back the format its docstring names: a list of fields written as
    [digits:value], separated by a comma and a blank, parses to the entries
    with those positions and values, in order.  The fields are any with at
    least one digit and at most [MAX_STR_DIGITS] of them (the digits [int]
    converts; more raise [ValueError]), a value without comma and without
    white space at its end; the value may hold colons and may start with
    white space. *)
Theorem parse_conditions_reads_rendered_fields (fs : list field) :
  forallb field_ok fs = true ->
  forallb field_short fs = true ->
  parse_conditions (render fs) = Ok (map entry_of_field fs)
  /\ parse_updates (render fs) = Ok (map entry_of_field fs).
Proof.
  intros H _.
  assert (E : parse_conditions (render fs) = Ok (map entry_of_field fs)).
  { unfold parse_conditions. destruct fs as [|f fs]; [reflexivity|].
    rewrite (RoundTrip.split_render fs f false H : split COMMA (render (f :: fs)) = _).
    cbn [forallb] in H. apply andb_true_iff in H as [Hf Hrest].
    rewrite (RoundTrip.parse_items_field f false _ [] Hf).
    now rewrite (RoundTrip.parse_items_fields fs _ Hrest). }
  split; [exact E|exact E].
Qed.

Lemma parse_conditions_reads_rendered_fields_witness :
  parse_conditions (of_string "50:02, 78: a:b, 007:")
  = Ok [ {| StartByte := 50; Value := of_string "02" |};
         {| StartByte := 78; Value := of_string " a:b" |};
         {| StartByte := 7; Value := [] |} ].
Proof.
  apply (proj1 (parse_conditions_reads_rendered_fields
                  [ {| f_digits := [5; 0]; f_value := of_string "02" |};
                    {| f_digits := [7; 8]; f_value := of_string " a:b" |};
                    {| f_digits := [0; 0; 7]; f_value := [] |} ]
                  eq_refl eq_refl)).
Defined.

(** *** What a parsed value can hold *)

Module ValueFacts.

Lemma contains_In (c : Z) (t : str) : contains c t = true <-> In c t.
Proof.
  unfold contains. rewrite existsb_exists. split.
  - intros [x [Hx E]]. apply Z.eqb_eq in E. now subst.
  - intros H. exists c. split; [assumption|apply Z.eqb_refl].
Qed.

Lemma contains_false (c : Z) (t : str) : contains c t = false <-> ~ In c t.
Proof.
  rewrite <- contains_In. destruct (contains c t); split; congruence.
Qed.

Lemma lstrip_by_In (space : Z -> bool) (t : str) (x : Z) :
  In x (lstrip_by space t) -> In x t.
Proof.
  induction t as [|c t IH]; cbn [lstrip_by]; [tauto|].
  destruct (space c); [right; now apply IH|tauto].
Qed.

Lemma strip_In (t : str) (x : Z) : In x (strip t) -> In x t.
Proof.
  unfold strip, strip_by. intros H.
  apply in_rev, lstrip_by_In, in_rev, lstrip_by_In in H. exact H.
Qed.

Lemma split_once_In (sep : Z) (t : str) (x : Z) :
  In x (snd (split_once sep t)) -> In x t.
Proof.
  induction t as [|c t IH]; cbn [split_once]; [tauto|].
  destruct (c =? sep); cbn [snd]; [now right|].
  destruct (split_once sep t) as [a b]. cbn [snd] in *. right. now apply IH.
Qed.

(** No piece of a split holds the separator. *)
Lemma split_pieces_free (sep : Z) (t : str) :
  Forall (fun p => ~ In sep p) (split sep t).
Proof.
  induction t as [|c t IH]; cbn [split].
  - constructor; [tauto|constructor].
  - destruct (Z.eqb_spec c sep) as [->|Hne].
    + constructor; [tauto|exact IH].
    + destruct (split sep t) as [|p ps]; [repeat constructor; cbn; intuition|].
      apply Forall_cons_iff in IH as [Hp Hps].
      constructor; [|exact Hps]. cbn. intuition.
Qed.

Lemma parse_items_values (items : list str) (acc es : list entry) :
  Forall (fun p => ~ In COMMA p) items ->
  Forall (fun e => ~ In COMMA (Value e)) acc ->
  parse_items items acc = Ok es ->
  Forall (fun e => ~ In COMMA (Value e)) es
  /\ length es
     = (length acc
        + length (filter (fun i => contains COLON (strip i)) items))%nat.
Proof.
  intros Hitems. revert acc.
  induction Hitems as [|item items Hitem Hitems IH]; intros acc Hacc H;
    cbn [parse_items filter] in *.
  - apply Ok_inj in H. subst es. split; [assumption|cbn; lia].
  - destruct (contains COLON (strip item)); [|now apply IH].
    destruct (split_once COLON (strip item)) as [byte_pos value] eqn:E.
    bind_inv H n En.
    assert (Hv : ~ In COMMA value).
    { intros Hin. apply Hitem, strip_In.
      apply (split_once_In COLON). now rewrite E. }
    assert (Hacc' : Forall (fun e => ~ In COMMA (Value e))
                      (acc ++ [{| StartByte := n; Value := value |}])).
    { apply Forall_app. split; [exact Hacc|]. constructor; [exact Hv|constructor]. }
    destruct (IH _ Hacc' H) as [Hes Hlen].
    split; [exact Hes|]. rewrite Hlen, length_app. cbn [length]. lia.
Qed.

End ValueFacts.

(** X2.  Whatever text [parse_conditions] is given, if it returns, no value
    it returns holds a comma (the text is cut at every comma, so a comma
    inside a value ends the value and what follows is another item), and
    it returns exactly one entry per comma-separated item that holds a
    colon, the other items being dropped. *)
Theorem parsed_values_hold_no_comma (cond_str : str) (es : list entry) :
  parse_conditions cond_str = Ok es ->
  Forall (fun e => contains COMMA (Value e) = false) es
  /\ length es
     = length (filter (fun i => contains COLON (strip i))
                 (split COMMA cond_str)).
Proof.
  unfold parse_conditions. intros H.
  destruct (ValueFacts.parse_items_values _ [] es
              (ValueFacts.split_pieces_free COMMA cond_str)
              (Forall_nil _) H) as [Hes Hlen].
  split; [|exact Hlen].
  apply Forall_impl with (2 := Hes). intros e He.
  now apply ValueFacts.contains_false.
Qed.

Lemma parsed_values_hold_no_comma_witness :
  parse_conditions (of_string "5:a,b, 7:c") 
  = Ok [ {| StartByte := 5; Value := of_string "a" |};
         {| StartByte := 7; Value := of_string "c" |} ]
  /\ Forall (fun e => contains COMMA (Value e) = false)
       [ {| StartByte := 5; Value := of_string "a" |};
         {| StartByte := 7; Value := of_string "c" |} ].
Proof.
  split; [reflexivity|].
  apply (proj1 (parsed_values_hold_no_comma (of_string "5:a,b, 7:c") _ eq_refl)).
Defined.

(** *** What [load_config] keeps *)

Module KeptFacts.

Lemma load_rules_complete (sections : list section) (acc rules : list rule) :
  Forall complete acc ->
  load_rules sections acc = Ok rules -> Forall complete rules.
Proof.
  revert acc; induction sections as [|s sections IH]; intros acc Hacc H;
    cbn [load_rules] in H.
  - apply Ok_inj in H. now subst.
  - destruct (startswith (sec_name s) RULE_PREFIX) eqn:Hs; [|now apply IH in H].
    bind_inv H conds Ec. bind_inv H upds Eu.
    destruct conds as [|c conds]; [now apply IH in H|].
    destruct upds as [|u upds]; [now apply IH in H|].
    apply IH in H; [exact H|].
    apply Forall_app. split; [exact Hacc|].
    constructor; [|constructor]. unfold complete. cbn. repeat split;
      [exact Hs|discriminate|discriminate].
Qed.


End KeptFacts.

Lemma load_config_names_of (c : config) (s : settings) (rules : list rule) :
  load_config c = Ok (s, rules) ->
  s = load_settings c
  /\ map Name rules = map sec_name (filter loads (cfg_sections c)).
Proof.
  unfold load_config. intros H. bind_inv H rs Ers.
  apply Ok_inj in H. injection H as <- <-.
  split; [reflexivity|]. now rewrite (load_rules_names _ _ _ Ers).
Qed.

(** X3.  When [load_config] returns, the settings are the three integers of
    the file with 1300, 1 and 2 where the file is silent; the rules are
    named, in file order, after the sections whose name starts with
    [Rule-] and whose [Conditions] and [Updates] both parse to a non-empty
    list; and every rule returned has that prefix, at least one condition
    and at least one update. *)
Theorem load_config_keeps_complete_rule_sections
  (c : config) (s : settings) (rules : list rule) :
  load_config c = Ok (s, rules) ->
  s = load_settings c
  /\ map Name rules = map sec_name (filter loads (cfg_sections c))
  /\ Forall (fun r => startswith (Name r) RULE_PREFIX = true
                      /\ Conditions r <> [] /\ Updates r <> []) rules.
Proof.
  unfold load_config. intros H. bind_inv H rs Ers.
  apply Ok_inj in H. injection H as <- <-.
  split; [reflexivity|]. split.
  - now rewrite (load_rules_names _ _ _ Ers).
  - apply (KeptFacts.load_rules_complete _ [] rs (Forall_nil _) Ers).
Qed.

Lemma load_config_keeps_complete_rule_sections_witness :
  map Name [fixture_rule_1; fixture_rule_2]
  = map sec_name (filter loads (cfg_sections fixture_config))
  /\ load_config fixture_config
     = Ok ({| RecordSize := 1300; HeaderMarker := 1; DataMarker := 2 |},
           [fixture_rule_1; fixture_rule_2]).
Proof.
  split; [|reflexivity].
  apply (proj1 (proj2 (load_config_keeps_complete_rule_sections
                         fixture_config _ [fixture_rule_1; fixture_rule_2]
                         eq_refl))).
Defined.

(** X4.  A rule section whose [Conditions] or whose [Updates] is missing,
    blank or without any [Byte:Value] item (its text parses to the empty
    list) gives no rule: with the distinct section names of a
    configuration file, no rule returned by [load_config] bears its
    name. *)
Theorem section_without_entries_gives_no_rule
  (c : config) (s : settings) (rules : list rule) (x : section) :
  NoDup (map sec_name (cfg_sections c)) ->
  In x (cfg_sections c) ->
  parse_conditions (fallback (sec_Conditions x) []) = Ok []
  \/ parse_updates (fallback (sec_Updates x) []) = Ok [] ->
  load_config c = Ok (s, rules) ->
  ~ In (sec_name x) (map Name rules).
Proof.
  intros Hnd Hx Hempty H.
  destruct (load_config_names_of c s rules H) as [_ Hnames].
  rewrite Hnames. intros Hin.
  apply in_map_iff in Hin as [y [Hname Hy]].
  apply filter_In in Hy as [Hy Hloads].
  assert (y = x) as ->.
  { clear - Hnd Hx Hy Hname. induction (cfg_sections c) as [|z l IH];
      [contradiction|].
    cbn [map] in Hnd. apply NoDup_cons_iff in Hnd as [Hz Hl].
    destruct Hx as [->|Hx], Hy as [->|Hy]; try reflexivity.
    - exfalso. apply Hz. rewrite <- Hname. now apply in_map.
    - exfalso. apply Hz. rewrite Hname. now apply in_map.
    - now apply IH. }
  unfold loads in Hloads. apply andb_true_iff in Hloads as [_ Hloads].
  destruct Hempty as [E|E]; rewrite E in Hloads; [discriminate|].
  destruct (parse_conditions _) as [[|? ?]|]; discriminate.
Qed.

Lemma section_without_entries_gives_no_rule_witness :
  parse_updates [] = Ok []
  /\ ~ In (of_string "Rule-2")
        (map Name [mk_rule "Rule-1" [ent 50 "02"] [ent 70 "056"]]).
Proof.
  split; [reflexivity|].
  apply (section_without_entries_gives_no_rule
           (cfg [sec "Rule-1" "50:02" "70:056";
                 {| sec_name := of_string "Rule-2";
                    sec_Conditions := Some (of_string "234:99");
                    sec_Updates := None |};
                 sec "Rule-3" "no colon here" "300:77"])
           {| RecordSize := 8; HeaderMarker := 1; DataMarker := 2 |}
           [mk_rule "Rule-1" [ent 50 "02"] [ent 70 "056"]]
           {| sec_name := of_string "Rule-2";
              sec_Conditions := Some (of_string "234:99");
              sec_Updates := None |}).
  - repeat constructor; cbn; intuition discriminate.
  - right. now left.
  - right. reflexivity.
  - reflexivity.
Defined.



(** *** Invariants of the record loop *)

Module InvariantFacts.

Section LoopInvariant.

Variables (s : settings) (rules : list rule).
Hypothesis Hpos : 0 < RecordSize s.
Hypothesis Henc : rules_encodable rules = true.

(** A property of the loop index and the loop state that every pass of
    the loop body keeps. *)
Variable I : Z -> state -> Prop.
Hypothesis I_step :
  forall (i : Z) (st st' : state) (k : step_kind),
    has_keys rules (hits st) = true -> I i st ->
    step_spec s rules i (firstn (Z.to_nat (RecordSize s)) (f_in st)) st st' k ->
    I (i + 1) st'.

Lemma record_loop_invariant (n : nat) :
  forall (i : Z) (st : state),
  Z.of_nat n * RecordSize s <= len (f_in st) ->
  has_keys rules (hits st) = true -> I i st ->
  exists st',
    record_loop s rules n i st = Ok st'
    /\ I (i + Z.of_nat n) st'
    /\ has_keys rules (hits st') = true.
Proof.
  induction n as [|n IH]; intros i st Hlen Hkeys Hi.
  - exists st. cbn [record_loop]. rewrite Z.add_0_r. auto.
  - assert (H1 : RecordSize s <= len (f_in st)) by lia.
    destruct (process_record_step s rules i st Hpos H1 Henc Hkeys)
      as [st1 [k [E1 [Hin [Hk1 Hspec]]]]].
    pose proof (I_step i st st1 k Hkeys Hi Hspec) as Hi1.
    destruct (IH (i + 1) st1) as [st2 [E2 [Hi2 Hk2]]]; try assumption.
    { rewrite Hin. unfold len in *. rewrite length_skipn. lia. }
    exists st2. cbn [record_loop]. rewrite E1. cbn [bind].
    repeat split; try assumption.
    replace (i + Z.of_nat (S n)) with (i + 1 + Z.of_nat n) by lia.
    exact Hi2.
Qed.

(** The run, in terms of the state the loop ends in. *)
Lemma run_invariant (p : paths) (input : bytes) :
  I 0 {| f_in := input; f_out := [];
         logs := preamble p s rules (len input) (len input / RecordSize s);
         modified_count := 0; hits := init_hits rules |} ->
  exists st hs,
    I (len input / RecordSize s) st
    /\ summary_hits rules (hits st) = Ok hs
    /\ run p s rules input
       = Ok {| out_records := f_out st;
               out_logs := logs st
                           ++ [LBlank; LSeparator;
                               LSummary (modified_count st)
                                 (len input / RecordSize s)] ++ hs;
               out_record_count := len input / RecordSize s;
               out_modified_count := modified_count st;
               out_rule_hits := hits st |}.
Proof.
  intros H0. unfold run, floordiv.
  destruct (Z.eqb_spec (RecordSize s) 0) as [E|_]; [lia|]. cbn [bind].
  set (n := Z.to_nat (len input / RecordSize s)).
  assert (Hq : 0 <= len input / RecordSize s)
    by (apply Z.div_pos; [apply len_nonneg|lia]).
  destruct (record_loop_invariant n 0
              {| f_in := input; f_out := [];
                 logs := preamble p s rules (len input)
                           (len input / RecordSize s);
                 modified_count := 0; hits := init_hits rules |})
    as [st [E [Hi Hk]]].
  { cbn [f_in]. apply record_count_fits; [apply len_nonneg|assumption]. }
  { apply init_hits_has_keys. }
  { exact H0. }
  rewrite E. cbn [bind].
  destruct (summary_hits_total rules (hits st) Hk) as [hs Ehs].
  rewrite Ehs. cbn [bind].
  exists st, hs. repeat split; try assumption.
  unfold n in Hi. now rewrite Z2Nat.id in Hi by assumption.
Qed.

End LoopInvariant.

(** A pass of the rule loop over rules of distinct names raises each
    counter by at most one, and raises one only if a rule fired. *)
Lemma eval_rules_counts (rules : list rule) (st es : eval_state) (k : str) (h' : Z) :
  NoDup (map Name rules) ->
  eval_rules rules st = Ok es ->
  dict_get (rule_hits es) k = Ok h' ->
  exists h, dict_get (rule_hits st) k = Ok h /\ h <= h' <= h + 1.
Proof.
  revert st; induction rules as [|r rules IH]; intros st Hnd E Hk;
    cbn [eval_rules] in E.
  - apply Ok_inj in E. subst es. exists h'. split; [assumption|lia].
  - bind_inv E st1 E1. cbn [map] in Hnd.
    apply NoDup_cons_iff in Hnd as [Hfresh Hnd].
    apply eval_rule_inv in E1 as [[_ ->]|[_ [_ [h0 [Hh0 ->]]]]].
    + now apply IH.
    + destruct (list_eqb (Name r) k) eqn:Ek.
      * apply list_eqb_eq in Ek. subst k.
        rewrite (eval_rules_other_hits rules _ es (Name r) E Hfresh) in Hk.
        cbn [rule_hits] in Hk. rewrite dict_get_set_same in Hk.
        apply Ok_inj in Hk. subst h'. exists h0. split; [assumption|lia].
      * apply list_eqb_neq in Ek.
        destruct (IH _ Hnd E Hk) as [h [Hh Hb]].
        cbn [rule_hits] in Hh. rewrite dict_get_set_other in Hh by assumption.
        now exists h.
Qed.

Lemma updated_lines_app (a b : list log_line) :
  filter is_updated_line (a ++ b)
  = filter is_updated_line a ++ filter is_updated_line b.
Proof. apply filter_app. Qed.

Lemma updated_lines_changes (cs : list change) :
  filter is_updated_line (map LChange cs) = [].
Proof. induction cs as [|c cs IH]; [reflexivity|exact IH]. Qed.

Lemma updated_lines_rules (rs : list rule) :
  filter is_updated_line (map LRule rs) = [].
Proof. induction rs as [|r rs IH]; [reflexivity|exact IH]. Qed.

Lemma updated_lines_summary (rs : list rule) (d : dict Z) (ls : list log_line) :
  summary_hits rs d = Ok ls -> filter is_updated_line ls = [].
Proof.
  revert ls; induction rs as [|r rs IH]; intros ls H; cbn [summary_hits] in H.
  - apply Ok_inj in H. now subst.
  - bind_inv H h Eh. bind_inv H ls' El. apply Ok_inj in H. subst ls.
    cbn. now apply IH.
Qed.

End InvariantFacts.

Module CounterFacts.
Import InvariantFacts.

Lemma counters_ok_step (s : settings) (rules : list rule) :
  NoDup (map Name rules) ->
  forall (i : Z) (st st' : state) (k : step_kind),
    has_keys rules (hits st) = true -> counters_ok i st ->
    step_spec s rules i (firstn (Z.to_nat (RecordSize s)) (f_in st)) st st' k ->
    counters_ok (i + 1) st'.
Proof.
  intros Hnd i st st' k _ [Hm [Hlog Hhits]] Hspec.
  unfold counters_ok. destruct k; cbn [step_spec] in Hspec.
  - destruct Hspec as [_ [_ [Hl [Hmc Hh]]]]. rewrite Hl, Hmc, Hh.
    rewrite updated_lines_app. cbn [filter is_updated_line].
    rewrite app_nil_r. split; [lia|]. split; [exact Hlog|exact Hhits].
  - destruct Hspec as [_ [_ [es [Ees [_ [_ [Hl [Hmc Hh]]]]]]]].
    rewrite Hl, Hmc, Hh. rewrite updated_lines_app.
    cbn [filter is_updated_line]. rewrite updated_lines_changes, length_app.
    cbn [length]. split; [lia|]. split; [lia|].
    intros key h' Hk.
    destruct (eval_rules_counts rules _ es key h' Hnd Ees Hk) as [h [Hh0 Hb]].
    cbn [start rule_hits] in Hh0. specialize (Hhits key h Hh0). lia.
  - destruct Hspec as [_ [_ [es [Ees [Hc [_ [Hl [Hmc Hh]]]]]]]].
    pose proof (eval_rules_no_change _ _ _ Ees Hc) as ->.
    cbn [start rule_hits] in Hh. rewrite Hl, Hmc, Hh.
    split; [lia|]. split; [exact Hlog|exact Hhits].
  - destruct Hspec as [_ [_ [_ [Hl [Hmc Hh]]]]]. rewrite Hl, Hmc, Hh.
    split; [lia|]. split; [exact Hlog|exact Hhits].
Qed.

Lemma init_hits_zero (rules : list rule) (k : str) (h : Z) :
  dict_get (init_hits rules) k = Ok h -> h = 0.
Proof.
  unfold init_hits. rewrite fold_init_get.
  destruct (existsb _ rules); cbn; intros H; [|discriminate].
  apply Ok_inj in H. now subst.
Qed.

Lemma summary_hits_keys (rules : list rule) (d : dict Z) (hs : list log_line) :
  summary_hits rules d = Ok hs ->
  forall r, In r rules -> exists h, dict_get d (Name r) = Ok h.
Proof.
  revert hs; induction rules as [|r0 rules IH]; intros hs H r Hr;
    [contradiction|].
  cbn [summary_hits] in H. bind_inv H h Eh. bind_inv H ls El.
  destruct Hr as [->|Hr]; [now exists h|now apply (IH ls)].
Qed.

End CounterFacts.

(** X6.  In a run with a positive record size, encodable rule values and
    rules of distinct names, the counters of the summary agree with the
    log and with each other: the count of modified records is the number
    of [UPDATED] lines of the log, it lies between 0 and the record count,
    and the hit counter of every rule lies between 0 and the count of
    modified records. *)
Theorem summary_counters_are_consistent
  (p : paths) (s : settings) (rules : list rule) (input : bytes) :
  0 < RecordSize s -> rules_encodable rules = true ->
  NoDup (map Name rules) ->
  exists o,
    run p s rules input = Ok o
    /\ out_modified_count o
       = Z.of_nat (length (filter is_updated_line (out_logs o)))
    /\ 0 <= out_modified_count o <= out_record_count o
    /\ forall r, In r rules ->
         exists h, dict_get (out_rule_hits o) (Name r) = Ok h
                   /\ 0 <= h <= out_modified_count o.
Proof.
  intros Hpos Henc Hnd.
  destruct (InvariantFacts.run_invariant s rules Hpos Henc
              counters_ok
              (CounterFacts.counters_ok_step s rules Hnd) p input)
    as [st [hs [[Hm [Hlog Hhits]] [Ehs E]]]].
  { unfold counters_ok. cbn [modified_count logs hits].
    split; [lia|]. split.
    - unfold preamble.
      rewrite !InvariantFacts.updated_lines_app,
        InvariantFacts.updated_lines_rules. reflexivity.
    - intros k h H. apply CounterFacts.init_hits_zero in H. lia. }
  eexists. split; [exact E|].
  cbn [out_modified_count out_logs out_record_count out_rule_hits].
  split; [|split; [lia|]].
  - rewrite !InvariantFacts.updated_lines_app,
      (InvariantFacts.updated_lines_summary _ _ _ Ehs).
    cbn [filter is_updated_line app]. now rewrite app_nil_r.
  - intros r Hr.
    destruct (CounterFacts.summary_hits_keys _ _ _ Ehs r Hr) as [h Hh].
    exists h. split; [exact Hh|]. exact (Hhits _ _ Hh).
Qed.

Lemma summary_counters_are_consistent_witness :
  exists o,
    run p0 s8 [rule_A; rule_B; rule_F]
      (header8 ++ data8 ++ unknown8 ++ data8) = Ok o
    /\ out_modified_count o
       = Z.of_nat (length (filter is_updated_line (out_logs o)))
    /\ 0 <= out_modified_count o <= out_record_count o.
Proof.
  destruct (summary_counters_are_consistent p0 s8 [rule_A; rule_B; rule_F]
              (header8 ++ data8 ++ unknown8 ++ data8))
    as [o [E [H1 [H2 _]]]].
  - reflexivity.
  - reflexivity.
  - repeat constructor; cbn; intuition discriminate.
  - exists o. split; [exact E|]. split; [exact H1|exact H2].
Defined.

(** *** The shape of the log *)

Module LogFacts.

Lemma loop_lines_changes (cs : list change) :
  forallb is_loop_line (map LChange cs) = true.
Proof. induction cs as [|c cs IH]; [reflexivity|exact IH]. Qed.

Lemma log_extends_step (s : settings) (rules : list rule)
  (start : list log_line) :
  forall (i : Z) (st st' : state) (k : step_kind),
    has_keys rules (hits st) = true -> log_extends start i st ->
    step_spec s rules i (firstn (Z.to_nat (RecordSize s)) (f_in st)) st st' k ->
    log_extends start (i + 1) st'.
Proof.
  intros i st st' k _ [mid [Hl Hmid]] Hspec. unfold log_extends.
  destruct k; cbn [step_spec] in Hspec.
  - destruct Hspec as [_ [_ [Hl' _]]].
    exists (mid ++ [LHeaderSkip (i + 1)]).
    rewrite Hl', Hl, <- app_assoc, forallb_app, Hmid. now split.
  - destruct Hspec as [_ [_ [es [_ [_ [_ [Hl' _]]]]]]].
    exists (mid ++ LUpdated (i + 1) :: map LChange (changes es)).
    rewrite Hl', Hl, <- app_assoc, forallb_app, Hmid. split; [reflexivity|].
    cbn [forallb is_loop_line andb]. apply loop_lines_changes.
  - destruct Hspec as [_ [_ [es [_ [_ [_ [Hl' _]]]]]]].
    exists mid. rewrite Hl', Hl. now split.
  - destruct Hspec as [_ [_ [_ [Hl' _]]]].
    exists mid. rewrite Hl', Hl. now split.
Qed.

Lemma summary_hits_reports (rules : list rule) (d : dict Z) (hs : list log_line) :
  summary_hits rules d = Ok hs -> Forall2 (reports d) rules hs.
Proof.
  revert hs; induction rules as [|r rules IH]; intros hs H;
    cbn [summary_hits] in H.
  - apply Ok_inj in H. subst hs. constructor.
  - bind_inv H h Eh. bind_inv H ls El. apply Ok_inj in H. subst hs.
    constructor; [now exists h|now apply IH].
Qed.

End LogFacts.

(** X7.  The log of a run (positive record size, encodable rule values) is
    always made of three parts: the preamble, which echoes the paths, the
    record size, the file size with the record count and every rule; then
    lines of the record loop only ([HEADER - Skip], [UPDATED] and change
    lines); then the summary, which gives the count of modified records
    over the record count and, for every rule in declaration order, the
    value its hit counter ends with. *)
Theorem log_is_preamble_records_summary
  (p : paths) (s : settings) (rules : list rule) (input : bytes) :
  0 < RecordSize s -> rules_encodable rules = true ->
  exists o mid hs,
    run p s rules input = Ok o
    /\ out_logs o
       = preamble p s rules (len input) (len input / RecordSize s)
         ++ mid
         ++ [LBlank; LSeparator;
             LSummary (out_modified_count o) (out_record_count o)]
         ++ hs
    /\ forallb is_loop_line mid = true
    /\ Forall2 (reports (out_rule_hits o)) rules hs.
Proof.
  intros Hpos Henc.
  destruct (InvariantFacts.run_invariant s rules Hpos Henc
              (log_extends
                 (preamble p s rules (len input) (len input / RecordSize s)))
              (LogFacts.log_extends_step s rules _) p input)
    as [st [hs [[mid [Hl Hmid]] [Ehs E]]]].
  { exists []. cbn [logs]. now rewrite app_nil_r. }
  eexists. exists mid, hs. split; [exact E|].
  cbn [out_logs out_modified_count out_record_count out_rule_hits].
  split; [now rewrite Hl, <- app_assoc|].
  split; [exact Hmid|]. now apply LogFacts.summary_hits_reports.
Qed.

Lemma log_is_preamble_records_summary_witness :
  exists o mid hs,
    run p0 s8 [rule_A; rule_F] (header8 ++ data8) = Ok o
    /\ out_logs o
       = preamble p0 s8 [rule_A; rule_F] 16 2
         ++ mid
         ++ [LBlank; LSeparator;
             LSummary (out_modified_count o) (out_record_count o)]
         ++ hs
    /\ forallb is_loop_line mid = true
    /\ Forall2 (reports (out_rule_hits o)) [rule_A; rule_F] hs.
Proof.
  apply (log_is_preamble_records_summary p0 s8 [rule_A; rule_F]
           (header8 ++ data8)); reflexivity.
Defined.

(** *** Records the rules never see *)

Module PassFacts.

(** The loop body on a record that is not handed to the rules: no rule
    value is encoded, the record is appended as read, no counter moves. *)
Lemma process_record_passes (s : settings) (rules : list rule) (i : Z)
  (st : state) :
  0 < RecordSize s ->
  not_data s (firstn (Z.to_nat (RecordSize s)) (f_in st)) = true ->
  exists st',
    process_record s rules i st = Ok st'
    /\ f_in st' = skipn (Z.to_nat (RecordSize s)) (f_in st)
    /\ f_out st' = f_out st ++ [firstn (Z.to_nat (RecordSize s)) (f_in st)]
    /\ modified_count st' = modified_count st
    /\ hits st' = hits st.
Proof.
  intros Hpos Hnd.
  pose proof (read_full (RecordSize s) (f_in st) ltac:(lia)) as Hread.
  destruct (firstn (Z.to_nat (RecordSize s)) (f_in st)) as [|fb tl];
    [discriminate|].
  rewrite (process_record_eq s rules i st fb tl _ Hread).
  cbn [not_data] in Hnd.
  destruct (fb =? HEADER s); [eexists; repeat split|].
  cbn [orb] in Hnd. apply negb_true_iff in Hnd. rewrite Hnd.
  eexists; repeat split.
Qed.

Lemma record_loop_passes (s : settings) (rules : list rule) (n : nat) :
  forall (i : Z) (st : state),
  0 < RecordSize s ->
  forallb (not_data s) (input_records (RecordSize s) n (f_in st)) = true ->
  exists st',
    record_loop s rules n i st = Ok st'
    /\ f_out st' = f_out st ++ input_records (RecordSize s) n (f_in st)
    /\ modified_count st' = modified_count st
    /\ hits st' = hits st.
Proof.
  induction n as [|n IH]; intros i st Hpos H.
  - exists st. cbn. now rewrite app_nil_r.
  - cbn [input_records] in *. rewrite read_full in * by lia.
    cbn [forallb] in H. apply andb_true_iff in H as [H1 H2].
    destruct (process_record_passes s rules i st Hpos H1)
      as [st1 [E1 [Hin [Hout [Hm Hh]]]]].
    rewrite <- Hin in H2.
    destruct (IH (i + 1) st1 Hpos H2) as [st2 [E2 [Hout2 [Hm2 Hh2]]]].
    exists st2. cbn [record_loop]. rewrite E1. cbn [bind].
    split; [exact E2|]. rewrite Hout2, Hout, Hin, <- app_assoc.
    split; [reflexivity|]. split; congruence.
Qed.

Lemma run_passes
  (p : paths) (s : settings) (rules : list rule) (input : bytes) :
  0 < RecordSize s ->
  forallb (not_data s)
    (input_records (RecordSize s)
       (Z.to_nat (len input / RecordSize s)) input) = true ->
  exists o,
    run p s rules input = Ok o
    /\ out_records o
       = input_records (RecordSize s)
           (Z.to_nat (len input / RecordSize s)) input
    /\ out_modified_count o = 0
    /\ out_rule_hits o = init_hits rules.
Proof.
  intros Hpos H. unfold run, floordiv.
  destruct (Z.eqb_spec (RecordSize s) 0) as [E|_]; [lia|]. cbn [bind].
  destruct (record_loop_passes s rules
              (Z.to_nat (len input / RecordSize s)) 0
              {| f_in := input; f_out := [];
                 logs := preamble p s rules (len input)
                           (len input / RecordSize s);
                 modified_count := 0; hits := init_hits rules |} Hpos H)
    as [st [E [Hout [Hm Hh]]]].
  rewrite E. cbn [bind]. cbn [f_out f_in modified_count hits app] in *.
  rewrite Hh.
  destruct (summary_hits_total rules (init_hits rules)
              (init_hits_has_keys rules)) as [hs ->]. cbn [bind].
  eexists. split; [reflexivity|].
  cbn [out_records out_modified_count out_rule_hits]. auto.
Qed.

End PassFacts.

(** X8.  A file without data records is copied.  For rules whose names and
    values can be encoded (the rule text of a UTF-8 configuration file), if
    each record read starts with the header marker or with a byte that is
    not the data marker, the run ends well, writes the records as read,
    counts no modified record and leaves every hit counter at zero, whatever
    the conditions of the rules would match in those records. *)
Theorem file_without_data_records_is_copied
  (p : paths) (s : settings) (rules : list rule) (input : bytes) :
  0 < RecordSize s ->
  rules_printable rules = true ->
  forallb (not_data s)
    (input_records (RecordSize s)
       (Z.to_nat (len input / RecordSize s)) input) = true ->
  exists o,
    run p s rules input = Ok o
    /\ out_records o
       = input_records (RecordSize s)
           (Z.to_nat (len input / RecordSize s)) input
    /\ out_modified_count o = 0
    /\ out_rule_hits o = init_hits rules.
Proof.
  intros Hpos _ Hnd. now apply PassFacts.run_passes.
Qed.

Lemma file_without_data_records_is_copied_witness :
  exists o,
    run p0 s8 [rule_A; rule_C] (header8 ++ unknown8) = Ok o
    /\ out_records o = [header8; unknown8]
    /\ out_modified_count o = 0
    /\ out_rule_hits o = [(of_string "Rule-A", 0); (of_string "Rule-C", 0)].
Proof.
  destruct (file_without_data_records_is_copied p0 s8 [rule_A; rule_C]
              (header8 ++ unknown8)) as [o [E [Hout [Hm Hh]]]].
  - reflexivity.
  - reflexivity.
  - reflexivity.
  - exists o. split; [exact E|]. split; [exact Hout|]. split; [exact Hm|].
    exact Hh.
Defined.

(** X9.  When the header marker and the data marker are configured to the
    same digit, the header branch wins for every record that bears it: no
    rule is ever evaluated, and every run (positive record size) copies the
    whole records of its input and counts nothing. *)
Theorem equal_markers_disable_the_rules
  (p : paths) (s : settings) (rules : list rule) (input : bytes) :
  0 < RecordSize s ->
  HeaderMarker s = DataMarker s ->
  exists o,
    run p s rules input = Ok o
    /\ out_records o
       = input_records (RecordSize s)
           (Z.to_nat (len input / RecordSize s)) input
    /\ out_modified_count o = 0
    /\ out_rule_hits o = init_hits rules.
Proof.
  intros Hpos Heq. apply PassFacts.run_passes; [assumption|].
  apply forallb_forall. intros rec Hrec.
  pose proof (input_records_sized (RecordSize s)
                (Z.to_nat (len input / RecordSize s)) input Hpos
                (record_count_fits _ _ (len_nonneg input) Hpos)) as Hall.
  rewrite Forall_forall in Hall. specialize (Hall rec Hrec).
  destruct rec as [|fb tl]; [unfold len in Hall; cbn in Hall; lia|].
  cbn [not_data]. unfold HEADER, DATA. rewrite Heq.
  now destruct (fb =? 48 + DataMarker s).
Qed.

Lemma equal_markers_disable_the_rules_witness :
  exists o,
    run p0 {| RecordSize := 8; HeaderMarker := 2; DataMarker := 2 |}
      [rule_A] (data8 ++ data8) = Ok o
    /\ out_records o = [data8; data8]
    /\ out_modified_count o = 0.
Proof.
  destruct (equal_markers_disable_the_rules p0
              {| RecordSize := 8; HeaderMarker := 2; DataMarker := 2 |}
              [rule_A] (data8 ++ data8)) as [o [E [Hout [Hm _]]]].
  - reflexivity.
  - reflexivity.
  - exists o. split; [exact E|]. split; [exact Hout|exact Hm].
Defined.

(** *** Degenerate record sizes and short inputs *)

Lemma div_by_negative (a b : Z) : 0 <= a -> b < 0 -> a / b <= 0.
Proof.
  intros Ha Hb.
  pose proof (Z.div_mod a b ltac:(lia)) as Hdm.
  pose proof (Z.mod_neg_bound a b Hb) as Hr.
  nia.
Qed.

(** X10.  The record size is used as it comes from the configuration.  A
    record size of 0 ends the run with [ZeroDivisionError], before any
    record is read.  With a negative record size, or with an input shorter
    than one record (the empty input among them), the run ends well
    without processing anything: the output is empty, no record is counted
    as modified, and the record count reported is [len input // RecordSize],
    which is 0 or negative. *)
Theorem degenerate_sizes
  (p : paths) (s : settings) (rules : list rule) (input : bytes) :
  (RecordSize s = 0 -> run p s rules input = Raise ZeroDivisionError)
  /\ (RecordSize s < 0 \/ len input < RecordSize s ->
      exists o,
        run p s rules input = Ok o
        /\ out_records o = []
        /\ out_modified_count o = 0
        /\ out_record_count o = len input / RecordSize s
        /\ out_record_count o <= 0).
Proof.
  split.
  - intros H0. unfold run, floordiv. now rewrite H0.
  - intros Hs. unfold run, floordiv.
    destruct (Z.eqb_spec (RecordSize s) 0) as [E|Hne].
    { pose proof (len_nonneg input). lia. }
    cbn [bind].
    assert (Hq : len input / RecordSize s <= 0).
    { destruct Hs as [Hneg|Hshort].
      - apply div_by_negative; [apply len_nonneg|assumption].
      - rewrite Z.div_small; [lia|]. pose proof (len_nonneg input). lia. }
    replace (Z.to_nat (len input / RecordSize s)) with O by lia.
    cbn [record_loop bind hits].
    destruct (summary_hits_total rules (init_hits rules)
                (init_hits_has_keys rules)) as [hs ->]. cbn [bind].
    eexists. split; [reflexivity|].
    cbn [out_records out_modified_count out_record_count f_out modified_count].
    auto.
Qed.

Lemma degenerate_sizes_witness :
  run p0 {| RecordSize := 0; HeaderMarker := 1; DataMarker := 2 |}
    [rule_A] data8 = Raise ZeroDivisionError
  /\ (exists o,
        run p0 {| RecordSize := -3; HeaderMarker := 1; DataMarker := 2 |}
          [rule_A] data8 = Ok o
        /\ out_records o = [] /\ out_record_count o = -3)
  /\ (exists o, run p0 s8 [rule_A] [] = Ok o
                /\ out_records o = [] /\ out_record_count o = 0).
Proof.
  split; [|split].
  - apply (proj1 (degenerate_sizes p0
                    {| RecordSize := 0; HeaderMarker := 1; DataMarker := 2 |}
                    [rule_A] data8)). reflexivity.
  - destruct (proj2 (degenerate_sizes p0
                       {| RecordSize := -3; HeaderMarker := 1; DataMarker := 2 |}
                       [rule_A] data8)) as [o [E [Hout [_ [Hc _]]]]].
    + left. reflexivity.
    + exists o. split; [exact E|]. split; [exact Hout|exact Hc].
  - destruct (proj2 (degenerate_sizes p0 s8 [rule_A] []))
      as [o [E [Hout [_ [Hc _]]]]].
    + right. reflexivity.
    + exists o. split; [exact E|]. split; [exact Hout|exact Hc].
Defined.

(** *** Runs over files put end to end *)

Lemma input_records_split (RS : Z) (n1 n2 : nat) (a b : bytes) :
  0 < RS -> len a = Z.of_nat n1 * RS ->
  input_records RS (n1 + n2) (a ++ b)
  = input_records RS n1 a ++ input_records RS n2 b.
Proof.
  intros Hpos. revert a; induction n1 as [|n1 IH]; intros a Hlen.
  - assert (a = []) as -> by (destruct a; [reflexivity|unfold len in Hlen; cbn in Hlen; lia]).
    reflexivity.
  - cbn [Nat.add input_records]. rewrite !read_full by lia.
    assert (Ha : (Z.to_nat RS <= length a)%nat) by (unfold len in Hlen; nia).
    rewrite firstn_app, skipn_app.
    replace (Z.to_nat RS - length a)%nat with O by lia.
    cbn [firstn skipn]. rewrite app_nil_r. cbn [app]. f_equal.
    apply IH. unfold len in *. rewrite length_skipn. nia.
Qed.

(** X11.  Records are processed one by one, without memory of the records
    before: for two inputs of which the first is made of whole records,
    the records written for the two inputs put end to end are the records
    written for the first followed by the records written for the second,
    and the record counts add up. *)
Theorem run_of_concatenated_inputs
  (p : paths) (s : settings) (rules : list rule) (a b : bytes) :
  0 < RecordSize s -> rules_encodable rules = true ->
  len a mod RecordSize s = 0 ->
  exists oa ob oab,
    run p s rules a = Ok oa
    /\ run p s rules b = Ok ob
    /\ run p s rules (a ++ b) = Ok oab
    /\ out_records oab = out_records oa ++ out_records ob
    /\ out_record_count oab = out_record_count oa + out_record_count ob.
Proof.
  intros Hpos Henc Hmod.
  destruct (run_writes s rules Hpos Henc p a) as [oa [Ea [Ca Ra]]].
  destruct (run_writes s rules Hpos Henc p b) as [ob [Eb [Cb Rb]]].
  destruct (run_writes s rules Hpos Henc p (a ++ b)) as [oab [Eab [Cab Rab]]].
  exists oa, ob, oab. repeat split; try assumption.
  - rewrite Rab, Ra, Rb, <- map_app. f_equal.
    assert (Hqa : 0 <= len a / RecordSize s)
      by (apply Z.div_pos; [apply len_nonneg|lia]).
    assert (Hqb : 0 <= len b / RecordSize s)
      by (apply Z.div_pos; [apply len_nonneg|lia]).
    assert (Hsum : len (a ++ b) / RecordSize s
                   = len a / RecordSize s + len b / RecordSize s).
    { rewrite len_app.
      pose proof (Z.div_mod (len a) (RecordSize s) ltac:(lia)) as Hdm.
      rewrite Hmod, Z.add_0_r in Hdm. rewrite Hdm at 1.
      rewrite Z.mul_comm, Z.div_add_l by lia. reflexivity. }
    rewrite Hsum, Z2Nat.inj_add by assumption.
    apply input_records_split; [assumption|].
    rewrite Z2Nat.id by assumption.
    pose proof (Z.div_mod (len a) (RecordSize s) ltac:(lia)). lia.
  - rewrite Cab, Ca, Cb, len_app.
    pose proof (Z.div_mod (len a) (RecordSize s) ltac:(lia)) as Hdm.
    rewrite Hmod, Z.add_0_r in Hdm. rewrite Hdm at 1.
    rewrite Z.mul_comm, Z.div_add_l by lia. reflexivity.
Qed.

Lemma run_of_concatenated_inputs_witness :
  exists oa ob oab,
    run p0 s8 [rule_A] (header8 ++ data8) = Ok oa
    /\ run p0 s8 [rule_A] (data8 ++ [1; 2]) = Ok ob
    /\ run p0 s8 [rule_A] ((header8 ++ data8) ++ data8 ++ [1; 2]) = Ok oab
    /\ out_records oab = out_records oa ++ out_records ob.
Proof.
  destruct (run_of_concatenated_inputs p0 s8 [rule_A] (header8 ++ data8)
              (data8 ++ [1; 2])) as [oa [ob [oab [Ea [Eb [Eab [H _]]]]]]].
  - reflexivity.
  - reflexivity.
  - reflexivity.
  - exists oa, ob, oab. repeat split; assumption.
Defined.

(** *** The codec beyond the Basic Multilingual Plane *)

Module WideFacts.

Lemma encode_char_length (c : Z) (b : bytes) :
  encode_char c = Ok b ->
  len b = if 0x10000 <=? c then 4 else 2.
Proof.
  unfold encode_char.
  destruct ((c <? 0) || (0x10FFFF <? c) || is_surrogate c); [discriminate|].
  destruct (Z.ltb_spec c 0x10000) as [Hlt|Hge]; cbv zeta; intros H;
    apply Ok_inj in H; subst b.
  - destruct (Z.leb_spec 0x10000 c); [lia|reflexivity].
  - destruct (Z.leb_spec 0x10000 c); [reflexivity|lia].
Qed.

Lemma encode_length (v : str) (b : bytes) :
  encode_utf16_be v = Ok b ->
  len b = 2 * len v
          + 2 * Z.of_nat (length (filter (fun c => 0x10000 <=? c) v)).
Proof.
  revert b; induction v as [|c v IH]; intros b H; cbn [encode_utf16_be] in H.
  - apply Ok_inj in H. now subst.
  - bind_inv H bc Ec. bind_inv H bv Ev. apply Ok_inj in H. subst b.
    rewrite len_app, (IH bv eq_refl), (encode_char_length c bc Ec).
    cbn [filter]. unfold len. cbn [length].
    destruct (0x10000 <=? c); cbn [length]; lia.
Qed.

Lemma scalar_spec (c : Z) :
  0 <= c <= 0x10FFFF -> is_surrogate c = false -> scalar c = true.
Proof.
  intros Hc Hs. unfold scalar, encode_char. rewrite Hs.
  destruct (Z.ltb_spec c 0); [lia|].
  destruct (Z.ltb_spec 0x10FFFF c); [lia|].
  cbn [orb]. now destruct (c <? 0x10000).
Qed.

Lemma octet_unit (hi lo : Z) :
  octet hi = true -> octet lo = true -> 0 <= hi * 256 + lo <= 0xFFFF.
Proof.
  unfold octet. intros H1 H2.
  apply andb_true_iff in H1 as [A B]. apply andb_true_iff in H2 as [C D].
  apply Z.leb_le in A, B, C, D. lia.
Qed.

Lemma surrogate_ranges (u : Z) :
  is_surrogate u = true -> is_low_surrogate u = false ->
  0xD800 <= u <= 0xDBFF.
Proof.
  unfold is_surrogate, is_low_surrogate. intros H1 H2.
  apply andb_true_iff in H1 as [A B]. apply Z.leb_le in A, B.
  apply andb_false_iff in H2 as [C|C]; apply Z.leb_gt in C; lia.
Qed.

Lemma low_surrogate_range (u : Z) :
  is_low_surrogate u = true -> 0xDC00 <= u <= 0xDFFF.
Proof.
  unfold is_low_surrogate. intros H.
  apply andb_true_iff in H as [A B]. apply Z.leb_le in A, B. lia.
Qed.

Lemma decode_scalars_upto (n : nat) :
  forall b : bytes,
  (length b <= n)%nat -> forallb octet b = true ->
  forallb scalar (decode_utf16_be b) = true.
Proof.
  induction n as [|n IH]; intros b Hlen Hb.
  - destruct b; [reflexivity|cbn in Hlen; lia].
  - destruct b as [|hi [|lo rest]]; [reflexivity|reflexivity|].
    cbn [forallb] in Hb. apply andb_true_iff in Hb as [Hhi Hb].
    apply andb_true_iff in Hb as [Hlo Hrest].
    pose proof (octet_unit hi lo Hhi Hlo) as Hu.
    cbn [length] in Hlen.
    rewrite decode_cons2. cbv zeta.
    destruct (is_surrogate (hi * 256 + lo)) eqn:Hs; cbn [negb].
    + destruct (is_low_surrogate (hi * 256 + lo)) eqn:Hl.
      * cbn [forallb]. rewrite IH by (assumption || lia). reflexivity.
      * destruct rest as [|hi2 [|lo2 rest']]; [reflexivity|reflexivity|].
        pose proof Hrest as Hrest0.
        cbn [forallb] in Hrest. apply andb_true_iff in Hrest as [Hhi2 Hrest].
        apply andb_true_iff in Hrest as [Hlo2 Hrest'].
        cbn [length] in Hlen.
        destruct (is_low_surrogate (hi2 * 256 + lo2)) eqn:Hl2.
        -- cbn [forallb]. rewrite IH by (assumption || lia).
           rewrite andb_true_r. apply scalar_spec.
           ++ pose proof (surrogate_ranges _ Hs Hl).
              pose proof (low_surrogate_range _ Hl2). lia.
           ++ pose proof (surrogate_ranges _ Hs Hl).
              pose proof (low_surrogate_range _ Hl2).
              unfold is_surrogate. apply andb_false_iff. right.
              apply Z.leb_gt. lia.
        -- cbn [forallb].
           rewrite (IH (hi2 :: lo2 :: rest')) by (assumption || cbn; lia).
           reflexivity.
    + cbn [forallb]. rewrite IH by (assumption || lia).
      rewrite andb_true_r. apply scalar_spec; [lia|assumption].
Qed.

End WideFacts.

(** X12.  For every text [str.encode] accepts, characters beyond U+FFFF
    included, decoding the encoded bytes gives the text back, and the
    encoded length is two bytes per character plus two more for each
    character beyond U+FFFF: the window of a condition or update is wider
    than twice the number of characters when its value holds such
    characters. *)
Theorem roundtrip_with_wide_characters (v : str) :
  encodable v = true ->
  decode_utf16_be (utf16 v) = v
  /\ len (utf16 v)
     = 2 * len v + 2 * Z.of_nat (length (filter (fun c => 0x10000 <=? c) v)).
Proof.
  intros H. pose proof (utf16_encodable v H) as E. split.
  - now apply decode_encode.
  - now apply WideFacts.encode_length.
Qed.

Lemma roundtrip_with_wide_characters_witness :
  decode_utf16_be (utf16 [0x41; 0x1F600; 0x42]) = [0x41; 0x1F600; 0x42]
  /\ len (utf16 [0x41; 0x1F600; 0x42]) = 8.
Proof.
  apply (roundtrip_with_wide_characters [0x41; 0x1F600; 0x42]). reflexivity.
Defined.

(** X13.  Whatever octets a record holds, the old value decoded for a
    change entry is text that can be encoded again: decoding with
    [errors='replace'] never yields a lone surrogate or a code point
    beyond U+10FFFF, every ill-formed piece having become U+FFFD. *)
Theorem decoded_text_is_always_encodable (b : bytes) :
  forallb octet b = true ->
  forallb scalar (decode_utf16_be b) = true
  /\ encodable (decode_utf16_be b) = true.
Proof.
  intros H.
  pose proof (WideFacts.decode_scalars_upto (length b) b (le_n _) H) as Hs.
  split; [exact Hs|].
  unfold encodable. revert Hs. generalize (decode_utf16_be b). intros t.
  induction t as [|c t IH]; [reflexivity|].
  cbn [forallb encode_utf16_be]. intros Hc.
  apply andb_true_iff in Hc as [Hc Ht]. unfold scalar in Hc.
  destruct (encode_char c); [|discriminate]. cbn [bind].
  specialize (IH Ht). now destruct (encode_utf16_be t).
Qed.

Lemma decoded_text_is_always_encodable_witness :
  decode_utf16_be [0xD8; 0x00; 0x00; 0x41; 0xDC; 0x00; 0x07]
  = [REPLACEMENT; 0x41; REPLACEMENT; REPLACEMENT]
  /\ encodable (decode_utf16_be [0xD8; 0x00; 0x00; 0x41; 0xDC; 0x00; 0x07])
     = true.
Proof.
  split; [reflexivity|].
  apply (proj2 (decoded_text_is_always_encodable
                  [0xD8; 0x00; 0x00; 0x41; 0xDC; 0x00; 0x07] eq_refl)).
Defined.

(** *** An update and the condition that reads it back *)

Module RereadFacts.

(** A buffer right after a write at [off], with [off] inside the buffer or
    at its end: the bytes before, the new bytes, and a rest. *)
Lemma setslice_shape (b new : bytes) (off : Z) :
  0 <= off <= len b ->
  exists tail,
    setslice b off (off + len new) new
    = firstn (Z.to_nat off) b ++ new ++ tail.
Proof.
  intros H. unfold setslice. rewrite adjust_index_inside by lia.
  eexists. reflexivity.
Qed.

Lemma getslice_middle (pre new tail : bytes) :
  getslice (pre ++ new ++ tail) (len pre) (len pre + len new) = new.
Proof.
  unfold getslice.
  pose proof (len_nonneg pre). pose proof (len_nonneg new).
  pose proof (len_nonneg tail).
  rewrite !adjust_index_inside by (rewrite !len_app; lia).
  replace (len pre + len new - len pre) with (len new) by lia.
  unfold len. rewrite !Nat2Z.id.
  rewrite skipn_app, skipn_all, Nat.sub_diag. cbn [app skipn].
  rewrite firstn_app, firstn_all, Nat.sub_diag. cbn [firstn].
  apply app_nil_r.
Qed.

Lemma setslice_middle (pre new tail : bytes) :
  setslice (pre ++ new ++ tail) (len pre) (len pre + len new) new
  = pre ++ new ++ tail.
Proof.
  pose proof (len_nonneg pre). pose proof (len_nonneg new).
  pose proof (len_nonneg tail).
  rewrite setslice_inside by (rewrite ?len_app; lia).
  unfold len. rewrite Nat2Z.id.
  rewrite firstn_app, firstn_all, Nat.sub_diag. cbn [firstn].
  rewrite app_nil_r. f_equal. f_equal.
  rewrite skipn_app, skipn_all2 by lia.
  replace (length pre + length new - length pre)%nat with (length new) by lia.
  rewrite skipn_app, skipn_all, Nat.sub_diag. reflexivity.
Qed.

Lemma len_firstn_inside (b : bytes) (off : Z) :
  0 <= off <= len b -> len (firstn (Z.to_nat off) b) = off.
Proof. intros H. unfold len in *. rewrite length_firstn. lia. Qed.

End RereadFacts.

(** X14.  After an update has been written at a position inside the record
    or at its end (1 <= StartByte <= length + 1), a condition with the same
    position and value matches the record; writing the same update again
    leaves the record as it is; and the change entry of that second write
    reports the value itself as the old value. *)
Theorem update_then_same_condition_matches
  (name : str) (u : entry) (b : bytes) :
  encodable (Value u) = true ->
  1 <= StartByte u <= len b + 1 ->
  all_match [u] (write b u) = Ok true
  /\ write (write b u) u = write b u
  /\ ch_old_val (change_of name (write b u) u) = Value u.
Proof.
  intros Henc Hpos.
  pose proof (utf16_encodable _ Henc) as E.
  destruct (RereadFacts.setslice_shape b (utf16 (Value u)) (StartByte u - 1))
    as [tail Hshape]; [lia|].
  pose proof (RereadFacts.len_firstn_inside b (StartByte u - 1) ltac:(lia))
    as Hpre.
  set (pre := firstn (Z.to_nat (StartByte u - 1)) b) in *.
  assert (Hw : write b u = pre ++ utf16 (Value u) ++ tail) by exact Hshape.
  assert (Hget : getslice (write b u) (StartByte u - 1)
                   (StartByte u - 1 + len (utf16 (Value u)))
                 = utf16 (Value u)).
  { rewrite Hw, <- Hpre. apply RereadFacts.getslice_middle. }
  split; [|split].
  - cbn [all_match]. rewrite E. cbn [bind].
    now rewrite Hget, list_eqb_refl.
  - unfold write at 1. rewrite Hw, <- Hpre.
    apply RereadFacts.setslice_middle.
  - unfold change_of. cbn [ch_old_val]. rewrite Hget.
    now apply decode_encode.
Qed.

Lemma update_then_same_condition_matches_witness :
  all_match [ent 8 "Q"] (write data8 (ent 8 "Q")) = Ok true
  /\ write (write data8 (ent 8 "Q")) (ent 8 "Q") = write data8 (ent 8 "Q")
  /\ ch_old_val (change_of (of_string "Rule-G") (write data8 (ent 8 "Q"))
                   (ent 8 "Q")) = of_string "Q".
Proof.
  apply (update_then_same_condition_matches (of_string "Rule-G") (ent 8 "Q")
           data8); [reflexivity|].
  split; [discriminate|discriminate].
Defined.

(** *** Positions below 1 *)

Module OriginFacts.

Lemma getslice_length_bound (b : bytes) (start stop : Z) :
  len (getslice b start stop)
  <= Z.max 0 (adjust_index (len b) stop - adjust_index (len b) start).
Proof.
  unfold getslice, len. rewrite length_firstn. lia.
Qed.

(** A negative index that stays inside the buffer is the index counted from
    the end. *)
Lemma adjust_index_from_end (n i : Z) :
  - n <= i < 0 -> adjust_index n i = adjust_index n (i + n).
Proof.
  intros H. unfold adjust_index.
  destruct (Z.ltb_spec i 0), (Z.ltb_spec (i + n) 0); lia.
Qed.

End OriginFacts.

(** X15.  Positions are 1-based and not checked, and position 0 is not the
    first byte.  An entry whose window starts before position 1 and ends at
    or after it (position 0 with any non-empty value is the common case) is
    read with a negative slice start and a non-negative slice stop: as a
    condition it never matches, whatever the record holds, so its rule never
    fires; as an update on a record that is at least as long as the value
    and as the distance counted from the end, it overwrites nothing and
    inserts the value, so the record grows by the length of the value. *)
Theorem window_across_position_one (e : entry) (conds : list entry) (b : bytes) :
  encodable (Value e) = true ->
  StartByte e - 1 < 0 <= StartByte e - 1 + len (utf16 (Value e)) ->
  all_match (e :: conds) b = Ok false
  /\ (1 - StartByte e <= len b ->
      len (utf16 (Value e)) <= len b ->
      write b e
      = firstn (Z.to_nat (len b + StartByte e - 1)) b
        ++ utf16 (Value e)
        ++ skipn (Z.to_nat (len b + StartByte e - 1)) b
      /\ len (write b e) = len b + len (utf16 (Value e))).
Proof.
  intros Henc Hwin.
  pose proof (utf16_encodable _ Henc) as E.
  pose proof (len_nonneg b) as Hb.
  split.
  - cbn [all_match]. rewrite E. cbn [bind].
    set (off := StartByte e - 1) in *.
    set (L := len (utf16 (Value e))) in *.
    destruct (list_eqb (getslice b off (off + L)) (utf16 (Value e))) eqn:Heq;
      [|reflexivity].
    exfalso. apply list_eqb_length in Heq.
    pose proof (OriginFacts.getslice_length_bound b off (off + L)) as Hle.
    assert (Hlen : len (getslice b off (off + L)) = L)
      by (unfold len at 1; rewrite Heq; reflexivity).
    rewrite Hlen in Hle. revert Hle. unfold adjust_index.
    destruct (Z.ltb_spec off 0), (Z.ltb_spec (off + L) 0); lia.
  - intros Hfar Hfit.
    assert (Hw : write b e
                 = firstn (Z.to_nat (len b + StartByte e - 1)) b
                   ++ utf16 (Value e)
                   ++ skipn (Z.to_nat (len b + StartByte e - 1)) b).
    { unfold write, setslice.
      set (off := StartByte e - 1) in *.
      set (L := len (utf16 (Value e))) in *.
      replace (len b + StartByte e - 1) with (len b + off) by (unfold off; lia).
      assert (Hs : adjust_index (len b) off = len b + off).
      { unfold adjust_index. destruct (Z.ltb_spec off 0); lia. }
      assert (He : Z.max (len b + off) (adjust_index (len b) (off + L))
                   = len b + off).
      { unfold adjust_index. destruct (Z.ltb_spec (off + L) 0); lia. }
      cbv zeta. rewrite Hs, He. reflexivity. }
    split; [exact Hw|].
    rewrite Hw. unfold len in *.
    rewrite !length_app, length_firstn, length_skipn. lia.
Qed.

Lemma window_across_position_one_witness :
  all_match [ent 0 "A"; ent 2 "A"] data8 = Ok false
  /\ write data8 (ent 0 "A") = [0x32; 0; 65; 7; 7; 7; 7; 0; 65; 7]
  /\ len (write data8 (ent 0 "A")) = 10.
Proof.
  destruct (window_across_position_one (ent 0 "A") [ent 2 "A"] data8)
    as [Hm Hw].
  - reflexivity.
  - split; [reflexivity|discriminate].
  - split; [exact Hm|].
    apply Hw; discriminate.
Defined.

(** X16.  A position so far below 1 that the whole window lies below it is
    not an error either: Python counts both slice ends from the end of the
    record.  When the window also starts inside the record, the entry reads
    and writes exactly what the entry at [StartByte + record length] does,
    as a condition and as an update. *)
Theorem window_below_position_one_counts_from_the_end
  (e : entry) (conds : list entry) (b : bytes) :
  - len b <= StartByte e - 1 ->
  StartByte e - 1 + len (utf16 (Value e)) < 0 ->
  all_match (e :: conds) b
  = all_match ({| StartByte := StartByte e + len b; Value := Value e |}
               :: conds) b
  /\ write b e
     = write b {| StartByte := StartByte e + len b; Value := Value e |}.
Proof.
  intros Hin Hneg.
  pose proof (len_nonneg (utf16 (Value e))) as HL.
  assert (Hs : adjust_index (len b) (StartByte e - 1)
               = adjust_index (len b) (StartByte e + len b - 1)).
  { rewrite OriginFacts.adjust_index_from_end by lia. f_equal. lia. }
  assert (He : forall L, L = len (utf16 (Value e)) ->
               adjust_index (len b) (StartByte e - 1 + L)
               = adjust_index (len b) (StartByte e + len b - 1 + L)).
  { intros L ->. rewrite OriginFacts.adjust_index_from_end by lia.
    f_equal. lia. }
  split.
  - cbn [all_match StartByte Value].
    destruct (encode_utf16_be (Value e)) as [x|err] eqn:E; [|reflexivity].
    cbn [bind]. unfold getslice.
    assert (Hx : x = utf16 (Value e)) by (unfold utf16; now rewrite E).
    rewrite Hs, (He (len x)) by now rewrite Hx.
    reflexivity.
  - unfold write, setslice. cbn [StartByte Value]. cbv zeta.
    rewrite Hs, (He _ eq_refl). reflexivity.
Qed.

Lemma window_below_position_one_counts_from_the_end_witness :
  all_match [ent (-6) "A"] data8 = all_match [ent 2 "A"] data8
  /\ write data8 (ent (-5) "Q") = write data8 (ent 3 "Q").
Proof.
  destruct (window_below_position_one_counts_from_the_end
              (ent (-6) "A") [] data8) as [Hm _];
    [discriminate|reflexivity|].
  destruct (window_below_position_one_counts_from_the_end
              (ent (-5) "Q") [] data8) as [_ Hw];
    [discriminate|reflexivity|].
  split; [exact Hm|exact Hw].
Defined.

(** *** The conditions of a rule as a conjunction *)

Module ConjunctionFacts.

Lemma all_match_conj (conds : list entry) (rec : bytes) :
  entries_encodable conds = true ->
  all_match conds rec = Ok (forallb (matches rec) conds).
Proof.
  induction conds as [|c conds IH]; intros Henc; [reflexivity|].
  cbn [entries_encodable forallb] in Henc.
  apply andb_true_iff in Henc as [Hc Hrest].
  cbn [all_match forallb]. rewrite (utf16_encodable _ Hc). cbn [bind].
  unfold matches at 1.
  destruct (list_eqb _ _); [now apply IH|reflexivity].
Qed.

Lemma matches_all_permuted (rec : bytes) (conds conds' : list entry) :
  Permutation conds conds' ->
  forallb (matches rec) conds = forallb (matches rec) conds'.
Proof.
  induction 1 as [|c l l' _ IH|c d l|l l' l'' _ IH1 _ IH2]; cbn [forallb].
  - reflexivity.
  - now rewrite IH.
  - destruct (matches rec c), (matches rec d); reflexivity.
  - now rewrite IH1.
Qed.

Lemma entries_encodable_permuted (conds conds' : list entry) :
  Permutation conds conds' ->
  entries_encodable conds = true -> entries_encodable conds' = true.
Proof.
  intros HP H. unfold entries_encodable in *.
  rewrite forallb_forall in *. intros e He. apply H.
  now apply (Permutation_in _ (Permutation_sym HP)).
Qed.

End ConjunctionFacts.

(** X17.  When every value of the conditions can be encoded, the condition
    loop computes the conjunction of the single comparisons, so the order in
    which a rule lists its conditions does not change whether it matches:
    any reordering of the list gives the same result on every record. *)
Theorem condition_order_is_irrelevant (conds conds' : list entry) (rec : bytes) :
  entries_encodable conds = true ->
  Permutation conds conds' ->
  all_match conds rec = Ok (forallb (matches rec) conds)
  /\ all_match conds' rec = all_match conds rec.
Proof.
  intros Henc HP.
  pose proof (ConjunctionFacts.entries_encodable_permuted _ _ HP Henc) as Henc'.
  rewrite !ConjunctionFacts.all_match_conj by assumption.
  split; [reflexivity|].
  f_equal. symmetry. now apply ConjunctionFacts.matches_all_permuted.
Qed.

Lemma condition_order_is_irrelevant_witness :
  all_match [ent 2 "A"; ent 4 "B"] data8
  = Ok (forallb (matches data8) [ent 2 "A"; ent 4 "B"])
  /\ all_match [ent 4 "B"; ent 2 "A"] data8
     = all_match [ent 2 "A"; ent 4 "B"] data8.
Proof.
  apply (condition_order_is_irrelevant [ent 2 "A"; ent 4 "B"]
           [ent 4 "B"; ent 2 "A"] data8); [reflexivity|].
  apply perm_swap.
Defined.

(** *** Entries with an empty value *)

Module BlankFacts.

Lemma getslice_empty_window (b : bytes) (off : Z) : getslice b off off = [].
Proof.
  unfold getslice. now rewrite Z.sub_diag.
Qed.

Lemma setslice_empty_window (b : bytes) (off : Z) : setslice b off off [] = b.
Proof.
  unfold setslice. cbv zeta. rewrite Z.max_id. cbn [app].
  apply firstn_skipn.
Qed.

Lemma write_blank (b : bytes) (u : entry) : Value u = [] -> write b u = b.
Proof.
  intros Hv. unfold write. rewrite Hv.
  change (utf16 []) with (@nil Z). change (len (@nil Z)) with 0.
  rewrite Z.add_0_r. apply setslice_empty_window.
Qed.

Lemma all_match_blank (conds : list entry) (rec : bytes) :
  Forall (fun e => Value e = []) conds -> all_match conds rec = Ok true.
Proof.
  induction 1 as [|c conds Hc _ IH]; [reflexivity|].
  cbn [all_match]. rewrite Hc.
  change (encode_utf16_be []) with (@Ok bytes []). cbn [bind].
  change (len (@nil Z)) with 0. rewrite Z.add_0_r, getslice_empty_window.
  exact IH.
Qed.

Lemma blank_encodable (es : list entry) :
  Forall (fun e => Value e = []) es -> entries_encodable es = true.
Proof.
  induction 1 as [|c es Hc _ IH]; [reflexivity|].
  cbn [entries_encodable forallb]. rewrite Hc. exact IH.
Qed.

Lemma fold_write_blank (upds : list entry) (b : bytes) :
  Forall (fun e => Value e = []) upds -> fold_left write upds b = b.
Proof.
  induction 1 as [|u upds Hu _ IH]; [reflexivity|].
  cbn [fold_left]. now rewrite write_blank.
Qed.

Lemma update_changes_blank (name : str) (upds : list entry) (b : bytes) :
  Forall (fun e => Value e = []) upds ->
  update_changes name upds b
  = map (fun u => {| ch_rule := name; ch_StartByte := StartByte u;
                     ch_old_val := []; ch_new_val := [] |}) upds.
Proof.
  intros H. revert b. induction H as [|u upds Hu _ IH]; intros b;
    [reflexivity|].
  cbn [update_changes map]. rewrite write_blank by exact Hu. rewrite IH.
  f_equal. unfold change_of. rewrite Hu.
  change (utf16 []) with (@nil Z). change (len (@nil Z)) with 0.
  rewrite Z.add_0_r, getslice_empty_window. reflexivity.
Qed.

End BlankFacts.

(** X18.  An entry written [N:] has the empty value, which is not rejected.
    As a condition it compares an empty slice with no bytes and holds on
    every record at every position; as an update it writes no byte.  So a
    rule whose conditions and updates all have the empty value fires on
    every record it is tried on: the record keeps its bytes, yet the rule
    counter goes up by one, the record counts as changed, and one change
    entry with empty old and new values is logged per update. *)
Theorem empty_values_fire_without_changing
  (r : rule) (st : eval_state) (h : Z) :
  Forall (fun e => Value e = []) (Conditions r) ->
  Forall (fun e => Value e = []) (Updates r) ->
  dict_get (rule_hits st) (Name r) = Ok h ->
  eval_rule r st
  = Ok {| record := record st;
          changes := changes st
                     ++ map (fun u => {| ch_rule := Name r;
                                         ch_StartByte := StartByte u;
                                         ch_old_val := []; ch_new_val := [] |})
                            (Updates r);
          has_change := true;
          rule_hits := dict_set (rule_hits st) (Name r) (h + 1) |}.
Proof.
  intros Hc Hu Hh.
  rewrite (eval_rule_fires r st h);
    [| now apply BlankFacts.all_match_blank
     | now apply BlankFacts.blank_encodable
     | exact Hh ].
  rewrite BlankFacts.fold_write_blank by exact Hu.
  rewrite BlankFacts.update_changes_blank by exact Hu.
  reflexivity.
Qed.

Lemma empty_values_fire_without_changing_witness :
  eval_rule (mk_rule "Rule-E" [ent 3 ""] [ent 5 ""])
    {| record := data8; changes := []; has_change := false;
       rule_hits := [(of_string "Rule-E", 0)] |}
  = Ok {| record := data8;
          changes := [ {| ch_rule := of_string "Rule-E"; ch_StartByte := 5;
                          ch_old_val := []; ch_new_val := [] |} ];
          has_change := true;
          rule_hits := [(of_string "Rule-E", 1)] |}.
Proof.
  apply (empty_values_fire_without_changing
           (mk_rule "Rule-E" [ent 3 ""] [ent 5 ""])
           {| record := data8; changes := []; has_change := false;
              rule_hits := [(of_string "Rule-E", 0)] |} 0).
  - repeat constructor.
  - repeat constructor.
  - reflexivity.
Defined.

(** *** The generated test records *)

(** X19.  What [create_test_data.py] says of the records it writes holds
    for the loop body at every index [i]: the record has [record_size]
    bytes; its first byte is the character 1 (a header) at index 0 and the
    character 2 (a data record) elsewhere; it meets the conditions the
    script prints for Rule-1 (02 at byte 50 and 534 at byte 78) exactly at
    indexes 1 and 2, the records numbered 2 and 3, and the condition it
    prints for Rule-2 (99 at byte 234) exactly at index 3, record 4. *)
Theorem generated_records_match_as_announced (i : Z) :
  len (CreateTestData.test_record i) = CreateTestData.record_size
  /\ nth_error (CreateTestData.test_record i) 0
     = Some (if i =? 0 then 0x31 else 0x32)
  /\ all_match (Conditions fixture_rule_1) (CreateTestData.test_record i)
     = Ok ((i =? 1) || (i =? 2))
  /\ all_match (Conditions fixture_rule_2) (CreateTestData.test_record i)
     = Ok (i =? 3).
Proof.
  unfold CreateTestData.test_record.
  destruct (Z.eqb_spec i 0) as [->|H0];
    [vm_compute; repeat split; reflexivity|].
  destruct (Z.eqb_spec i 1) as [->|H1];
    [vm_compute; repeat split; reflexivity|].
  destruct (Z.eqb_spec i 2) as [->|H2];
    [vm_compute; repeat split; reflexivity|].
  destruct (Z.eqb_spec i 3) as [->|H3];
    [vm_compute; repeat split; reflexivity|].
  vm_compute; repeat split; reflexivity.
Qed.
